(** * A shallow embedding of the utility library (validators, strings,
      collections, HTTP client, EnumerableList) and proofs about it.

    Part I embeds the Python functions, module by module, with the
    source's names.  Part II states and proves their properties. *)

From Stdlib Require Import String Ascii ZArith Bool Lia.
From Stdlib Require Import List ListSet Permutation.
Import ListNotations.
Open Scope Z_scope.
Set Warnings "-register-all".

(* ================================================================= *)
(** * Part I -- the embedding *)
(* ================================================================= *)

(** ** Python values and built-ins used by the library *)

Module Py.

(** The exception classes raised by the embedded functions.  The
    formatted messages are not modelled, only the class. *)
Inductive exn : Type :=
| ValueError
| TypeError
| AttributeError.

(** A call either returns a value or raises. *)
Inductive result (A : Type) : Type :=
| Ok (a : A)
| Raise (e : exn).
Arguments Ok {A} a.
Arguments Raise {A} e.

Definition bind {A B : Type} (r : result A) (k : A -> result B) : result B :=
  match r with
  | Ok a => k a
  | Raise e => Raise e
  end.

(** [len(x)] *)
Definition len {A : Type} (l : list A) : Z := Z.of_nat (List.length l).

(** [not x] for a sequence: true exactly on the empty one. *)
Definition is_empty {A : Type} (l : list A) : bool :=
  match l with
  | [] => true
  | _ :: _ => false
  end.

(** How a slice bound [i] is read against a sequence of length [n]
    (step 1): negative bounds count from the end, and every bound is
    clamped into [0, n]. *)
Definition norm_index (n i : Z) : Z :=
  if i <? 0 then Z.max (i + n) 0 else Z.min i n.

(** [l[start:stop]]; [None] is an omitted bound. *)
Definition slice {A : Type} (l : list A) (start stop : option Z) : list A :=
  let n := len l in
  let lo := match start with None => 0 | Some i => norm_index n i end in
  let hi := match stop with None => n | Some j => norm_index n j end in
  firstn (Z.to_nat (hi - lo)) (skipn (Z.to_nat lo) l).

(** [s * n] for a sequence [s]: empty when [n <= 0]. *)
Definition repeat_seq {A : Type} (s : list A) (n : Z) : list A :=
  concat (repeat s (Z.to_nat n)).

(** Every second element, starting with the first. *)
Fixpoint every_second {A : Type} (l : list A) : list A :=
  match l with
  | [] => []
  | x :: rest => x :: match rest with
                      | [] => []
                      | _ :: rest' => every_second rest'
                      end
  end.

(** [l[-1::-2]]: the last element, then every second one towards the
    front. *)
Definition slice_back2_from_last {A : Type} (l : list A) : list A :=
  every_second (rev l).

(** [l[-2::-2]]: the element before the last, then every second one
    towards the front. *)
Definition slice_back2_from_penultimate {A : Type} (l : list A) : list A :=
  every_second (tl (rev l)).

(** [sum(l)] on integers. *)
Definition sum (l : list Z) : Z := fold_left Z.add l 0.

(** A [str] is a sequence of code points.  Where the classification of
    characters matters (the validators) the embedding takes the code
    points U+0000..U+00FF, one [ascii] each. *)
Definition str : Type := list ascii.

Definition lit (s : string) : str := list_ascii_of_string s.

(** Immutable Python data as trees: numbers and other scalars, [str],
    [bytes], sequences (list, tuple and any other object with
    [__iter__]) and [dict] with string keys in insertion order. *)
Inductive value : Type :=
| VInt (z : Z)
| VStr (s : string)
| VBytes (b : list ascii)
| VList (xs : list value)
| VDict (d : list (string * value)).

End Py.

Import Py.

Declare Scope py_scope.
Notation "x <- c1 ;; c2" := (Py.bind c1 (fun x => c2))
  (at level 61, c1 at next level, right associativity) : py_scope.
Open Scope py_scope.

(** ** src/validators.py *)

Module Validators.

Definition ord (c : ascii) : Z := Z.of_N (N_of_ascii c).

(** The class [\s] of [re] on a str pattern: the characters for which
    [str.isspace()] holds; below U+0100 these are U+0009..U+000D,
    U+001C..U+001F, U+0020, U+0085 and U+00A0. *)
Definition re_space (c : ascii) : bool :=
  let n := ord c in
  ((9 <=? n) && (n <=? 13)) || ((28 <=? n) && (n <=? 31))
  || (n =? 32) || (n =? 133) || (n =? 160).

(** The character class [[\s\-]]. *)
Definition re_space_or_dash (c : ascii) : bool :=
  re_space c || (ord c =? 45).

(** [re.sub(r'[\s\-]', '', number)] *)
Definition re_sub_space_dash (number : str) : str :=
  filter (fun c => negb (re_space_or_dash c)) number.

(** The decimal digits [0]..[9]. *)
Definition is_decimal (c : ascii) : bool :=
  let n := ord c in (48 <=? n) && (n <=? 57).

(** One character of [str.isdigit()]: Numeric_Type Decimal or Digit;
    below U+0100 the decimal digits and the superscripts U+00B2,
    U+00B3 and U+00B9. *)
Definition char_isdigit (c : ascii) : bool :=
  let n := ord c in
  is_decimal c || (n =? 178) || (n =? 179) || (n =? 185).

(** [s.isdigit()]: false on the empty string. *)
Definition isdigit (s : str) : bool :=
  negb (is_empty s) && forallb char_isdigit s.

(** [int(d)] on a one-character string: only a decimal digit has a
    value, anything else raises ValueError. *)
Definition int_of_char (d : ascii) : result Z :=
  if is_decimal d then Ok (ord d - 48) else Raise ValueError.

(** [[int(d) for d in cleaned]] *)
Fixpoint int_each (cleaned : str) : result (list Z) :=
  match cleaned with
  | [] => Ok []
  | d :: rest =>
      n <- int_of_char d ;;
      ns <- int_each rest ;;
      Ok (n :: ns)
  end.

(** The loop [for digit in even_digits: ...] on the running checksum. *)
Definition add_doubled (checksum digit : Z) : Z :=
  let doubled := digit * 2 in
  checksum + (if doubled >? 9 then doubled - 9 else doubled).

Definition is_valid_credit_card (number : str) : result bool :=
  if is_empty number then Ok false
  else
    let cleaned := re_sub_space_dash number in
    if negb (isdigit cleaned) || (len cleaned <? 13) || (len cleaned >? 19)
    then Ok false
    else
      digits <- int_each cleaned ;;
      let odd_digits := slice_back2_from_last digits in
      let even_digits := slice_back2_from_penultimate digits in
      let checksum := sum odd_digits in
      let checksum := fold_left add_doubled even_digits checksum in
      Ok (checksum mod 10 =? 0).

(** *** is_in_range *)

(** The argument [value] of [is_in_range]: numbers are modelled by the
    integers; anything that is not a number is [NotANumber]. *)
Inductive range_arg : Type :=
| Number (z : Z)
| NotANumber.

Definition is_in_range (value : range_arg) (min_val max_val : option Z)
           (inclusive : bool) : bool :=
  match value with
  | NotANumber => false
  | Number value =>
      if match min_val with
         | Some m => if inclusive then value <? m else value <=? m
         | None => false
         end
      then false
      else if match max_val with
              | Some m => if inclusive then value >? m else value >=? m
              | None => false
              end
           then false
           else true
  end.

(** *** is_valid_phone *)

(** The regular expressions of the phone patterns: a literal
    character, a character class, a sequence, an optional group and
    the empty pattern; [r{n}] and [r{lo,hi}] are built from these. *)
Inductive regex : Type :=
| Chr (c : ascii)
| Cls (p : ascii -> bool)
| Cat (r1 r2 : regex)
| Opt (r : regex)
| Eps.

(** [r{n}] *)
Fixpoint times (n : nat) (r : regex) : regex :=
  match n with
  | O => Eps
  | S n' => Cat r (times n' r)
  end.

(** [r{0,n}], greedy *)
Fixpoint at_most (n : nat) (r : regex) : regex :=
  match n with
  | O => Eps
  | S n' => Opt (Cat r (at_most n' r))
  end.

(** [r{lo,hi}] *)
Definition between (lo hi : nat) (r : regex) : regex :=
  Cat (times lo r) (at_most (hi - lo) r).

(** Backtracking match of [r] at the start of [s]; [k] says whether
    the rest of the pattern matches what is left. *)
Fixpoint matches (r : regex) (s : str) (k : str -> bool) : bool :=
  match r with
  | Chr c =>
      match s with
      | x :: s' => Ascii.eqb c x && k s'
      | [] => false
      end
  | Cls p =>
      match s with
      | x :: s' => p x && k s'
      | [] => false
      end
  | Cat r1 r2 => matches r1 s (fun s' => matches r2 s' k)
  | Opt r' => matches r' s k || k s
  | Eps => k s
  end.

(** [$]: the end of the string, or just before a newline that ends it. *)
Definition at_end (s : str) : bool :=
  match s with
  | [] => true
  | [c] => ord c =? 10
  | _ => false
  end.

(** [bool(re.match(pattern, s))] for a pattern [^...$]. *)
Definition re_match (pattern : regex) (s : str) : bool :=
  matches pattern s at_end.

(** [\d] on the code points below U+0100. *)
Definition digit : regex := Cls is_decimal.

(** A class [[lo-9]] of decimal digits. *)
Definition digit_from (lo : Z) : regex :=
  Cls (fun c => (lo <=? ord c - 48) && (ord c - 48 <=? 9)).

(** A literal string. *)
Fixpoint literal (s : str) : regex :=
  match s with
  | [] => Eps
  | c :: rest => Cat (Chr c) (literal rest)
  end.

(** The table [patterns]: [^(\+1)?[2-9]\d{9}$], [^(\+44)?[1-9]\d{9,10}$]
    and [^(\+49)?[1-9]\d{9,13}$]. *)
Definition patterns : list (string * regex) :=
  [ ("US"%string, Cat (Opt (literal (lit "+1"))) (Cat (digit_from 2) (times 9 digit)));
    ("UK"%string, Cat (Opt (literal (lit "+44"))) (Cat (digit_from 1) (between 9 10 digit)));
    ("DE"%string, Cat (Opt (literal (lit "+49"))) (Cat (digit_from 1) (between 9 13 digit))) ].

(** The character class [[\s\-\(\)\.]]. *)
Definition phone_formatting (c : ascii) : bool :=
  re_space c || (ord c =? 45) || (ord c =? 40) || (ord c =? 41) || (ord c =? 46).

Fixpoint lookup_pattern (table : list (string * regex)) (country_code : string)
  : option regex :=
  match table with
  | [] => None
  | (code, pattern) :: rest =>
      if String.eqb code country_code then Some pattern
      else lookup_pattern rest country_code
  end.

Definition is_valid_phone (phone : str) (country_code : string) : result bool :=
  if is_empty phone then Ok false
  else
    let cleaned := filter (fun c => negb (phone_formatting c)) phone in
    match lookup_pattern patterns country_code with
    | None => Raise ValueError
    | Some pattern => Ok (re_match pattern cleaned)
    end.

End Validators.

(** ** src/strings.py *)

Module Strings.

(** [truncate] and [mask_sensitive] only measure, cut and join their
    strings, so they are embedded for any type of characters. *)
Section Text.
Variable char : Type.

Definition truncate (text : list char) (max_length : Z)
           (suffix : list char) : result (list char) :=
  if is_empty text then Ok []
  else if max_length <=? len suffix then Raise ValueError
  else if len text <=? max_length then Ok text
  else
    let truncated_length := max_length - len suffix in
    Ok (slice text None (Some truncated_length) ++ suffix).

Definition mask_sensitive (text : list char) (visible_chars : Z)
           (mask_char : list char) : list char :=
  if is_empty text then []
  else if (len text <=? 3) || (visible_chars >=? len text) then text
  else
    let masked_length := len text - visible_chars in
    repeat_seq mask_char masked_length
      ++ slice text (Some (- visible_chars)) None.

End Text.

Arguments truncate {char} text max_length suffix.
Arguments mask_sensitive {char} text visible_chars mask_char.

(** The default [mask_char="*"]. *)
Definition default_mask_char : str := lit "*".

(** *** strip_html *)

(** The longest run of characters other than [>] at the start of a
    string (what [[^>]+] takes), and what follows it. *)
Fixpoint span_not_gt (s : str) : str * str :=
  match s with
  | [] => ([], [])
  | c :: rest =>
      if Ascii.eqb c ">" then ([], s)
      else let (tag, after) := span_not_gt rest in (c :: tag, after)
  end.

(** [re.sub(r'<[^>]+>', '', html)], scanning from the left: at a [<]
    followed by at least one character other than [>] and then a [>],
    the whole tag is dropped and the scan goes on after it; any other
    character is kept.  [fuel] bounds the number of steps; the length
    of the string is enough. *)
Fixpoint sub_tags (fuel : nat) (html : str) : str :=
  match fuel with
  | O => html
  | S fuel' =>
      match html with
      | [] => []
      | c :: rest =>
          if Ascii.eqb c "<"
          then
            match span_not_gt rest with
            | (_ :: _, _ :: after) => sub_tags fuel' after
            | _ => c :: sub_tags fuel' rest
            end
          else c :: sub_tags fuel' rest
      end
  end.

Definition re_sub_tags (html : str) : str := sub_tags (List.length html) html.

(** [s.startswith(prefix)] *)
Fixpoint starts_with (prefix s : str) : bool :=
  match prefix, s with
  | [], _ => true
  | p :: prefix', c :: s' => Ascii.eqb p c && starts_with prefix' s'
  | _ :: _, [] => false
  end.

(** [s.replace(old, new)] for a non-empty [old]: the occurrences of
    [old] are replaced from the left, without overlap.  [fuel] bounds
    the number of steps; the length of the string is enough. *)
Fixpoint replace_loop (fuel : nat) (s old new : str) : str :=
  match fuel with
  | O => s
  | S fuel' =>
      match s with
      | [] => []
      | c :: rest =>
          if starts_with old s
          then new ++ replace_loop fuel' (skipn (List.length old) s) old new
          else c :: replace_loop fuel' rest old new
      end
  end.

Definition replace (s old new : str) : str :=
  replace_loop (List.length s) s old new.

(** The table [entities], in the order of the source. *)
Definition entities : list (str * str) :=
  [ (lit "&lt;", lit "<");
    (lit "&gt;", lit ">");
    (lit "&amp;", lit "&");
    (lit "&quot;", [ascii_of_nat 34]);
    (lit "&#39;", lit "'");
    (lit "&apos;", lit "'");
    (lit "&nbsp;", lit " ") ].

Definition strip_html (html : str) : str :=
  if is_empty html then []
  else
    let text := re_sub_tags html in
    fold_left (fun text entity => replace text (fst entity) (snd entity))
              entities text.

End Strings.

(** ** src/enumerable_list.py *)

Module EnumerableList.

(** [T] is the type of the Python objects held by the list; [func]
    combines two of them.  An omitted [initial] or [default] (the
    [_MISSING] sentinel) is [None]. *)
Section Enumerable.
Variable T : Type.

Record EnumerableList : Type := mk { _items : list T }.

(** [next(iterator)] on a list iterator: the next item and the
    advanced iterator, or [None] for StopIteration. *)
Definition next (iterator : list T) : option (T * list T) :=
  match iterator with
  | [] => None
  | x :: rest => Some (x, rest)
  end.

(** [for item in iterator: acc = func(acc, item)] *)
Fixpoint reduce_loop (func : T -> T -> T) (iterator : list T) (acc : T) : T :=
  match iterator with
  | [] => acc
  | item :: iterator' => reduce_loop func iterator' (func acc item)
  end.

Definition reduce (self : EnumerableList) (func : T -> T -> T)
           (initial : option T) : result T :=
  let iterator := _items self in
  match initial with
  | None =>
      match next iterator with
      | Some (acc, iterator') => Ok (reduce_loop func iterator' acc)
      | None => Raise ValueError
      end
  | Some acc => Ok (reduce_loop func iterator acc)
  end.

Definition first (self : EnumerableList) (default : option T) : result T :=
  match _items self with
  | x :: _ => Ok x
  | [] =>
      match default with
      | None => Raise ValueError
      | Some d => Ok d
      end
  end.

End Enumerable.

Arguments mk {T} _items.
Arguments _items {T} _.
Arguments reduce {T} self func initial.
Arguments first {T} self default.

(** *** The other helpers of EnumerableList *)

Section Helpers.
Variable T : Type.
(** [==] on the objects; the hash of an object, [None] when it cannot
    be hashed ([hash] raises TypeError); for an object that cannot be
    hashed, the hash under which a set still looks it up: a set is
    looked up as the frozenset of its elements, any other such object
    makes the lookup raise TypeError ([None]); and the truth value of
    an object. *)
Variable py_eq : T -> T -> bool.
Variable hash : T -> option Z.
Variable frozenset_hash : T -> option Z.
Variable truthy : T -> bool.

Definition to_list (self : EnumerableList T) : list T := _items self.

(** [len(self)] *)
Definition length (self : EnumerableList T) : Z := len (_items self).

Definition map (self : EnumerableList T) (func : T -> T) : EnumerableList T :=
  mk (List.map func (_items self)).

Definition select (self : EnumerableList T) (func : T -> T) : EnumerableList T :=
  map self func.

Definition filter (self : EnumerableList T) (predicate : T -> bool)
  : EnumerableList T :=
  mk (List.filter predicate (_items self)).

(** [where] (a keyword here, hence the underscore). *)
Definition where_ (self : EnumerableList T) (predicate : T -> bool)
  : EnumerableList T :=
  filter self predicate.

(** [last]: [self._items[-1]] on a list that is not empty. *)
Definition last (self : EnumerableList T) (default : option T) : result T :=
  match _items self with
  | x :: rest => Ok (List.last rest x)
  | [] =>
      match default with
      | None => Raise ValueError
      | Some d => Ok d
      end
  end.

Definition any (self : EnumerableList T) (predicate : option (T -> bool)) : bool :=
  match predicate with
  | None => negb (is_empty (_items self))
  | Some p => existsb p (_items self)
  end.

Definition all (self : EnumerableList T) (predicate : option (T -> bool)) : bool :=
  match predicate with
  | None => forallb truthy (_items self)
  | Some p => forallb p (_items self)
  end.

(** [count]: with a predicate, [sum(1 for item in self._items if predicate(item))]. *)
Definition count (self : EnumerableList T) (predicate : option (T -> bool)) : Z :=
  match predicate with
  | None => len (_items self)
  | Some p => sum (List.map (fun _ => 1) (List.filter p (_items self)))
  end.

(** The lookup of a set for an object with the hash [h]: an element
    with that hash that is [==] to the object. *)
Definition set_lookup (seen_hashable : list T) (marker : T) (h : Z) : bool :=
  existsb (fun seen =>
             match hash seen with
             | Some hs => (hs =? h) && py_eq seen marker
             | None => false
             end)
          seen_hashable.

(** The loop of [distinct].  For a marker that can be hashed the [try]
    block decides.  For one that cannot, [marker in seen_hashable]
    raises TypeError, or, for a set, looks the frozenset up and, when
    it is not found, [seen_hashable.add(marker)] raises TypeError; the
    handler then looks the marker up in the list [seen_unhashable]. *)
Fixpoint distinct_loop (key_func : T -> T) (iterable : list T)
         (seen_hashable seen_unhashable result : list T) : list T :=
  match iterable with
  | [] => result
  | item :: rest =>
      let marker := key_func item in
      match hash marker with
      | Some h =>
          if set_lookup seen_hashable marker h
          then distinct_loop key_func rest seen_hashable seen_unhashable result
          else distinct_loop key_func rest (seen_hashable ++ [marker])
                             seen_unhashable (result ++ [item])
      | None =>
          if match frozenset_hash marker with
             | Some h => set_lookup seen_hashable marker h
             | None => false
             end
          then distinct_loop key_func rest seen_hashable seen_unhashable result
          else
            if existsb (fun seen => py_eq seen marker) seen_unhashable
            then distinct_loop key_func rest seen_hashable seen_unhashable result
            else distinct_loop key_func rest seen_hashable
                               (seen_unhashable ++ [marker]) (result ++ [item])
      end
  end.

Definition distinct (self : EnumerableList T) (key : option (T -> T))
  : EnumerableList T :=
  let key_func := match key with Some f => f | None => fun item => item end in
  mk (distinct_loop key_func (_items self) [] [] []).

End Helpers.

Arguments to_list {T} self.
Arguments length {T} self.
Arguments map {T} self func.
Arguments select {T} self func.
Arguments filter {T} self predicate.
Arguments where_ {T} self predicate.
Arguments last {T} self default.
Arguments any {T} self predicate.
Arguments all {T} truthy self predicate.
Arguments count {T} self predicate.
Arguments distinct {T} py_eq hash frozenset_hash self key.

(** [self._items[i : i + size] for i in range(0, len(self._items), size)]:
    the slices from the index [i] on; at most [fuel] of them, and the
    list has no more slices than elements. *)
Fixpoint chunk_slices {T : Type} (fuel : nat) (items : list T) (size i : Z)
  : list (list T) :=
  match fuel with
  | O => []
  | S fuel' =>
      if i <? len items
      then slice items (Some i) (Some (i + size))
             :: chunk_slices fuel' items size (i + size)
      else []
  end.

(** [EnumerableList.chunk]: the size is checked by the call, and the
    slices are built at once. *)
Definition chunk {T : Type} (self : EnumerableList T) (size : Z)
  : result (EnumerableList (list T)) :=
  if size <=? 0 then Raise ValueError
  else Ok (mk (chunk_slices (List.length (_items self)) (_items self) size 0)).

End EnumerableList.

(** ** Mutable objects: a store of objects at addresses *)

Module Store.

Definition loc : Type := nat.

(** An object of the store; containers hold the addresses of their
    elements, so two containers can share an element. *)
Inductive obj : Type :=
| OInt (z : Z)
| OStr (s : string)
| OBytes (b : list ascii)
| OList (elems : list loc)
| ODict (entries : list (string * loc)).

Definition heap : Type := list obj.

Definition read (h : heap) (l : loc) : option obj := nth_error h l.

(** A new object gets the next free address. *)
Definition alloc (h : heap) (o : obj) : heap * loc :=
  (h ++ [o], List.length h).

(** Overwrite the object at [l] (nothing happens at a free address). *)
Fixpoint write (h : heap) (l : loc) (o : obj) : heap :=
  match h, l with
  | [], _ => []
  | _ :: rest, O => o :: rest
  | x :: rest, S l' => x :: write rest l' o
  end.

(** [isinstance(x, dict)] *)
Definition is_dict (h : heap) (l : loc) : bool :=
  match read h l with
  | Some (ODict _) => true
  | _ => false
  end.

End Store.

Import Store.

(** ** src/collections.py *)

Module Collections.

(** *** Containers on elements with decidable equality (hashable
    objects compared by [==]) *)

Section Hashable.
Variable T : Type.
Variable eq_dec : forall x y : T, {x = y} + {x <> y}.

(** A [dict] with keys in [T]: the entries in insertion order. *)
Definition dict (V : Type) : Type := list (T * V).

(** [key in d] *)
Fixpoint dict_contains {V : Type} (d : dict V) (key : T) : bool :=
  match d with
  | [] => false
  | (k, _) :: rest => if eq_dec k key then true else dict_contains rest key
  end.

(** [d[key]] when [key in d]. *)
Fixpoint dict_get {V : Type} (d : dict V) (key : T) : option V :=
  match d with
  | [] => None
  | (k, w) :: rest => if eq_dec k key then Some w else dict_get rest key
  end.

(** [d[key] = v]: an equal key keeps its place (and its key object),
    a new key goes to the end. *)
Fixpoint dict_setitem {V : Type} (d : dict V) (key : T) (v : V) : dict V :=
  match d with
  | [] => [(key, v)]
  | (k, w) :: rest =>
      if eq_dec k key then (k, v) :: rest
      else (k, w) :: dict_setitem rest key v
  end.

(** [d.pop(key, None)], the dictionary after it. *)
Fixpoint dict_pop {V : Type} (d : dict V) (key : T) : dict V :=
  match d with
  | [] => []
  | (k, w) :: rest =>
      if eq_dec k key then rest else (k, w) :: dict_pop rest key
  end.

(** [d.keys()] *)
Definition dict_keys {V : Type} (d : dict V) : list T := map fst d.

(** class OrderedSet: [items] is a dict whose values are all None. *)
Record OrderedSet : Type := mkOrderedSet { items : dict unit }.

Definition add (self : OrderedSet) (value : T) : OrderedSet :=
  mkOrderedSet (dict_setitem (items self) value tt).

Definition discard (self : OrderedSet) (value : T) : OrderedSet :=
  mkOrderedSet (dict_pop (items self) value).

Definition contains (self : OrderedSet) (value : T) : bool :=
  dict_contains (items self) value.

(** [OrderedSet(iterable)]: [__init__] adds the items one by one. *)
Definition OrderedSet_init (iterable : list T) : OrderedSet :=
  fold_left add iterable (mkOrderedSet []).

(** [list(s)], through [__iter__]. *)
Definition OrderedSet_list (self : OrderedSet) : list T :=
  dict_keys (items self).

(** The loop of [unique] on its two locals [seen] (a set) and [result]. *)
Fixpoint unique_loop (key_func : option (T -> T)) (iterable : list T)
         (seen : set T) (result : list T) : list T :=
  match iterable with
  | [] => result
  | item :: rest =>
      let key := match key_func with Some f => f item | None => item end in
      if negb (set_mem eq_dec key seen)
      then unique_loop key_func rest (set_add eq_dec key seen) (result ++ [item])
      else unique_loop key_func rest seen result
  end.

Definition unique (iterable : list T) (key_func : option (T -> T)) : list T :=
  unique_loop key_func iterable (empty_set T) [].

End Hashable.

Arguments items {T} _.
Arguments mkOrderedSet {T} _.

(** *** Functions on any elements *)

Section Sequences.
Variable T : Type.

(** The loop of [partition] on its two locals. *)
Fixpoint partition_loop (predicate : T -> bool) (iterable : list T)
         (true_items false_items : list T) : list T * list T :=
  match iterable with
  | [] => (true_items, false_items)
  | item :: rest =>
      if predicate item
      then partition_loop predicate rest (true_items ++ [item]) false_items
      else partition_loop predicate rest true_items (false_items ++ [item])
  end.

Definition partition (iterable : list T) (predicate : T -> bool)
  : list T * list T :=
  partition_loop predicate iterable [] [].

(** [chunk] is a generator function: the call only makes the generator
    object, and its body runs when the generator is advanced. *)
Inductive chunk_gen : Type :=
| Created (iterable : list T) (size : Z)
| Looping (items : list T) (size : Z) (i : Z)
| Finished.

(** What one [next(g)] gives. *)
Inductive gen_out : Type :=
| Yield (group : list T)
| StopIteration
| Raised (e : exn).

Definition chunk (iterable : list T) (size : Z) : chunk_gen :=
  Created iterable size.

(** One turn of [for i in range(0, len(items), size): yield items[i:i + size]]
    with [i] the next value of the range. *)
Definition chunk_loop (items : list T) (size i : Z) : gen_out * chunk_gen :=
  if i <? len items
  then (Yield (slice items (Some i) (Some (i + size))), Looping items size (i + size))
  else (StopIteration, Finished).

Definition gen_next (g : chunk_gen) : gen_out * chunk_gen :=
  match g with
  | Created iterable size =>
      if size <? 1 then (Raised ValueError, Finished)
      else chunk_loop iterable size 0
  | Looping items size i => chunk_loop items size i
  | Finished => (StopIteration, Finished)
  end.

(** [list(g)], with [fuel] bounding the number of [next] calls; [None]
    when the fuel does not suffice. *)
Fixpoint gen_list (fuel : nat) (g : chunk_gen) : option (result (list (list T))) :=
  match fuel with
  | O => None
  | S fuel' =>
      match gen_next g with
      | (Yield group, g') =>
          match gen_list fuel' g' with
          | Some (Ok groups) => Some (Ok (group :: groups))
          | other => other
          end
      | (StopIteration, _) => Some (Ok [])
      | (Raised e, _) => Some (Raise e)
      end
  end.

End Sequences.

Arguments partition {T} iterable predicate.
Arguments chunk {T} iterable size.
Arguments gen_next {T} g.
Arguments gen_list {T} fuel g.
Arguments Yield {T} group.
Arguments StopIteration {T}.
Arguments Raised {T} e.
Arguments Finished {T}.

(** *** flatten, on immutable data *)

(** [isinstance(item, (str, bytes, dict))] *)
Definition is_str_bytes_dict (item : value) : bool :=
  match item with
  | VStr _ | VBytes _ | VDict _ => true
  | _ => false
  end.

(** [hasattr(item, '__iter__')] *)
Definition has_iter (item : value) : bool :=
  match item with
  | VInt _ => false
  | _ => true
  end.

(** What the body of the loop of [flatten] adds to [result] for one
    [item]; the recursive call [flatten(item, depth=new_depth)] is the
    [flat_map] over the item's own elements. *)
Fixpoint flatten_item (depth : Z) (item : value) : list value :=
  match item with
  | VStr _ | VBytes _ | VDict _ => [item]
  | VList xs =>
      if negb (depth =? 0)
      then
        let new_depth := if depth >? 0 then depth - 1 else -1 in
        flat_map (flatten_item new_depth) xs
      else [item]
  | VInt _ => [item]
  end.

Definition flatten (iterable : list value) (depth : Z) : list value :=
  flat_map (flatten_item depth) iterable.

(** *** deep_merge, on the store *)

(** [result[key] = v] for the dict object at address [result]. *)
Definition store_setitem (h : heap) (result : loc) (key : string) (v : loc)
  : option heap :=
  match read h result with
  | Some (ODict entries) =>
      Some (write h result (ODict (dict_setitem string string_dec entries key v)))
  | _ => None
  end.

(** [result[key]] when [key in result]. *)
Definition store_getitem (h : heap) (result : loc) (key : string) : option loc :=
  match read h result with
  | Some (ODict entries) => dict_get string string_dec entries key
  | _ => None
  end.

(** The loop [for key, value in dict2.items(): ...] of [deep_merge];
    [rec] is the recursive call, [None] means that the recursion depth
    allowed to the model was not enough. *)
Fixpoint merge_items
         (rec : heap -> loc -> loc -> option (Py.result (heap * loc)))
         (items2 : list (string * loc)) (result : loc) (h : heap)
  : option (Py.result heap) :=
  match items2 with
  | [] => Some (Ok h)
  | (key, value) :: rest =>
      match store_getitem h result key with
      | Some current =>
          if is_dict h current && is_dict h value
          then
            match rec h current value with
            | Some (Ok (h', merged)) =>
                match store_setitem h' result key merged with
                | Some h'' => merge_items rec rest result h''
                | None => Some (Raise TypeError)
                end
            | Some (Raise e) => Some (Raise e)
            | None => None
            end
          else
            match store_setitem h result key value with
            | Some h' => merge_items rec rest result h'
            | None => Some (Raise TypeError)
            end
      | None =>
          match store_setitem h result key value with
          | Some h' => merge_items rec rest result h'
          | None => Some (Raise TypeError)
          end
      end
  end.

(** [deep_merge(dict1, dict2)] on the addresses of two objects: the new
    store and the address of the returned object.  [fuel] bounds the
    depth of the recursion.  A [dict1] that is a list has [copy] too:
    the copy is returned when [dict2] is an empty dict, and the first
    key of [dict2], a string, is refused as an index with TypeError.
    A number, a str or a bytes object has no [copy], and an object
    that is not a dict no [items]: AttributeError. *)
Fixpoint deep_merge (fuel : nat) (h : heap) (dict1 dict2 : loc)
  : option (Py.result (heap * loc)) :=
  match fuel with
  | O => None
  | S fuel' =>
      match read h dict1 with
      | Some (ODict entries1) =>
          let (h1, result) := alloc h (ODict entries1) in
          match read h1 dict2 with
          | Some (ODict entries2) =>
              match merge_items (deep_merge fuel') entries2 result h1 with
              | Some (Ok h2) => Some (Ok (h2, result))
              | Some (Raise e) => Some (Raise e)
              | None => None
              end
          | _ => Some (Raise AttributeError)
          end
      | Some (OList elems1) =>
          let (h1, result) := alloc h (OList elems1) in
          match read h1 dict2 with
          | Some (ODict []) => Some (Ok (h1, result))
          | Some (ODict (_ :: _)) => Some (Raise TypeError)
          | _ => Some (Raise AttributeError)
          end
      | _ => Some (Raise AttributeError)
      end
  end.

(** *** group_by *)

Section Grouping.
Variable T : Type.
Variable K : Type.
Variable K_eq_dec : forall x y : K, {x = y} + {x <> y}.

(** The body of the loop of [group_by] for one item: a new key gets an
    empty list first, then the item is appended to the list of its
    key. *)
Definition group_by_step (key_func : T -> K) (result : dict K (list T))
           (item : T) : dict K (list T) :=
  let key := key_func item in
  let result :=
    if negb (dict_contains K K_eq_dec result key)
    then dict_setitem K K_eq_dec result key []
    else result in
  match dict_get K K_eq_dec result key with
  | Some group => dict_setitem K K_eq_dec result key (group ++ [item])
  | None => result
  end.

Definition group_by (iterable : list T) (key_func : T -> K) : dict K (list T) :=
  fold_left (group_by_step key_func) iterable [].

End Grouping.

Arguments group_by {T K} K_eq_dec iterable key_func.

(** *** OrderedSet: length and equality *)

Section OrderedSetCompare.
Variable T : Type.
Variable eq_dec : forall x y : T, {x = y} + {x <> y}.

(** [len(s)] *)
Definition OrderedSet_len (self : OrderedSet T) : Z := len (items self).

(** What [__eq__] can be handed: another OrderedSet, a plain [set], or
    an object of any other type. *)
Inductive eq_operand : Type :=
| AnOrderedSet (other : OrderedSet T)
| APlainSet (other : set T)
| AnotherObject.

(** [list(self) == list(other)] *)
Definition list_eqb (l1 l2 : list T) : bool :=
  if list_eq_dec eq_dec l1 l2 then true else false.

(** [set(self) == other]: each side holds every element of the other. *)
Definition set_eqb (elements : list T) (other : set T) : bool :=
  forallb (fun x => set_mem eq_dec x other) elements
  && forallb (fun x => set_mem eq_dec x elements) other.

Definition OrderedSet_eq (self : OrderedSet T) (other : eq_operand) : bool :=
  match other with
  | AnOrderedSet o => list_eqb (OrderedSet_list T self) (OrderedSet_list T o)
  | APlainSet s => set_eqb (OrderedSet_list T self) s
  | AnotherObject => false
  end.

End OrderedSetCompare.

Arguments AnOrderedSet {T} other.
Arguments APlainSet {T} other.
Arguments AnotherObject {T}.

(** *** Advancing a generator *)

(** The generator after [n] calls of [next]. *)
Fixpoint gen_advance {T : Type} (n : nat) (g : chunk_gen T) : chunk_gen T :=
  match n with
  | O => g
  | S n' => gen_advance n' (snd (gen_next g))
  end.

End Collections.

(** ** src/http_client.py *)

Module HttpClient.

Definition bytes : Type := list ascii.
Definition header_dict : Type := list (string * string).

Record HttpResponse : Type := mkHttpResponse {
  status_code : Z;
  headers : header_dict;
  body : bytes;
  url : string
}.

(** The property [ok]. *)
Definition ok (self : HttpResponse) : bool :=
  (200 <=? status_code self) && (status_code self <? 300).

(** class HttpError: [status_code] and [response] default to None. *)
Record HttpError : Type := mkHttpError {
  message : string;
  error_status_code : option Z;
  response : option HttpResponse
}.

(** What a call of [request] does: return a response, raise HttpError,
    or let an exception of another class through, given by the name of
    its class. *)
Inductive outcome : Type :=
| Returned (r : HttpResponse)
| RaisedHttpError (e : HttpError)
| Raised (exception_class : string).

(** The request object handed to the transport. *)
Record Request : Type := mkRequest {
  req_url : string;
  req_data : option bytes;
  req_headers : header_dict;
  req_method : string
}.

(** What the [try] block of [request] meets: [urlopen] gives a
    response object that is read to its end, or an [HTTPError] is
    raised (the server answered with a status that urllib reports as an
    error), or a [URLError] that is not an [HTTPError] (no response),
    or an exception of any other class, given by the name of the class
    (a timeout while the body is read, a connection reset, ...). *)
Inductive urlopen_result : Type :=
| Response (status : Z) (resp_headers : header_dict) (content : bytes)
           (final_url : string)
| HTTPError (code : Z) (reason : string) (err_headers : option header_dict)
            (fp : option bytes)
| URLError (reason : string)
| OtherException (exception_class : string).

Section Client.

(** The platform: the transport, query-string and JSON encoders and
    [str.upper]; a timeout is a value of the type [seconds].
    [json.dumps] and the constructor [urllib.request.Request] can
    raise: [json_dumps_error data] is the class of the exception that
    [json.dumps(data)] raises, if it raises one (TypeError on an object
    it cannot serialise), and [json_dumps_utf8 data] the encoded body
    when it does not; [Request_error req] is the class of the
    exception that the constructor raises on the arguments [req], if
    it raises one (ValueError on a URL without a type). *)
Variable seconds : Type.
Variable urlopen : Request -> seconds -> urlopen_result.
Variable urlencode : header_dict -> string.
Variable json_dumps_utf8 : value -> bytes.
Variable upper : string -> string.
Variable json_dumps_error : value -> option string.
Variable Request_error : Request -> option string.

Record HttpClient : Type := mkHttpClient {
  base_url : string;
  default_headers : header_dict;
  timeout : seconds
}.

(** [{**d1, **d2}] *)
Definition dict_union (d1 d2 : header_dict) : header_dict :=
  fold_left (fun d kv => Collections.dict_setitem string string_dec d (fst kv) (snd kv))
            d2 d1.

(** [d.setdefault(key, v)], the dictionary after it. *)
Definition setdefault (d : header_dict) (key v : string) : header_dict :=
  if Collections.dict_contains string string_dec d key then d
  else Collections.dict_setitem string string_dec d key v.

(** The values that [request] computes on its way to the transport:
    the URL, the merged headers, the encoded body, the arguments of
    [urllib.request.Request] and the timeout in force.  The two calls
    that can raise on that way are in [request]. *)
Definition prepare (self : HttpClient) (method path : string)
           (data : option value) (headers params : option header_dict)
           (timeout_arg : option seconds) : Request * seconds :=
  let url0 := if String.eqb (base_url self) "" then path
              else String.append (base_url self) path in
  let url1 := match params with
              | Some (p :: ps) =>
                  String.append url0 (String.append "?" (urlencode (p :: ps)))
              | _ => url0
              end in
  let request_headers :=
    dict_union (default_headers self)
               (match headers with Some hs => hs | None => [] end) in
  let (body0, request_headers) :=
    match data with
    | Some d => (Some (json_dumps_utf8 d),
                 setdefault request_headers "Content-Type" "application/json")
    | None => (None, request_headers)
    end in
  let req := mkRequest url1 body0 request_headers (upper method) in
  let request_timeout :=
    match timeout_arg with Some t => t | None => timeout self end in
  (req, request_timeout).

(** [request].  Before the [try] block, [json.dumps(data)] and then
    [urllib.request.Request(...)] may raise, and nothing catches what
    they raise.  Inside it the request goes to the transport once: the
    response is returned, an [HTTPError] and a [URLError] become an
    HttpError, and an exception of any other class goes through. *)
Definition request (self : HttpClient) (method path : string)
           (data : option value) (headers params : option header_dict)
           (timeout_arg : option seconds) : outcome :=
  match match data with Some d => json_dumps_error d | None => None end with
  | Some exception_class => Raised exception_class
  | None =>
      let (req, request_timeout) :=
        prepare self method path data headers params timeout_arg in
      match Request_error req with
      | Some exception_class => Raised exception_class
      | None =>
          match urlopen req request_timeout with
          | Response status resp_headers content final_url =>
              Returned (mkHttpResponse status resp_headers content final_url)
          | HTTPError code reason err_headers fp =>
              let response :=
                mkHttpResponse code
                               (match err_headers with Some hs => hs | None => [] end)
                               (match fp with Some b => b | None => [] end)
                               (req_url req) in
              RaisedHttpError (mkHttpError reason (Some code) (Some response))
          | URLError reason =>
              RaisedHttpError (mkHttpError reason None None)
          | OtherException exception_class => Raised exception_class
          end
      end
  end.

End Client.

(** *** The constructor and the convenience functions *)

(** [s.rstrip('/')], on the reversed string: the leading slashes go. *)
Fixpoint drop_slashes (reversed : list ascii) : list ascii :=
  match reversed with
  | [] => []
  | c :: rest => if Ascii.eqb c "/" then drop_slashes rest else reversed
  end.

Definition rstrip_slash (s : string) : string :=
  string_of_list_ascii (rev (drop_slashes (rev (list_ascii_of_string s)))).

Section Wrappers.
Variable seconds : Type.
Variable urlopen : Request -> seconds -> urlopen_result.
Variable urlencode : header_dict -> string.
Variable json_dumps_utf8 : value -> bytes.
Variable upper : string -> string.
Variable json_dumps_error : value -> option string.
Variable Request_error : Request -> option string.

(** [HttpClient(base_url, headers, timeout)] *)
Definition HttpClient_init (base_url : string) (headers : option header_dict)
           (timeout : seconds) : HttpClient seconds :=
  mkHttpClient seconds (rstrip_slash base_url)
               (match headers with Some hs => hs | None => [] end) timeout.

Definition get (self : HttpClient seconds) (path : string)
           (headers params : option header_dict) (timeout : option seconds)
  : outcome :=
  request seconds urlopen urlencode json_dumps_utf8 upper
          json_dumps_error Request_error
          self "GET" path None headers params timeout.

Definition post (self : HttpClient seconds) (path : string) (data : option value)
           (headers : option header_dict) (timeout : option seconds) : outcome :=
  request seconds urlopen urlencode json_dumps_utf8 upper
          json_dumps_error Request_error
          self "POST" path data headers None timeout.

Definition put (self : HttpClient seconds) (path : string) (data : option value)
           (headers : option header_dict) (timeout : option seconds) : outcome :=
  request seconds urlopen urlencode json_dumps_utf8 upper
          json_dumps_error Request_error
          self "PUT" path data headers None timeout.

Definition delete (self : HttpClient seconds) (path : string)
           (headers : option header_dict) (timeout : option seconds) : outcome :=
  request seconds urlopen urlencode json_dumps_utf8 upper
          json_dumps_error Request_error
          self "DELETE" path None headers None timeout.

(** The module-level [request(method, url, ...)]: a client made for
    the call, with no base URL and no default headers, and the timeout
    as its default. *)
Definition module_request (method url : string) (data : option value)
           (headers params : option header_dict) (timeout : seconds) : outcome :=
  let client := HttpClient_init "" None timeout in
  request seconds urlopen urlencode json_dumps_utf8 upper
          json_dumps_error Request_error
          client method url data headers params None.

(** The module-level [get(url, ...)] and [post(url, ...)]. *)
Definition module_get (url : string) (headers params : option header_dict)
           (timeout : seconds) : outcome :=
  module_request "GET" url None headers params timeout.

Definition module_post (url : string) (data : option value)
           (headers : option header_dict) (timeout : seconds) : outcome :=
  module_request "POST" url data headers None timeout.

End Wrappers.

(** *** The first check of [urllib.request.Request]

    The constructor starts with the URL: [unwrap] removes surrounding
    whitespace and the wrapping of [<URL:...>], [_splittag] cuts the
    fragment at the last [#], and [_splittype] looks for a type at the
    start of what is left: one or more characters other than [/] and
    [:], followed by [:].  Without a
    type the constructor raises ValueError (unknown url type).  What
    the constructor does after this check is not modelled here. *)

(** [s.lstrip()] and [s.strip()] *)
Fixpoint lstrip (s : list ascii) : list ascii :=
  match s with
  | [] => []
  | c :: rest => if Validators.re_space c then lstrip rest else s
  end.

Definition strip (s : list ascii) : list ascii :=
  rev (lstrip (rev (lstrip s))).

Definition unwrap (url : list ascii) : list ascii :=
  let url := strip url in
  let url :=
    match url with
    | "<"%char :: rest =>
        match rev rest with
        | ">"%char :: inner => strip (rev inner)
        | _ => url
        end
    | _ => url
    end in
  match url with
  | "U"%char :: "R"%char :: "L"%char :: ":"%char :: rest => strip rest
  | _ => url
  end.

(** What follows the first [c] of a list; nothing when there is none. *)
Fixpoint after_first (c : ascii) (l : list ascii) : list ascii :=
  match l with
  | [] => []
  | x :: rest => if Ascii.eqb x c then rest else after_first c rest
  end.

(** The first component of [_splittag(url)]: [url.rpartition('#')]. *)
Definition splittag_path (url : list ascii) : list ascii :=
  if existsb (Ascii.eqb "#") url
  then rev (after_first "#" (rev url))
  else url.

(** Whether [([^/:]+):] matches at the start of [url]; [seen] says
    that a character of the type has been read. *)
Fixpoint type_ends (seen : bool) (url : list ascii) : bool :=
  match url with
  | [] => false
  | c :: rest =>
      if Ascii.eqb c ":" then seen
      else if Ascii.eqb c "/" then false
      else type_ends true rest
  end.

Definition unknown_url_type (url : string) : bool :=
  negb (type_ends false (splittag_path (unwrap (list_ascii_of_string url)))).

(** The check as an instance of [Request_error]. *)
Definition url_type_check (req : Request) : option string :=
  if unknown_url_type (req_url req) then Some "ValueError"%string else None.

End HttpClient.

(** ** Definitions used to state the properties *)

Module Spec.

(** The term a digit contributes to the Luhn checksum at a position
    counted from the right, starting at 1: the digit at an odd
    position, its double (minus 9 when the double exceeds 9) at an
    even one. *)
Definition luhn_term (position : nat) (digit : Z) : Z :=
  if Nat.odd position then digit
  else if 2 * digit >? 9 then 2 * digit - 9 else 2 * digit.

(** The Luhn checksum of a digit sequence written left to right. *)
Fixpoint luhn_checksum (digits : list Z) : Z :=
  match digits with
  | [] => 0
  | d :: rest => luhn_term (S (List.length rest)) d + luhn_checksum rest
  end.

(** The checksum of digits listed from the right, the first of them at
    position [position]. *)
Fixpoint luhn_from_right (position : nat) (reversed : list Z) : Z :=
  match reversed with
  | [] => 0
  | d :: rest => luhn_term position d + luhn_from_right (S position) rest
  end.

(** The doubling step on one digit. *)
Definition doubled_digit (digit : Z) : Z :=
  if 2 * digit >? 9 then 2 * digit - 9 else 2 * digit.

(** The sum of [f] over a list. *)
Definition total (f : Z -> Z) (l : list Z) : Z :=
  fold_right (fun d acc => f d + acc) 0 l.

(** The value of a decimal digit character. *)
Definition digit_value (c : ascii) : Z := Validators.ord c - 48.

(** Stripping exactly the space U+0020 and the dash U+002D. *)
Definition strip_spaces_dashes (s : str) : str :=
  filter (fun c => negb ((Validators.ord c =? 32) || (Validators.ord c =? 45))) s.

(** The credit-card check on a stripped string: all decimal digits,
    13 to 19 of them, and a Luhn checksum divisible by 10. *)
Definition luhn_valid (stripped : str) : bool :=
  forallb Validators.is_decimal stripped
  && (13 <=? len stripped) && (len stripped <=? 19)
  && (luhn_checksum (map digit_value stripped) mod 10 =? 0).

(** A sequence with its duplicates removed, each element staying at
    its first occurrence. *)
Fixpoint first_occurrences {T : Type} (eq_dec : forall x y : T, {x = y} + {x <> y})
         (l : list T) : list T :=
  match l with
  | [] => []
  | x :: rest => x :: remove eq_dec x (first_occurrences eq_dec rest)
  end.

(** How deep sequences are nested in an item: 0 for an item that is
    not an expandable sequence. *)
Fixpoint nesting (item : value) : nat :=
  match item with
  | VList xs =>
      S ((fix deepest (l : list value) : nat :=
            match l with
            | [] => O
            | x :: rest => Nat.max (nesting x) (deepest rest)
            end) xs)
  | _ => O
  end.

(** What the dict returned by [deep_merge] holds under [key], as
    addresses: [ea] and [eb] are the entries of the two arguments in
    the store [h] before the call, [er] those of the result.  A key of
    both whose two values are dicts gets an object that did not exist
    before; any other key of [eb] gets the very object that [eb] has,
    and a key of [ea] alone the very object that [ea] has. *)
Definition shares_entry (h : heap) (ea eb er : list (string * loc)) (key : string)
  : Prop :=
  match Collections.dict_get string string_dec eb key with
  | Some v =>
      if match Collections.dict_get string string_dec ea key with
         | Some c => is_dict h c && is_dict h v
         | None => false
         end
      then exists m, Collections.dict_get string string_dec er key = Some m
                     /\ read h m = None
      else Collections.dict_get string string_dec er key = Some v
  | None =>
      Collections.dict_get string string_dec er key
      = Collections.dict_get string string_dec ea key
  end.

(** A decimal digit character with a value of [lo] or more. *)
Definition digit_at_least (lo : Z) (c : ascii) : bool :=
  (lo <=? Validators.ord c - 48) && (Validators.ord c - 48 <=? 9).

(** The shape of a phone number without its formatting: an optional
    international prefix, a first digit accepted by [first_ok], and
    then between [lo] and [hi] decimal digits. *)
Definition phone_shape (prefix : str) (first_ok : ascii -> bool) (lo hi : nat)
           (cleaned : str) : Prop :=
  exists d ds,
    (cleaned = d :: ds \/ cleaned = prefix ++ d :: ds)
    /\ first_ok d = true
    /\ (lo <= List.length ds <= hi)%nat
    /\ forallb Validators.is_decimal ds = true.

(** [x] has the key [k]. *)
Definition has_key {T K : Type} (K_eq_dec : forall x y : K, {x = y} + {x <> y})
           (key_func : T -> K) (k : K) (x : T) : bool :=
  if K_eq_dec (key_func x) k then true else false.

(** The items whose key is met for the first time, in order. *)
Fixpoint first_by_key {T : Type} (eq_dec : forall x y : T, {x = y} + {x <> y})
         (key_func : T -> T) (l : list T) : list T :=
  match l with
  | [] => []
  | x :: rest =>
      x :: filter (fun y => if eq_dec (key_func x) (key_func y) then false else true)
                  (first_by_key eq_dec key_func rest)
  end.

(** [y] is equal to none of the elements of [K]. *)
Definition fresh {T : Type} (eq_dec : forall x y : T, {x = y} + {x <> y})
           (K : list T) (y : T) : bool :=
  if in_dec eq_dec y K then false else true.

(** An item that [flatten] never expands: a string, a byte sequence,
    a mapping, or an object that is not iterable. *)
Definition atomic (item : value) : bool :=
  Collections.is_str_bytes_dict item || negb (Collections.has_iter item).

(** A sequence with no expandable nested iterable. *)
Definition fully_flat (items : list value) : bool := forallb atomic items.

(** [ceil(n / size)] for a positive [size]. *)
Definition ceil_div (n size : Z) : Z := (n + size - 1) / size.

(** The last element of a list is the only one exempt from [P]. *)
Fixpoint all_but_last {A : Type} (P : A -> Prop) (l : list A) : Prop :=
  match l with
  | [] => True
  | [_] => True
  | x :: rest => P x /\ all_but_last P rest
  end.

(** [ends_with r suffix] *)
Definition ends_with {A : Type} (r suffix : list A) : Prop :=
  exists prefix, r = prefix ++ suffix.

(** Whether a call raised. *)
Definition fails {A : Type} (r : result A) : Prop :=
  exists e, r = Raise e.

(** *** Mappings as immutable data, and what the store holds *)

Definition vdict : Type := list (string * value).

Definition vget (d : vdict) (key : string) : option value :=
  Collections.dict_get string string_dec d key.

Definition vset (d : vdict) (key : string) (v : value) : vdict :=
  Collections.dict_setitem string string_dec d key v.

(** The loop of [deep_merge] read on immutable data: [result] starts as
    the first mapping and takes the entries of the second in turn. *)
Fixpoint merge_loop (rec : value -> vdict -> vdict) (items2 : vdict)
         (result : vdict) : vdict :=
  match items2 with
  | [] => result
  | (key, v) :: rest =>
      merge_loop rec rest
        (match vget result key, v with
         | Some (VDict current), VDict _ => vset result key (VDict (rec v current))
         | _, _ => vset result key v
         end)
  end.

(** [merge_value (VDict b) a] is the merge of the mapping [b] into the
    mapping [a]. *)
Fixpoint merge_value (dict2 : value) (dict1 : vdict) {struct dict2} : vdict :=
  match dict2 with
  | VDict items2 => merge_loop merge_value items2 dict1
  | _ => dict1
  end.

(** The recursive merge of two mappings. *)
Definition merged (a b : vdict) : vdict := merge_value (VDict b) a.

(** How deep mappings are nested in a value. *)
Fixpoint dict_depth (v : value) : nat :=
  match v with
  | VDict d =>
      S ((fix deepest (l : vdict) : nat :=
            match l with
            | [] => O
            | kv :: rest => Nat.max (dict_depth (snd kv)) (deepest rest)
            end) d)
  | _ => O
  end.

(** The object at address [l] of the store [h], with everything it
    refers to, is the value [v]. *)
Fixpoint repr (h : heap) (v : value) (l : loc) {struct v} : Prop :=
  match v with
  | VInt z => read h l = Some (OInt z)
  | VStr s => read h l = Some (OStr s)
  | VBytes b => read h l = Some (OBytes b)
  | VList xs =>
      exists ls,
        read h l = Some (OList ls)
        /\ (fix all (xs : list value) (ls : list loc) : Prop :=
              match xs, ls with
              | [], [] => True
              | x :: xs', l' :: ls' => repr h x l' /\ all xs' ls'
              | _, _ => False
              end) xs ls
  | VDict d =>
      exists es,
        read h l = Some (ODict es)
        /\ (fix all (d : vdict) (es : list (string * loc)) : Prop :=
              match d, es with
              | [], [] => True
              | kv :: d', kl :: es' =>
                  fst kv = fst kl /\ repr h (snd kv) (snd kl) /\ all d' es'
              | _, _ => False
              end) d es
  end.

(** Every object present in [h] is the same in [h'], except possibly
    at the addresses in [R]. *)
Definition extends_off (R : loc -> Prop) (h h' : heap) : Prop :=
  forall l o, ~ R l -> read h l = Some o -> read h' l = Some o.

(** Every object present in [h] is the same in [h']. *)
Definition extends (h h' : heap) : Prop :=
  forall l o, read h l = Some o -> read h' l = Some o.

(** [v] is held at [l] whatever happens at the addresses in [R]. *)
Definition stable (R : loc -> Prop) (h : heap) (v : value) (l : loc) : Prop :=
  forall h', extends_off R h h' -> repr h' v l.

(** Entry by entry, a mapping and the entries of a dict object. *)
Definition entries_match (P : value -> loc -> Prop) (d : vdict)
           (es : list (string * loc)) : Prop :=
  Forall2 (fun kv kl => fst kv = fst kl /\ P (snd kv) (snd kl)) d es.

(** The value of one key in the merge of [a] and [b], case by case:
    the recursive merge when both hold a mapping there, else the value
    of [b] when [b] has the key, else whatever [a] has. *)
Definition merged_at (a b : vdict) (key : string) : option value :=
  match vget a key, vget b key with
  | Some (VDict x), Some (VDict y) => Some (VDict (merged x y))
  | _, Some v => Some v
  | from_a, None => from_a
  end.

(** Induction on [value] with the hypothesis for every element of a
    sequence and every entry of a mapping. *)
Fixpoint value_nested_ind (P : value -> Prop)
         (HInt : forall z, P (VInt z))
         (HStr : forall s, P (VStr s))
         (HBytes : forall b, P (VBytes b))
         (HList : forall xs, Forall P xs -> P (VList xs))
         (HDict : forall d, Forall (fun kv => P (snd kv)) d -> P (VDict d))
         (v : value) {struct v} : P v :=
  match v with
  | VInt z => HInt z
  | VStr s => HStr s
  | VBytes b => HBytes b
  | VList xs =>
      HList xs
        ((fix go (l : list value) : Forall P l :=
            match l with
            | [] => Forall_nil P
            | x :: r =>
                Forall_cons x
                  (value_nested_ind P HInt HStr HBytes HList HDict x) (go r)
            end) xs)
  | VDict d =>
      HDict d
        ((fix go (l : list (string * value)) : Forall (fun kv => P (snd kv)) l :=
            match l with
            | [] => Forall_nil _
            | kv :: r =>
                Forall_cons kv
                  (value_nested_ind P HInt HStr HBytes HList HDict (snd kv)) (go r)
            end) d)
  end.

End Spec.

(* ================================================================= *)
(** * Part II -- properties *)
(* ================================================================= *)

(** ** partition *)

Lemma partition_loop_filter :
  forall (T : Type) (p : T -> bool) (xs ts fs : list T),
    Collections.partition_loop T p xs ts fs
    = (ts ++ filter p xs, fs ++ filter (fun x => negb (p x)) xs).
Proof.
  intros T p xs; induction xs as [|x xs IH]; intros ts fs; simpl.
  - now rewrite !app_nil_r.
  - destruct (p x); simpl; rewrite IH, <- app_assoc; reflexivity.
Qed.

Lemma filter_split_permutation :
  forall (T : Type) (p : T -> bool) (xs : list T),
    Permutation (filter p xs ++ filter (fun x => negb (p x)) xs) xs.
Proof.
  intros T p xs; induction xs as [|x xs IH]; simpl.
  - constructor.
  - destruct (p x); simpl.
    + now constructor.
    + eapply Permutation_trans; [apply Permutation_sym, Permutation_middle|].
      now constructor.
Qed.

(** C7: [partition] returns the items that satisfy the predicate and
    the remaining items, each in the order of the input; the two lists
    together are a permutation of the input; and
    [partition([1,2,3,4,5,6], is_even)] is [([2,4,6],[1,3,5])]. *)
Theorem partition_spec :
  (forall (T : Type) (iterable : list T) (predicate : T -> bool),
      Collections.partition iterable predicate
      = (filter predicate iterable,
         filter (fun x => negb (predicate x)) iterable)
      /\ Permutation (fst (Collections.partition iterable predicate)
                      ++ snd (Collections.partition iterable predicate))
                     iterable)
  /\ Collections.partition [1; 2; 3; 4; 5; 6] Z.even = ([2; 4; 6], [1; 3; 5]).
Proof.
  split; [|reflexivity].
  intros T xs p. unfold Collections.partition.
  rewrite partition_loop_filter. simpl. split; [reflexivity|].
  apply filter_split_permutation.
Qed.

(** ** EnumerableList.reduce and EnumerableList.first *)

Lemma reduce_loop_fold_left :
  forall (T : Type) (func : T -> T -> T) (items : list T) (acc : T),
    EnumerableList.reduce_loop T func items acc = fold_left func items acc.
Proof.
  intros T func items; induction items as [|x xs IH]; intros acc; simpl; auto.
Qed.

(** C9: [reduce] without an initial value fails exactly on the empty
    list and otherwise folds the function from the left over the
    remaining items, starting from the first one; with an initial value
    it never fails and folds from that value.  [first] without a
    default fails exactly on the empty list; with a default it returns
    the default on the empty list and the first item otherwise. *)
Theorem reduce_first_spec :
  forall (T : Type) (items : list T) (func : T -> T -> T),
    let self := EnumerableList.mk items in
    (Spec.fails (EnumerableList.reduce self func None) <-> items = [])
    /\ EnumerableList.reduce self func None
       = match items with
         | [] => Raise ValueError
         | x :: rest => Ok (fold_left func rest x)
         end
    /\ (forall initial : T,
           EnumerableList.reduce self func (Some initial)
           = Ok (fold_left func items initial))
    /\ (Spec.fails (EnumerableList.first self None) <-> items = [])
    /\ (forall default : T,
           EnumerableList.first self (Some default)
           = Ok (match items with [] => default | x :: _ => x end)).
Proof.
  intros T items func self. unfold self, EnumerableList.reduce, EnumerableList.first.
  simpl. repeat split.
  - destruct items; simpl; [reflexivity|]. intros [e He]. discriminate.
  - intros ->. exists ValueError. reflexivity.
  - destruct items; simpl; [reflexivity|]. now rewrite reduce_loop_fold_left.
  - intros initial. now rewrite reduce_loop_fold_left.
  - destruct items; simpl; [reflexivity|]. intros [e He]. discriminate.
  - intros ->. exists ValueError. reflexivity.
  - intros d. destruct items; reflexivity.
Qed.

(** ** Slices *)

Lemma len_nonneg : forall (A : Type) (l : list A), 0 <= len l.
Proof. intros; unfold len; lia. Qed.

Lemma len_app : forall (A : Type) (l1 l2 : list A), len (l1 ++ l2) = len l1 + len l2.
Proof. intros; unfold len; rewrite length_app; lia. Qed.

Lemma is_empty_false : forall (A : Type) (l : list A), l <> [] -> is_empty l = false.
Proof. intros A [|x l] H; [congruence | reflexivity]. Qed.

Lemma slice_prefix :
  forall (A : Type) (l : list A) (k : Z),
    0 <= k -> slice l None (Some k) = firstn (Z.to_nat k) l.
Proof.
  intros A l k Hk. unfold slice, norm_index.
  destruct (k <? 0) eqn:E; [apply Z.ltb_lt in E; lia|].
  simpl. rewrite Z.sub_0_r.
  destruct (Z.min_spec k (len l)) as [[H ->]|[H ->]]; [reflexivity|].
  unfold len in *. rewrite Nat2Z.id.
  rewrite firstn_all. symmetry. apply firstn_all2. lia.
Qed.

Lemma slice_from_zero :
  forall (A : Type) (l : list A), slice l (Some 0) None = l.
Proof.
  intros A l. unfold slice, norm_index. simpl.
  rewrite Z.min_l by apply len_nonneg. simpl.
  rewrite Z.sub_0_r. unfold len. rewrite Nat2Z.id. apply firstn_all.
Qed.

Lemma slice_range :
  forall (A : Type) (l : list A) (i j : Z),
    0 <= i -> i <= j ->
    slice l (Some i) (Some j)
    = firstn (Z.to_nat (j - i)) (skipn (Z.to_nat i) l).
Proof.
  intros A l i j Hi Hij. unfold slice, norm_index.
  destruct (i <? 0) eqn:Ei; [apply Z.ltb_lt in Ei; lia|].
  destruct (j <? 0) eqn:Ej; [apply Z.ltb_lt in Ej; lia|].
  pose proof (len_nonneg A l) as Hn. unfold len in *.
  destruct (Z.min_spec i (Z.of_nat (List.length l))) as [[H1 ->]|[H1 ->]];
    destruct (Z.min_spec j (Z.of_nat (List.length l))) as [[H2 ->]|[H2 ->]];
    try lia; try reflexivity.
  - (* j beyond the end *)
    rewrite firstn_all2 by (rewrite length_skipn; lia).
    rewrite firstn_all2 by (rewrite length_skipn; lia). reflexivity.
  - rewrite Z.sub_diag. rewrite Nat2Z.id. rewrite skipn_all.
    rewrite skipn_all2 by lia. now rewrite !firstn_nil.
Qed.

Lemma repeat_seq_singleton :
  forall (A : Type) (c : A) (n : Z), repeat_seq [c] n = repeat c (Z.to_nat n).
Proof.
  intros A c n. unfold repeat_seq.
  induction (Z.to_nat n) as [|k IH]; simpl; [reflexivity|]. now rewrite IH.
Qed.

(** ** truncate *)

(** What [truncate] does, case by case.  On every text that is not
    empty it fails with ValueError whenever [max_length <= len(suffix)],
    returns the text unchanged when [len(text) <= max_length], and
    otherwise returns the first [max_length - len(suffix)] characters
    followed by the suffix, a string of exactly [max_length] characters
    that ends with the suffix.  On the empty text the guard at the top
    of the function returns the empty string before [max_length] is
    checked, against the docstring of the function, which promises
    ValueError whenever [max_length] is less than or equal to the
    length of the suffix. *)
Theorem truncate_spec :
  forall (char : Type) (text : list char) (max_length : Z) (suffix : list char),
    (text = [] -> Strings.truncate text max_length suffix = Ok [])
    /\ (text <> [] -> max_length <= len suffix ->
        Strings.truncate text max_length suffix = Raise ValueError)
    /\ (text <> [] -> len suffix < max_length -> len text <= max_length ->
        Strings.truncate text max_length suffix = Ok text)
    /\ (len suffix < max_length -> max_length < len text ->
        exists r,
          Strings.truncate text max_length suffix = Ok r
          /\ r = firstn (Z.to_nat (max_length - len suffix)) text ++ suffix
          /\ len r = max_length
          /\ Spec.ends_with r suffix).
Proof.
  intros char text max_length suffix. unfold Strings.truncate.
  repeat split.
  - intros ->. reflexivity.
  - intros Ht Hm. rewrite is_empty_false by assumption.
    destruct (max_length <=? len suffix) eqn:E; [reflexivity|].
    apply Z.leb_gt in E. lia.
  - intros Ht Hs Hl. rewrite is_empty_false by assumption.
    destruct (max_length <=? len suffix) eqn:E; [apply Z.leb_le in E; lia|].
    destruct (len text <=? max_length) eqn:E2; [reflexivity|].
    apply Z.leb_gt in E2. lia.
  - intros Hs Hl.
    assert (Ht : text <> []).
    { intros ->. pose proof (len_nonneg char suffix). unfold len in Hl. simpl in Hl. lia. }
    rewrite is_empty_false by assumption.
    destruct (max_length <=? len suffix) eqn:E; [apply Z.leb_le in E; lia|].
    destruct (len text <=? max_length) eqn:E2; [apply Z.leb_le in E2; lia|].
    rewrite slice_prefix by lia.
    eexists. split; [reflexivity|]. split; [reflexivity|]. split.
    + rewrite len_app. unfold len in *. rewrite length_firstn. lia.
    + eexists. reflexivity.
Qed.

(** Every case of [truncate_spec] at concrete arguments. *)
Lemma truncate_spec_witness :
  Strings.truncate (lit "") 0 (lit "...") = Ok []
  /\ Strings.truncate (lit "Hello") 3 (lit "...") = Raise ValueError
  /\ Strings.truncate (lit "Short") 10 (lit "...") = Ok (lit "Short")
  /\ exists r, Strings.truncate (lit "This is a long text") 10 (lit "...") = Ok r
               /\ r = lit "This is..." /\ len r = 10
               /\ Spec.ends_with r (lit "...").
Proof.
  destruct (truncate_spec ascii (lit "") 0 (lit "...")) as [H1 _].
  destruct (truncate_spec ascii (lit "Hello") 3 (lit "...")) as [_ [H2 _]].
  destruct (truncate_spec ascii (lit "Short") 10 (lit "...")) as [_ [_ [H3 _]]].
  destruct (truncate_spec ascii (lit "This is a long text") 10 (lit "..."))
    as [_ [_ [_ H4]]].
  split; [apply H1; reflexivity|].
  split; [apply H2; [discriminate | vm_compute; discriminate]|].
  split; [apply H3; [discriminate | reflexivity | vm_compute; discriminate]|].
  destruct H4 as [r [Hr [Hv [Hl He]]]]; [reflexivity | reflexivity|].
  exists r. repeat split; assumption.
Defined.

(** C3: [truncate("", 2, "...")] returns the empty string and does not
    fail, although [max_length <= len(suffix)]: the early return on an
    empty text comes before the check that the docstring of the
    function promises for every call. *)
Lemma truncate_empty_text_no_error :
  2 <= len (lit "...")
  /\ Strings.truncate (lit "") 2 (lit "...") = Ok []
  /\ ~ Spec.fails (Strings.truncate (lit "") 2 (lit "...")).
Proof.
  split; [vm_compute; discriminate|]. split; [reflexivity|].
  intros [e He]. discriminate.
Qed.

(** ** mask_sensitive *)

(** C10: on a text of more than 3 characters, [mask_sensitive] with
    [visible_chars=0] and a one-character mask returns the mask
    character repeated [len(text)] times followed by the whole text:
    the result has [2 * len(text)] characters, is not the fully masked
    string of the original length, and ends with the text. *)
Theorem mask_sensitive_zero_visible :
  forall (char : Type) (text : list char) (c : char),
    3 < len text ->
    let r := Strings.mask_sensitive text 0 [c] in
    r = repeat c (List.length text) ++ text
    /\ len r = 2 * len text
    /\ r <> repeat c (List.length text)
    /\ Spec.ends_with r text.
Proof.
  intros char text c Hlen r.
  assert (Hr : r = repeat c (List.length text) ++ text).
  { unfold r, Strings.mask_sensitive.
    destruct text as [|x text']; [unfold len in Hlen; simpl in Hlen; lia|].
    cbn [is_empty].
    destruct (len (x :: text') <=? 3) eqn:E1; [apply Z.leb_le in E1; lia|].
    destruct (0 >=? len (x :: text')) eqn:E2; [apply Z.geb_le in E2; lia|].
    cbn [orb]. rewrite Z.sub_0_r. change (- 0) with 0.
    rewrite slice_from_zero, repeat_seq_singleton.
    unfold len. now rewrite Nat2Z.id. }
  split; [exact Hr|]. split; [|split].
  - rewrite Hr, len_app. unfold len. rewrite repeat_length. lia.
  - rewrite Hr. intros Heq.
    apply (f_equal (@List.length char)) in Heq.
    rewrite length_app, repeat_length in Heq. unfold len in Hlen. lia.
  - rewrite Hr. eexists. reflexivity.
Qed.

(** The default mask on a card number. *)
Lemma mask_sensitive_zero_visible_witness :
  Strings.mask_sensitive (lit "4532015112830366") 0 Strings.default_mask_char
  = lit "****************4532015112830366".
Proof.
  destruct (mask_sensitive_zero_visible ascii (lit "4532015112830366") "*"%char)
    as [H _]; [reflexivity|].
  exact H.
Defined.

(** ** unique and OrderedSet *)

Section FirstOccurrence.
Variable T : Type.
Variable eq_dec : forall x y : T, {x = y} + {x <> y}.

Lemma fresh_true : forall K y, Spec.fresh eq_dec K y = true <-> ~ In y K.
Proof.
  intros K y. unfold Spec.fresh. destruct (in_dec eq_dec y K); split; intros H;
    try reflexivity; try discriminate; try assumption. contradiction.
Qed.

Lemma fresh_false : forall K y, Spec.fresh eq_dec K y = false <-> In y K.
Proof.
  intros K y. unfold Spec.fresh. destruct (in_dec eq_dec y K); split; intros H;
    try reflexivity; try discriminate; try assumption. contradiction.
Qed.

Lemma filter_fresh_nil : forall l : list T, filter (Spec.fresh eq_dec []) l = l.
Proof.
  intros l; induction l as [|y l IH]; simpl; [reflexivity|]. now rewrite IH.
Qed.

Lemma filter_fresh_remove_seen :
  forall (K : list T) (x : T) (l : list T),
    In x K -> filter (Spec.fresh eq_dec K) (remove eq_dec x l) = filter (Spec.fresh eq_dec K) l.
Proof.
  intros K x l Hx; induction l as [|y l IH]; simpl; [reflexivity|].
  destruct (eq_dec x y) as [->|Hne]; simpl.
  - rewrite IH. apply fresh_false in Hx. now rewrite Hx.
  - now rewrite IH.
Qed.

Lemma filter_fresh_remove_new :
  forall (K K' : list T) (x : T) (l : list T),
    (forall y, In y K' <-> x = y \/ In y K) ->
    filter (Spec.fresh eq_dec K') l = filter (Spec.fresh eq_dec K) (remove eq_dec x l).
Proof.
  intros K K' x l HK; induction l as [|y l IH]; simpl; [reflexivity|].
  destruct (eq_dec x y) as [->|Hne]; simpl.
  - rewrite <- IH.
    assert (E : Spec.fresh eq_dec K' y = false) by (apply fresh_false, HK; now left).
    now rewrite E.
  - rewrite <- IH.
    destruct (Spec.fresh eq_dec K' y) eqn:E1, (Spec.fresh eq_dec K y) eqn:E2; try reflexivity; exfalso.
    + apply fresh_true in E1. apply fresh_false in E2. apply E1, HK. now right.
    + apply fresh_false in E1. apply fresh_true in E2.
      apply HK in E1 as [?|?]; contradiction.
Qed.

Lemma unique_loop_first_occurrences :
  forall (iterable seen result : list T),
    Collections.unique_loop T eq_dec None iterable seen result
    = result ++ filter (Spec.fresh eq_dec seen) (Spec.first_occurrences eq_dec iterable).
Proof.
  induction iterable as [|x rest IH]; intros seen result; simpl.
  - now rewrite app_nil_r.
  - destruct (set_mem eq_dec x seen) eqn:E; simpl.
    + apply set_mem_correct1 in E. rewrite IH.
      rewrite (proj2 (fresh_false seen x) E).
      now rewrite filter_fresh_remove_seen.
    + apply set_mem_complete1 in E. rewrite IH.
      rewrite (proj2 (fresh_true seen x) E).
      rewrite <- app_assoc. simpl. f_equal. f_equal.
      apply filter_fresh_remove_new. intros y. rewrite set_add_iff.
      split; intros [H|H]; auto.
Qed.

Lemma dict_keys_setitem :
  forall (d : Collections.dict T unit) (x : T),
    Collections.dict_keys T (Collections.dict_setitem T eq_dec d x tt)
    = if in_dec eq_dec x (Collections.dict_keys T d)
      then Collections.dict_keys T d
      else Collections.dict_keys T d ++ [x].
Proof.
  intros d x; induction d as [|[k w] d IH]; simpl; [reflexivity|].
  destruct (eq_dec k x) as [->|Hne]; simpl.
  - destruct (eq_dec x x); [reflexivity|contradiction].
  - destruct (eq_dec k x); [contradiction|]. rewrite IH.
    unfold Collections.dict_keys.
    destruct (in_dec eq_dec x (map fst d)); reflexivity.
Qed.

Lemma OrderedSet_init_first_occurrences :
  forall (iterable : list T) (s : Collections.OrderedSet T),
    Collections.OrderedSet_list T (fold_left (Collections.add T eq_dec) iterable s)
    = Collections.OrderedSet_list T s
      ++ filter (Spec.fresh eq_dec (Collections.OrderedSet_list T s))
                (Spec.first_occurrences eq_dec iterable).
Proof.
  induction iterable as [|x rest IH]; intros s; simpl.
  - now rewrite app_nil_r.
  - rewrite IH. unfold Collections.OrderedSet_list, Collections.add. simpl.
    rewrite dict_keys_setitem.
    set (K := Collections.dict_keys T (Collections.items s)).
    destruct (in_dec eq_dec x K) as [Hi|Hn].
    + rewrite (proj2 (fresh_false K x) Hi).
      now rewrite filter_fresh_remove_seen.
    + rewrite (proj2 (fresh_true K x) Hn).
      rewrite <- app_assoc. simpl. f_equal. f_equal.
      apply filter_fresh_remove_new. intros y. rewrite in_app_iff. simpl.
      tauto.
Qed.

Lemma first_occurrences_In :
  forall (l : list T) (x : T), In x (Spec.first_occurrences eq_dec l) <-> In x l.
Proof.
  induction l as [|y l IH]; intros x; simpl; [tauto|].
  split.
  - intros [H|H]; [now left|]. apply in_remove in H. right. now apply IH.
  - intros [H|H]; [now left|].
    destruct (eq_dec y x) as [E|E]; [now left|]. right.
    apply in_in_remove; [congruence|]. now apply IH.
Qed.

Lemma NoDup_remove_elt :
  forall (x : T) (l : list T), NoDup l -> NoDup (remove eq_dec x l).
Proof.
  intros x l H; induction H as [|y l Hy Hl IH]; simpl; [constructor|].
  destruct (eq_dec x y); [assumption|]. constructor; [|assumption].
  intros Hin. apply in_remove in Hin. tauto.
Qed.

Lemma first_occurrences_NoDup :
  forall l : list T, NoDup (Spec.first_occurrences eq_dec l).
Proof.
  induction l as [|y l IH]; simpl; constructor.
  - apply remove_In.
  - now apply NoDup_remove_elt.
Qed.

End FirstOccurrence.

(** C5: [unique] with the identity key and [list(OrderedSet(...))] of
    the same list both give the elements without duplicates, each at
    its first occurrence, so the two results are equal; the result has
    no duplicates and the same elements as the input; and for
    [[3,1,4,1,5,9,2,6,5]] both give [[3,1,4,5,9,2,6]]. *)
Theorem unique_OrderedSet_first_occurrence :
  (forall (T : Type) (eq_dec : forall x y : T, {x = y} + {x <> y})
          (iterable : list T),
      let via_set :=
        Collections.OrderedSet_list T (Collections.OrderedSet_init T eq_dec iterable) in
      Collections.unique T eq_dec iterable None
      = Spec.first_occurrences eq_dec iterable
      /\ via_set = Spec.first_occurrences eq_dec iterable
      /\ Collections.unique T eq_dec iterable None = via_set
      /\ NoDup via_set
      /\ (forall x, In x via_set <-> In x iterable))
  /\ Collections.unique Z Z.eq_dec [3; 1; 4; 1; 5; 9; 2; 6; 5] None
     = [3; 1; 4; 5; 9; 2; 6]
  /\ Collections.OrderedSet_list Z
       (Collections.OrderedSet_init Z Z.eq_dec [3; 1; 4; 1; 5; 9; 2; 6; 5])
     = [3; 1; 4; 5; 9; 2; 6].
Proof.
  split; [|split; vm_compute; reflexivity].
  intros T eq_dec iterable via_set.
  assert (Hu : Collections.unique T eq_dec iterable None
               = Spec.first_occurrences eq_dec iterable).
  { unfold Collections.unique. rewrite unique_loop_first_occurrences.
    simpl. apply (filter_fresh_nil T eq_dec). }
  assert (Hs : via_set = Spec.first_occurrences eq_dec iterable).
  { unfold via_set, Collections.OrderedSet_init.
    rewrite OrderedSet_init_first_occurrences. simpl. apply (filter_fresh_nil T eq_dec). }
  repeat split.
  - exact Hu.
  - exact Hs.
  - congruence.
  - rewrite Hs. apply first_occurrences_NoDup.
  - rewrite Hs. apply first_occurrences_In.
  - rewrite Hs. apply first_occurrences_In.
Qed.

(** ** flatten *)

Lemma flat_map_singleton :
  forall (f : value -> list value) (l : list value),
    Forall (fun x => f x = [x]) l -> flat_map f l = l.
Proof.
  intros f l H; induction H as [|x l Hx Hl IH]; simpl; [reflexivity|].
  now rewrite Hx, IH.
Qed.

Lemma flatten_item_depth0 : forall item, Collections.flatten_item 0 item = [item].
Proof. intros [ | | | | ]; reflexivity. Qed.

Lemma flatten_item_atomic :
  forall depth item, Spec.atomic item = true -> Collections.flatten_item depth item = [item].
Proof. intros depth [ | | | | ]; simpl; intros H; try reflexivity; discriminate. Qed.

Lemma fully_flat_app :
  forall l1 l2, Spec.fully_flat (l1 ++ l2) = Spec.fully_flat l1 && Spec.fully_flat l2.
Proof. intros; unfold Spec.fully_flat; apply forallb_app. Qed.

Lemma flatten_item_unlimited_flat :
  forall item, Spec.fully_flat (Collections.flatten_item (-1) item) = true.
Proof.
  induction item using Spec.value_nested_ind; try reflexivity.
  cbn. induction H as [|x xs Hx Hxs IH]; simpl; [reflexivity|].
  rewrite fully_flat_app, Hx. exact IH.
Qed.

Lemma flatten_unlimited_flat :
  forall iterable, Spec.fully_flat (Collections.flatten iterable (-1)) = true.
Proof.
  intros l; unfold Collections.flatten; induction l as [|x l IH]; simpl; [reflexivity|].
  now rewrite fully_flat_app, flatten_item_unlimited_flat, IH.
Qed.

Lemma flatten_fully_flat :
  forall iterable depth,
    Spec.fully_flat iterable = true -> Collections.flatten iterable depth = iterable.
Proof.
  intros l depth H. apply flat_map_singleton.
  apply Forall_forall. intros x Hx. apply flatten_item_atomic.
  unfold Spec.fully_flat in H. rewrite forallb_forall in H. now apply H.
Qed.

(** The loop of [flatten], one item at a time, as the source has it. *)
Lemma flatten_cons :
  forall item rest depth,
    Collections.flatten (item :: rest) depth
    = (if Collections.is_str_bytes_dict item then [item]
       else if Collections.has_iter item && negb (depth =? 0)
            then match item with
                 | VList xs =>
                     Collections.flatten xs (if depth >? 0 then depth - 1 else -1)
                 | _ => [item]
                 end
            else [item])
      ++ Collections.flatten rest depth.
Proof.
  intros item rest depth. unfold Collections.flatten. simpl. f_equal.
  destruct item; simpl; try reflexivity; destruct (depth =? 0); reflexivity.
Qed.

(** C6: [flatten] with [depth=0] returns the items unchanged, and at
    unlimited depth it returns a fully flat sequence unchanged; its
    result is fully flat, so flattening twice is flattening once. *)
Theorem flatten_depth0_and_idempotent :
  forall iterable : list value,
    Collections.flatten iterable 0 = iterable
    /\ (Spec.fully_flat iterable = true -> Collections.flatten iterable (-1) = iterable)
    /\ Spec.fully_flat (Collections.flatten iterable (-1)) = true
    /\ Collections.flatten (Collections.flatten iterable (-1)) (-1)
       = Collections.flatten iterable (-1).
Proof.
  intros l. split; [|split; [|split]].
  - apply flat_map_singleton, Forall_forall. intros x _. apply flatten_item_depth0.
  - apply flatten_fully_flat.
  - apply flatten_unlimited_flat.
  - apply flatten_fully_flat, flatten_unlimited_flat.
Qed.

(** A flat list with a string, a byte sequence and a mapping in it, and
    a nested one. *)
Lemma flatten_depth0_and_idempotent_witness :
  Collections.flatten [VInt 1; VStr "ab"; VBytes []; VDict [("k"%string, VList [VInt 2])]] (-1)
  = [VInt 1; VStr "ab"; VBytes []; VDict [("k"%string, VList [VInt 2])]]
  /\ Collections.flatten [VList [VInt 1; VList [VInt 2]]; VInt 3] 0
     = [VList [VInt 1; VList [VInt 2]]; VInt 3].
Proof.
  split.
  - destruct (flatten_depth0_and_idempotent
                [VInt 1; VStr "ab"; VBytes []; VDict [("k"%string, VList [VInt 2])]])
      as [_ [H _]].
    apply H. reflexivity.
  - destruct (flatten_depth0_and_idempotent [VList [VInt 1; VList [VInt 2]]; VInt 3])
      as [H _].
    exact H.
Defined.

(** ** chunk *)

Lemma ceil_div_zero : forall size, 1 <= size -> Spec.ceil_div 0 size = 0.
Proof. intros size H. unfold Spec.ceil_div. apply Z.div_small. lia. Qed.

Lemma ceil_div_step :
  forall m size,
    1 <= size -> 0 < m ->
    Spec.ceil_div m size = 1 + Spec.ceil_div (Z.max 0 (m - size)) size.
Proof.
  intros m size Hs Hm. unfold Spec.ceil_div.
  destruct (Z.max_spec 0 (m - size)) as [[H ->]|[H ->]].
  - replace (m + size - 1) with ((m - size + size - 1) + 1 * size) by lia.
    rewrite Z.div_add by lia. lia.
  - replace (m + size - 1) with ((m - 1) + 1 * size) by lia.
    rewrite Z.div_add by lia.
    rewrite (Z.div_small (m - 1)) by lia.
    rewrite (Z.div_small (0 + size - 1)) by lia. reflexivity.
Qed.

Lemma ceil_div_pos :
  forall m size, 1 <= size -> 0 < m -> 0 < Spec.ceil_div m size.
Proof.
  intros m size Hs Hm. rewrite ceil_div_step by assumption.
  assert (0 <= Spec.ceil_div (Z.max 0 (m - size)) size); [|lia].
  unfold Spec.ceil_div. apply Z.div_pos; lia.
Qed.

Lemma gen_list_more_fuel :
  forall (T : Type) (fuel : nat) (g : Collections.chunk_gen T) r,
    Collections.gen_list fuel g = Some r ->
    forall fuel', (fuel <= fuel')%nat -> Collections.gen_list fuel' g = Some r.
Proof.
  intros T fuel; induction fuel as [|fuel IH]; intros g r H fuel' Hle;
    [discriminate|].
  destruct fuel' as [|fuel']; [lia|].
  cbn [Collections.gen_list] in *.
  destruct (Collections.gen_next g) as [[grp| |e] g']; try assumption.
  destruct (Collections.gen_list fuel g') as [r'|] eqn:E; [|discriminate].
  rewrite (IH g' r' E fuel') by lia. exact H.
Qed.

Section ChunkProofs.
Variable T : Type.
Variable items : list T.
Variable size : Z.
Hypothesis size_positive : 1 <= size.

Lemma gen_list_looping :
  forall (fuel : nat) (i : Z),
    0 <= i ->
    (Z.to_nat (len items - i) < fuel)%nat ->
    exists groups,
      Collections.gen_list fuel (Collections.Looping T items size i) = Some (Ok groups)
      /\ concat groups = skipn (Z.to_nat i) items
      /\ len groups = Spec.ceil_div (Z.max 0 (len items - i)) size
      /\ Forall (fun g => 1 <= len g <= size) groups
      /\ Spec.all_but_last (fun g => len g = size) groups.
Proof.
  induction fuel as [|fuel IH]; intros i Hi Hfuel; [lia|].
  cbn [Collections.gen_list Collections.gen_next]. unfold Collections.chunk_loop.
  destruct (i <? len items) eqn:E.
  - apply Z.ltb_lt in E.
    destruct (IH (i + size)) as [groups [Hrun [Hcat [Hlen [Hall Hlast]]]]];
      [lia | lia |].
    rewrite Hrun. eexists. split; [reflexivity|].
    rewrite slice_range by lia.
    replace (i + size - i) with size by lia.
    set (g := firstn (Z.to_nat size) (skipn (Z.to_nat i) items)).
    assert (Hg : len g = Z.min size (len items - i)).
    { unfold g, len in *. rewrite length_firstn, length_skipn. lia. }
    split; [|split; [|split]].
    + simpl. rewrite Hcat. unfold g.
      replace (Z.to_nat (i + size)) with (Z.to_nat size + Z.to_nat i)%nat by lia.
      rewrite <- skipn_skipn. apply firstn_skipn.
    + rewrite Z.max_r by lia. rewrite (ceil_div_step (len items - i)) by lia.
      replace (len items - i - size) with (len items - (i + size)) by lia.
      rewrite <- Hlen. unfold len. cbn [List.length]. lia.
    + constructor; [lia | assumption].
    + destruct groups as [|g' rest]; [exact I|].
      split; [|exact Hlast].
      destruct (Z.max_spec 0 (len items - (i + size))) as [[H Hm]|[H Hm]].
      * lia.
      * rewrite Hm, ceil_div_zero in Hlen by assumption.
        unfold len in Hlen. cbn [List.length] in Hlen. lia.
  - apply Z.ltb_ge in E. exists []. split; [reflexivity|].
    split; [|split; [|split]].
    + simpl. symmetry. apply skipn_all2. unfold len in E. lia.
    + rewrite Z.max_l by lia. now rewrite ceil_div_zero.
    + constructor.
    + exact I.
Qed.

End ChunkProofs.

(** C2: for [size >= 1], consuming [chunk(items, size)] gives exactly
    [ceil(n / size)] groups whose concatenation is the input; every
    group has [size] elements except possibly the last, which has
    between 1 and [size]; for [size < 1] the generator fails with
    ValueError when it is first advanced. *)
Theorem chunk_groups :
  forall (T : Type) (items : list T) (size : Z),
    (1 <= size ->
     exists groups,
       (forall fuel, (List.length items < fuel)%nat ->
                     Collections.gen_list fuel (Collections.chunk items size)
                     = Some (Ok groups))
       /\ len groups = Spec.ceil_div (len items) size
       /\ concat groups = items
       /\ Spec.all_but_last (fun g => len g = size) groups
       /\ Forall (fun g => 1 <= len g <= size) groups)
    /\ (size < 1 ->
        Collections.gen_next (Collections.chunk items size)
        = (Collections.Raised ValueError, Collections.Finished)
        /\ forall fuel, Collections.gen_list (S fuel) (Collections.chunk items size)
                        = Some (Raise ValueError)).
Proof.
  intros T items size. split.
  - intros Hsize.
    destruct (gen_list_looping T items size Hsize (S (List.length items)) 0)
      as [groups [Hrun [Hcat [Hlen [Hall Hlast]]]]]; [lia | unfold len; lia |].
    exists groups. split; [|split; [|split; [|split]]].
    + intros fuel Hfuel.
      apply (gen_list_more_fuel T (S (List.length items))); [|lia].
      destruct (size <? 1) eqn:E; [apply Z.ltb_lt in E; lia|].
      cbn [Collections.gen_list Collections.chunk Collections.gen_next].
      rewrite E. cbn [Collections.gen_list Collections.gen_next] in Hrun.
      exact Hrun.
    + rewrite Hlen. rewrite Z.sub_0_r. now rewrite Z.max_r by apply len_nonneg.
    + rewrite Hcat. reflexivity.
    + exact Hlast.
    + exact Hall.
  - intros Hsize. unfold Collections.chunk.
    assert (E : (size <? 1) = true) by (apply Z.ltb_lt; lia).
    split.
    + cbn. now rewrite E.
    + intros fuel. cbn. now rewrite E.
Qed.

(** [list(chunk([1, 2, 3, 4, 5], 2))] and [next(chunk([1, 2, 3], 0))]. *)
Lemma chunk_groups_witness :
  Collections.gen_list 6 (Collections.chunk [1; 2; 3; 4; 5] 2)
  = Some (Ok [[1; 2]; [3; 4]; [5]])
  /\ Collections.gen_next (Collections.chunk [1; 2; 3] 0)
     = (Collections.Raised ValueError, Collections.Finished).
Proof.
  destruct (chunk_groups Z [1; 2; 3; 4; 5] 2) as [H1 _].
  destruct (chunk_groups Z [1; 2; 3] 0) as [_ H2].
  split.
  - destruct H1 as [groups [Hrun _]]; [lia|].
    rewrite (Hrun 6%nat) by (simpl; lia).
    specialize (Hrun 6%nat ltac:(simpl; lia)).
    vm_compute in Hrun. injection Hrun as <-. reflexivity.
  - apply H2. lia.
Defined.

(** ** is_valid_credit_card *)

Lemma every_second_cons :
  forall (A : Type) (x : A) (l : list A),
    every_second (x :: l) = x :: every_second (tl l).
Proof. intros A x [|y l]; reflexivity. Qed.

Lemma total_cons :
  forall (f : Z -> Z) (x : Z) (l : list Z),
    Spec.total f (x :: l) = f x + Spec.total f l.
Proof. reflexivity. Qed.

Lemma fold_left_add_total :
  forall (l : list Z) (a : Z), fold_left Z.add l a = a + Spec.total (fun d => d) l.
Proof.
  induction l as [|x l IH]; intros a; simpl; [lia|]. rewrite IH. lia.
Qed.

Lemma fold_left_add_doubled_total :
  forall (l : list Z) (a : Z),
    fold_left Validators.add_doubled l a = a + Spec.total Spec.doubled_digit l.
Proof.
  induction l as [|x l IH]; intros a; simpl; [lia|]. rewrite IH.
  unfold Validators.add_doubled, Spec.doubled_digit.
  replace (x * 2) with (2 * x) by lia. lia.
Qed.

Lemma luhn_from_right_alternates :
  forall (r : list Z) (position : nat),
    Spec.luhn_from_right position r
    = if Nat.odd position
      then Spec.total (fun d => d) (every_second r)
           + Spec.total Spec.doubled_digit (every_second (tl r))
      else Spec.total Spec.doubled_digit (every_second r)
           + Spec.total (fun d => d) (every_second (tl r)).
Proof.
  induction r as [|x r IH]; intros position.
  - simpl. destruct (Nat.odd position); reflexivity.
  - cbn [Spec.luhn_from_right]. rewrite IH, every_second_cons. cbn [tl].
    rewrite Nat.odd_succ, <- Nat.negb_odd. unfold Spec.luhn_term.
    rewrite !total_cons. fold (Spec.doubled_digit x).
    destruct (Nat.odd position); cbn [negb]; lia.
Qed.

Lemma luhn_from_right_snoc :
  forall (r : list Z) (position : nat) (d : Z),
    Spec.luhn_from_right position (r ++ [d])
    = Spec.luhn_from_right position r
      + Spec.luhn_term (position + List.length r) d.
Proof.
  induction r as [|x r IH]; intros position d; simpl.
  - rewrite Nat.add_0_r. lia.
  - rewrite IH. replace (S position + List.length r)%nat
      with (position + S (List.length r))%nat by lia. lia.
Qed.

Lemma luhn_checksum_from_right :
  forall digits, Spec.luhn_checksum digits = Spec.luhn_from_right 1 (rev digits).
Proof.
  induction digits as [|d rest IH]; simpl; [reflexivity|].
  rewrite luhn_from_right_snoc, length_rev, IH. simpl. lia.
Qed.

(** The checksum computed by the code is the Luhn checksum. *)
Lemma code_checksum_is_luhn :
  forall digits,
    fold_left Validators.add_doubled (slice_back2_from_penultimate digits)
              (sum (slice_back2_from_last digits))
    = Spec.luhn_checksum digits.
Proof.
  intros digits. unfold sum, slice_back2_from_last, slice_back2_from_penultimate.
  rewrite fold_left_add_doubled_total, fold_left_add_total.
  rewrite luhn_checksum_from_right, luhn_from_right_alternates. simpl. lia.
Qed.

Lemma int_each_decimal :
  forall cleaned,
    forallb Validators.is_decimal cleaned = true ->
    Validators.int_each cleaned = Ok (map Spec.digit_value cleaned).
Proof.
  induction cleaned as [|c rest IH]; simpl; intros H; [reflexivity|].
  apply andb_true_iff in H as [Hc Hrest].
  unfold Validators.int_of_char. rewrite Hc. simpl. rewrite (IH Hrest). reflexivity.
Qed.

Lemma decimal_isdigit :
  forall cleaned,
    forallb Validators.is_decimal cleaned = true ->
    forallb Validators.char_isdigit cleaned = true.
Proof.
  induction cleaned as [|c rest IH]; simpl; intros H; [reflexivity|].
  apply andb_true_iff in H as [Hc Hrest].
  apply andb_true_iff. split; [|exact (IH Hrest)].
  unfold Validators.char_isdigit. now rewrite Hc.
Qed.

(** C1, as the code has it: [is_valid_credit_card] removes every
    whitespace character of the class [\s] and every dash; it returns
    false when what is left holds a character that is not a digit for
    [str.isdigit] or has a length outside [13, 19]; and when what is
    left is 13 to 19 decimal digits [0]..[9] it returns true exactly
    when the Luhn checksum is divisible by 10.  It accepts
    ["4532015112830366"] and rejects ["1234567890123456"]. *)
Theorem is_valid_credit_card_spec :
  forall number : str,
    let cleaned := Validators.re_sub_space_dash number in
    cleaned = filter (fun c => negb (Validators.re_space c || (Validators.ord c =? 45)))
                     number
    /\ ((exists c, In c cleaned /\ Validators.char_isdigit c = false)
        \/ len cleaned < 13 \/ 19 < len cleaned ->
        Validators.is_valid_credit_card number = Ok false)
    /\ (forallb Validators.is_decimal cleaned = true ->
        13 <= len cleaned <= 19 ->
        Validators.is_valid_credit_card number
        = Ok (Spec.luhn_checksum (map Spec.digit_value cleaned) mod 10 =? 0))
    /\ Validators.is_valid_credit_card (lit "4532015112830366") = Ok true
    /\ Validators.is_valid_credit_card (lit "1234567890123456") = Ok false.
Proof.
  intros number cleaned. split; [reflexivity|].
  split; [|split; [|split; reflexivity]].
  - intros H. unfold Validators.is_valid_credit_card.
    destruct (is_empty number); [reflexivity|]. fold cleaned.
    assert (E : negb (Validators.isdigit cleaned)
                || (len cleaned <? 13) || (len cleaned >? 19) = true);
      [|now rewrite E].
    destruct H as [[c [Hin Hc]]|[H|H]].
    + assert (Hd : Validators.isdigit cleaned = false).
      { unfold Validators.isdigit. apply andb_false_iff. right.
        destruct (forallb Validators.char_isdigit cleaned) eqn:Ef; [|reflexivity].
        rewrite forallb_forall in Ef. rewrite (Ef c Hin) in Hc. discriminate. }
      now rewrite Hd.
    + apply Z.ltb_lt in H. rewrite H. now rewrite orb_true_r.
    + apply Z.gtb_lt in H. rewrite H. now rewrite orb_true_r.
  - intros Hdec [Hlo Hhi]. unfold Validators.is_valid_credit_card.
    destruct (is_empty number) eqn:En.
    { destruct number; [|discriminate]. unfold cleaned, len in Hlo. simpl in Hlo. lia. }
    fold cleaned.
    assert (Hd : Validators.isdigit cleaned = true).
    { unfold Validators.isdigit. rewrite (decimal_isdigit _ Hdec).
      destruct cleaned; [unfold len in Hlo; simpl in Hlo; lia | reflexivity]. }
    rewrite Hd.
    destruct (len cleaned <? 13) eqn:E1; [apply Z.ltb_lt in E1; lia|].
    destruct (len cleaned >? 19) eqn:E2; [apply Z.gtb_lt in E2; lia|].
    cbn [negb orb]. rewrite (int_each_decimal _ Hdec). cbn [Py.bind].
    now rewrite code_checksum_is_luhn.
Qed.

(** A number written with dashes, and one with a letter in it. *)
Lemma is_valid_credit_card_spec_witness :
  Validators.is_valid_credit_card (lit "4532-0151-1283-0366") = Ok true
  /\ Validators.is_valid_credit_card (lit "4532-0151-1283-036x") = Ok false.
Proof.
  destruct (is_valid_credit_card_spec (lit "4532-0151-1283-0366"))
    as [_ [_ [H1 _]]].
  destruct (is_valid_credit_card_spec (lit "4532-0151-1283-036x"))
    as [_ [H2 _]].
  split.
  - rewrite H1; [reflexivity | reflexivity | vm_compute; split; discriminate].
  - apply H2. left. exists "x"%char. split; [|reflexivity].
    vm_compute. do 15 right. left. reflexivity.
Defined.

(** A card number followed by a tab (U+0009) is accepted: the tab is a
    whitespace character and is removed, although it is neither a
    space nor a dash, so the string stripped of spaces and dashes
    alone is not a digit string. *)
Lemma is_valid_credit_card_tab_accepted :
  let number := lit "4532015112830366" ++ [ascii_of_nat 9] in
  Validators.is_valid_credit_card number = Ok true
  /\ Spec.luhn_valid (Spec.strip_spaces_dashes number) = false
  /\ ~ (forall s, Validators.is_valid_credit_card s
                  = Ok (Spec.luhn_valid (Spec.strip_spaces_dashes s))).
Proof.
  intros number. split; [reflexivity|]. split; [reflexivity|].
  intros H. specialize (H number). vm_compute in H. discriminate.
Qed.

(** Thirteen superscript twos (U+00B2) pass [isdigit] and then make
    [int] raise: the call does not return. *)
Lemma is_valid_credit_card_superscript_raises :
  Validators.is_valid_credit_card (repeat (ascii_of_nat 178) 13) = Raise ValueError.
Proof. reflexivity. Qed.

(** ** deep_merge *)

(** *** The store *)

Lemma read_alloc_old :
  forall (h : heap) (o o' : obj) (l : loc),
    read h l = Some o' -> read (h ++ [o]) l = Some o'.
Proof.
  intros h o o' l H. unfold read in *.
  rewrite nth_error_app1; [assumption|].
  apply nth_error_Some. congruence.
Qed.

Lemma read_alloc_new :
  forall (h : heap) (o : obj), read (h ++ [o]) (List.length h) = Some o.
Proof.
  intros h o. unfold read. rewrite nth_error_app2 by lia.
  now rewrite Nat.sub_diag.
Qed.

Lemma read_fresh : forall h : heap, read h (List.length h) = None.
Proof. intros h. unfold read. apply nth_error_None. lia. Qed.

Lemma read_write_same :
  forall (h : heap) (l : loc) (o o' : obj),
    read h l = Some o' -> read (write h l o) l = Some o.
Proof.
  unfold read. induction h as [|x h IH]; intros [|l] o o' H; simpl in *;
    try discriminate; [reflexivity|]. eapply IH; eassumption.
Qed.

Lemma read_write_other :
  forall (h : heap) (l l' : loc) (o : obj),
    l <> l' -> read (write h l o) l' = read h l'.
Proof.
  unfold read. induction h as [|x h IH]; intros [|l] [|l'] o H; simpl;
    try reflexivity; try congruence. apply IH. congruence.
Qed.

(** *** Values held by the store *)

Lemma entries_match_impl :
  forall (P Q : value -> loc -> Prop) (d : Spec.vdict) (es : list (string * loc)),
    (forall v l, P v l -> Q v l) ->
    Spec.entries_match P d es -> Spec.entries_match Q d es.
Proof.
  intros P Q d es HPQ H. induction H as [|kv kl d es [Hk Hp] _ IH]; constructor;
    [split; auto | exact IH].
Qed.

Lemma repr_dict :
  forall (h : heap) (d : Spec.vdict) (l : loc),
    Spec.repr h (VDict d) l
    <-> exists es, read h l = Some (ODict es) /\ Spec.entries_match (Spec.repr h) d es.
Proof.
  intros h d l. cbn [Spec.repr]. split; intros [es [Hr H]]; exists es; split; trivial.
  - clear Hr. revert es H.
    induction d as [|kv d IH]; intros [|kl es] H; try contradiction.
    + constructor.
    + destruct H as [Hk [Hv Hrest]]. constructor; [split; assumption|].
      apply IH, Hrest.
  - clear Hr. induction H as [|kv kl d es [Hk Hp] _ IH]; [exact I|].
    split; [assumption|]. split; assumption.
Qed.

Lemma repr_list :
  forall (h : heap) (xs : list value) (l : loc),
    Spec.repr h (VList xs) l
    <-> exists ls, read h l = Some (OList ls) /\ Forall2 (Spec.repr h) xs ls.
Proof.
  intros h xs l. cbn [Spec.repr]. split; intros [ls [Hr H]]; exists ls; split; trivial.
  - clear Hr. revert ls H.
    induction xs as [|x xs IH]; intros [|l' ls] H; try contradiction.
    + constructor.
    + destruct H as [Hv Hrest]. constructor; [assumption|]. apply IH, Hrest.
  - clear Hr. induction H as [|x l' xs ls Hp _ IH]; [exact I|]. split; assumption.
Qed.

(** A value held by a store is held by every store that extends it. *)
Lemma repr_extends :
  forall (v : value) (h h' : heap) (l : loc),
    Spec.extends h h' -> Spec.repr h v l -> Spec.repr h' v l.
Proof.
  induction v using Spec.value_nested_ind; intros h h' l Hext Hr.
  - apply Hext, Hr.
  - apply Hext, Hr.
  - apply Hext, Hr.
  - apply repr_list in Hr as [ls [Hread Hall]]. apply repr_list.
    exists ls. split; [apply Hext, Hread|].
    clear Hread. induction Hall as [|x l' xs' ls' Hx _ IH]; constructor.
    + inversion H; subst. eauto.
    + apply IH. now inversion H.
  - apply repr_dict in Hr as [es [Hread Hall]]. apply repr_dict.
    exists es. split; [apply Hext, Hread|].
    clear Hread. induction Hall as [|kv kl d' es' [Hk Hx] _ IH]; constructor.
    + inversion H; subst. split; eauto.
    + apply IH. now inversion H.
Qed.

Lemma is_dict_repr :
  forall (h : heap) (v : value) (l : loc),
    Spec.repr h v l ->
    is_dict h l = match v with VDict _ => true | _ => false end.
Proof.
  intros h v l H. unfold is_dict. destruct v; cbn [Spec.repr] in H.
  - now rewrite H.
  - now rewrite H.
  - now rewrite H.
  - destruct H as [ls [H _]]. now rewrite H.
  - destruct H as [es [H _]]. now rewrite H.
Qed.

(** *** Stability *)

Lemma extends_off_refl : forall R h, Spec.extends_off R h h.
Proof. intros R h l o _ H. exact H. Qed.

Lemma extends_off_trans :
  forall R h1 h2 h3,
    Spec.extends_off R h1 h2 -> Spec.extends_off R h2 h3 -> Spec.extends_off R h1 h3.
Proof. intros R h1 h2 h3 H12 H23 l o Hn H. apply H23, H12; assumption. Qed.

Lemma stable_repr : forall R h v l, Spec.stable R h v l -> Spec.repr h v l.
Proof. intros R h v l H. apply H, extends_off_refl. Qed.

Lemma stable_weaken :
  forall R h h' v l,
    Spec.extends_off R h h' -> Spec.stable R h v l -> Spec.stable R h' v l.
Proof.
  intros R h h' v l Hext H h'' Hext'. apply H.
  eapply extends_off_trans; eassumption.
Qed.

Lemma stable_subset :
  forall (R R' : loc -> Prop) h v l,
    (forall x, R x -> R' x) -> Spec.stable R' h v l -> Spec.stable R h v l.
Proof.
  intros R R' h v l Hsub H h' Hext. apply H.
  intros x o Hn Hr. apply Hext; [|assumption]. intros HR. apply Hn, Hsub, HR.
Qed.

Lemma repr_stable :
  forall h v l, Spec.repr h v l -> Spec.stable (fun _ => False) h v l.
Proof.
  intros h v l H h' Hext. eapply repr_extends; [|exact H].
  intros x o Hr. apply Hext; [tauto | assumption].
Qed.

Lemma entries_match_forall :
  forall (C : heap -> Prop) (P : heap -> value -> loc -> Prop)
         (h0 : heap) (d : Spec.vdict) (es : list (string * loc)),
    C h0 ->
    (forall h', C h' -> Spec.entries_match (P h') d es) ->
    Spec.entries_match (fun v l => forall h', C h' -> P h' v l) d es.
Proof.
  intros C P h0 d es HC H. pose proof (H h0 HC) as H0.
  induction H0 as [|kv kl d es [Hk _] _ IH]; constructor.
  - split; [assumption|]. intros h' HC'.
    specialize (H h' HC'). inversion H; subst. tauto.
  - apply IH. intros h' HC'. specialize (H h' HC'). now inversion H.
Qed.

Lemma stable_dict_inv :
  forall R h d l,
    Spec.stable R h (VDict d) l ->
    exists es,
      read h l = Some (ODict es) /\ ~ R l
      /\ Spec.entries_match (Spec.stable R h) d es.
Proof.
  intros R h d l H.
  pose proof (stable_repr _ _ _ _ H) as Hr.
  apply repr_dict in Hr as [es [Hread _]].
  assert (HnR : ~ R l).
  { intros HR.
    assert (Hext : Spec.extends_off R h (write h l (OInt 0))).
    { intros x o Hn Hx. destruct (Nat.eq_dec l x) as [->|Hne]; [contradiction|].
      now rewrite read_write_other. }
    apply H in Hext. apply repr_dict in Hext as [es' [Hread' _]].
    rewrite (read_write_same h l (OInt 0) _ Hread) in Hread'. discriminate. }
  exists es. split; [assumption|]. split; [assumption|].
  apply (entries_match_forall (Spec.extends_off R h) Spec.repr h).
  - apply extends_off_refl.
  - intros h' Hext. pose proof (H h' Hext) as Hr'.
    apply repr_dict in Hr' as [es' [Hread' Hm]].
    rewrite (Hext l _ HnR Hread) in Hread'. now injection Hread' as <-.
Qed.

Lemma stable_dict_intro :
  forall (R : loc -> Prop) h d l es,
    read h l = Some (ODict es) -> ~ R l ->
    Spec.entries_match (Spec.stable R h) d es ->
    Spec.stable R h (VDict d) l.
Proof.
  intros R h d l es Hread HnR Hm h' Hext. apply repr_dict. exists es.
  split; [now apply Hext|].
  eapply entries_match_impl; [|exact Hm]. intros v x Hs. now apply Hs.
Qed.

(** *** Entries of a mapping and of its dict object *)

Lemma entries_match_get :
  forall (P : value -> loc -> Prop) (d : Spec.vdict) (es : list (string * loc))
         (key : string),
    Spec.entries_match P d es ->
    match Spec.vget d key, Collections.dict_get string string_dec es key with
    | Some v, Some l => P v l
    | None, None => True
    | _, _ => False
    end.
Proof.
  intros P d es key H. unfold Spec.vget.
  induction H as [|[k v] [k' l] d es [Hk Hp] _ IH]; simpl; [exact I|].
  simpl in Hk, Hp. subst k'. destruct (string_dec k key); [exact Hp | exact IH].
Qed.

Lemma entries_match_set :
  forall (P : value -> loc -> Prop) (d : Spec.vdict) (es : list (string * loc))
         (key : string) (v : value) (l : loc),
    Spec.entries_match P d es -> P v l ->
    Spec.entries_match P (Spec.vset d key v)
                       (Collections.dict_setitem string string_dec es key l).
Proof.
  intros P d es key v l H Hp. unfold Spec.vset.
  induction H as [|[k w] [k' l'] d es [Hk Hw] Hrest IH]; simpl.
  - constructor; [split; [reflexivity | exact Hp] | constructor].
  - simpl in Hk, Hw. subst k'. destruct (string_dec k key).
    + constructor; [split; [reflexivity | exact Hp] | exact Hrest].
    + constructor; [split; [reflexivity | exact Hw] | exact IH].
Qed.

Lemma dict_depth_entries :
  forall (d : Spec.vdict) (n : nat),
    (Spec.dict_depth (VDict d) <= S n)%nat ->
    Forall (fun kv => (Spec.dict_depth (snd kv) <= n)%nat) d.
Proof.
  intros d n H. cbn [Spec.dict_depth] in H. apply le_S_n in H.
  induction d as [|kv d IH]; constructor.
  - lia.
  - apply IH. lia.
Qed.

(** *** The loop and the recursion *)

Section MergeItems.
Variable fuel : nat.

(** What the recursive calls, one level down, are assumed to do. *)
Hypothesis rec_ok :
  forall (h : heap) (la lb : loc) (va vb : Spec.vdict) (R : loc -> Prop),
    (forall l, R l -> exists o, read h l = Some o) ->
    Spec.stable R h (VDict va) la ->
    Spec.stable R h (VDict vb) lb ->
    (Spec.dict_depth (VDict vb) <= fuel)%nat ->
    exists h',
      Collections.deep_merge fuel h la lb = Some (Ok (h', List.length h))
      /\ Spec.extends h h'
      /\ Spec.stable R h' (VDict (Spec.merged va vb)) (List.length h).

Variable R : loc -> Prop.
Variable result : loc.
Hypothesis result_in_R : R result.

Lemma write_result_extends_off :
  forall h es, Spec.extends_off R h (write h result (ODict es)).
Proof.
  intros h es l o Hn Hr. rewrite read_write_other; [assumption|].
  intros ->. contradiction.
Qed.

Lemma merge_items_stable :
  forall (vitems : Spec.vdict) (items : list (string * loc)),
    Forall2 (fun kv kl => fst kv = fst kl) vitems items ->
    forall (h : heap) (acc : Spec.vdict) (es : list (string * loc)),
      (forall l, R l -> exists o, read h l = Some o) ->
      Spec.entries_match (Spec.stable R h) vitems items ->
      Forall (fun kv => (Spec.dict_depth (snd kv) <= fuel)%nat) vitems ->
      read h result = Some (ODict es) ->
      Spec.entries_match (Spec.stable R h) acc es ->
      exists h' es',
        Collections.merge_items (Collections.deep_merge fuel) items result h
        = Some (Ok h')
        /\ (forall l o, l <> result -> read h l = Some o -> read h' l = Some o)
        /\ read h' result = Some (ODict es')
        /\ Spec.entries_match (Spec.stable R h')
                              (Spec.merge_loop Spec.merge_value vitems acc) es'.
Proof.
  intros vitems items Hshape.
  induction Hshape as [|[key y] [key' value] vitems items Hkey _ IH];
    intros h acc es Hdom Hitems Hdepth Hread Hacc.
  - exists h, es. simpl. repeat split; auto.
  - simpl in Hkey. subst key'.
    inversion Hitems as [|? ? ? ? [_ Hy] Hrest]; subst. simpl in Hy.
    inversion Hdepth as [|? ? Hdy Hdrest]; subst. simpl in Hdy.
    cbn [Collections.merge_items Spec.merge_loop].
    unfold Collections.store_getitem. rewrite Hread.
    pose proof (entries_match_get _ _ _ key Hacc) as Hget.
    (* the tail of the loop, from any store that agrees off [result] *)
    assert (Hstep :
      forall (h2 : heap) (acc2 : Spec.vdict) (es2 : list (string * loc)),
        Spec.extends_off R h h2 ->
        (forall l o, l <> result -> read h l = Some o -> read h2 l = Some o) ->
        read h2 result = Some (ODict es2) ->
        Spec.entries_match (Spec.stable R h2) acc2 es2 ->
        exists h' es',
          Collections.merge_items (Collections.deep_merge fuel) items result h2
          = Some (Ok h')
          /\ (forall l o, l <> result -> read h l = Some o -> read h' l = Some o)
          /\ read h' result = Some (ODict es')
          /\ Spec.entries_match (Spec.stable R h')
                                (Spec.merge_loop Spec.merge_value vitems acc2) es').
    { intros h2 acc2 es2 Hoff Hother Hread2 Hacc2.
      destruct (IH h2 acc2 es2) as [h' [es' [Hrun [Hkeep [Hr' Hm']]]]].
      - intros l Hl. destruct (Nat.eq_dec l result) as [->|Hne]; [eauto|].
        destruct (Hdom l Hl) as [o Ho]. exists o. now apply Hother.
      - eapply entries_match_impl; [|exact Hrest].
        intros v l. now apply stable_weaken.
      - assumption.
      - assumption.
      - assumption.
      - exists h', es'. repeat split; auto. }
    (* storing [value] itself under [key] *)
    assert (Hplain :
      exists h' es',
        match Collections.store_setitem h result key value with
        | Some h2 =>
            Collections.merge_items (Collections.deep_merge fuel) items result h2
        | None => Some (Raise TypeError)
        end = Some (Ok h')
        /\ (forall l o, l <> result -> read h l = Some o -> read h' l = Some o)
        /\ read h' result = Some (ODict es')
        /\ Spec.entries_match (Spec.stable R h')
             (Spec.merge_loop Spec.merge_value vitems (Spec.vset acc key y)) es').
    { unfold Collections.store_setitem. rewrite Hread.
      apply (Hstep _ (Spec.vset acc key y)
                   (Collections.dict_setitem string string_dec es key value)).
      - apply write_result_extends_off.
      - intros l o Hne Hl. now rewrite read_write_other by congruence.
      - eapply read_write_same; eassumption.
      - apply entries_match_set.
        + eapply entries_match_impl; [|exact Hacc].
          intros v l. apply stable_weaken, write_result_extends_off.
        + eapply stable_weaken; [apply write_result_extends_off | exact Hy]. }
    destruct (Spec.vget acc key) as [x|] eqn:Ex,
             (Collections.dict_get string string_dec es key) as [current|] eqn:Ec;
      try contradiction; [|exact Hplain].
    rewrite (is_dict_repr h x current (stable_repr _ _ _ _ Hget)).
    rewrite (is_dict_repr h y value (stable_repr _ _ _ _ Hy)).
    destruct x as [ | | | |xd]; cbn [andb]; try exact Hplain.
    destruct y as [ | | | |yd]; cbn [andb]; try exact Hplain.
    destruct (rec_ok h current value xd yd R Hdom Hget Hy Hdy)
      as [h1 [Hrun1 [Hext1 Hmerged]]].
    rewrite Hrun1. unfold Collections.store_setitem.
    rewrite (Hext1 _ _ Hread).
    apply (Hstep _ (Spec.vset acc key (VDict (Spec.merged xd yd)))
                 (Collections.dict_setitem string string_dec es key (List.length h))).
    + eapply extends_off_trans; [|apply write_result_extends_off].
      intros l o _ Hl. now apply Hext1.
    + intros l o Hne Hl. rewrite read_write_other by congruence. now apply Hext1.
    + eapply read_write_same. apply Hext1. eassumption.
    + apply entries_match_set.
      * eapply entries_match_impl; [|exact Hacc].
        intros v l. apply stable_weaken.
        eapply extends_off_trans; [|apply write_result_extends_off].
        intros l' o _ Hl. now apply Hext1.
      * eapply stable_weaken; [apply write_result_extends_off | exact Hmerged].
Qed.

End MergeItems.

Lemma stable_alloc :
  forall (R : loc -> Prop) (h : heap) (o : obj) (v : value) (l : loc),
    Spec.stable R h v l ->
    Spec.stable (fun x => R x \/ x = List.length h) (h ++ [o]) v l.
Proof.
  intros R h o v l H h' Hext. apply H. intros x ox Hn Hx.
  apply Hext.
  - intros [HR|E]; [contradiction|]. subst x. rewrite read_fresh in Hx. discriminate.
  - now apply read_alloc_old.
Qed.

(** With fuel for the nesting of the second mapping, [deep_merge]
    returns a new dict that holds the merge, whatever happens later at
    addresses it does not depend on, and leaves every object of the
    store as it was. *)
Lemma deep_merge_stable :
  forall (fuel : nat) (h : heap) (la lb : loc) (va vb : Spec.vdict)
         (R : loc -> Prop),
    (forall l, R l -> exists o, read h l = Some o) ->
    Spec.stable R h (VDict va) la ->
    Spec.stable R h (VDict vb) lb ->
    (Spec.dict_depth (VDict vb) <= fuel)%nat ->
    exists h',
      Collections.deep_merge fuel h la lb = Some (Ok (h', List.length h))
      /\ Spec.extends h h'
      /\ Spec.stable R h' (VDict (Spec.merged va vb)) (List.length h).
Proof.
  induction fuel as [|fuel IH]; intros h la lb va vb R Hdom Ha Hb Hdepth.
  - cbn [Spec.dict_depth] in Hdepth. lia.
  - destruct (stable_dict_inv _ _ _ _ Ha) as [e1 [Hra [HnRa Hea]]].
    destruct (stable_dict_inv _ _ _ _ Hb) as [e2 [Hrb [HnRb Heb]]].
    cbn [Collections.deep_merge]. rewrite Hra. unfold alloc.
    rewrite (read_alloc_old h (ODict e1) _ lb Hrb).
    set (result := List.length h).
    set (R' := fun x => R x \/ x = result).
    destruct (merge_items_stable fuel IH R' result (or_intror eq_refl) vb e2)
      with (h := h ++ [ODict e1]) (acc := va) (es := e1)
      as [h' [es' [Hrun [Hkeep [Hread' Hm]]]]].
    + eapply Forall2_impl; [|exact Heb]. intros kv kl [Hk _]. exact Hk.
    + intros l [Hl|Hl]; [|subst l].
      * destruct (Hdom l Hl) as [o Ho]. exists o. now apply read_alloc_old.
      * eexists. apply read_alloc_new.
    + eapply entries_match_impl; [|exact Heb].
      intros v l. apply stable_alloc.
    + now apply dict_depth_entries.
    + apply read_alloc_new.
    + eapply entries_match_impl; [|exact Hea].
      intros v l. apply stable_alloc.
    + rewrite Hrun. exists h'. split; [reflexivity|]. split.
      * intros l o Hl. apply Hkeep.
        -- intros ->. unfold result in Hl. rewrite read_fresh in Hl. discriminate.
        -- now apply read_alloc_old.
      * apply (stable_dict_intro R h' _ result es'); [assumption | |].
        -- intros HR. destruct (Hdom _ HR) as [o Ho].
           unfold result in Ho. rewrite read_fresh in Ho. discriminate.
        -- eapply entries_match_impl; [|exact Hm].
           intros v l. apply stable_subset. intros x Hx. now left.
Qed.

(** *** The merge, key by key *)

Lemma vget_vset_same :
  forall (d : Spec.vdict) (key : string) (v : value),
    Spec.vget (Spec.vset d key v) key = Some v.
Proof.
  unfold Spec.vget, Spec.vset. induction d as [|[k w] d IH]; intros key v; simpl.
  - destruct (string_dec key key); [reflexivity | contradiction].
  - destruct (string_dec k key) as [E|E]; simpl.
    + destruct (string_dec k key); [reflexivity | contradiction].
    + destruct (string_dec k key); [contradiction | apply IH].
Qed.

Lemma vget_vset_other :
  forall (d : Spec.vdict) (key key' : string) (v : value),
    key <> key' -> Spec.vget (Spec.vset d key v) key' = Spec.vget d key'.
Proof.
  unfold Spec.vget, Spec.vset. induction d as [|[k w] d IH]; intros key key' v Hne; simpl.
  - destruct (string_dec key key'); [contradiction | reflexivity].
  - destruct (string_dec k key) as [E|E]; simpl.
    + subst k. destruct (string_dec key key'); [contradiction | reflexivity].
    + destruct (string_dec k key'); [reflexivity | now apply IH].
Qed.

Lemma vget_absent :
  forall (d : Spec.vdict) (key : string),
    ~ In key (map fst d) -> Spec.vget d key = None.
Proof.
  unfold Spec.vget. induction d as [|[k w] d IH]; intros key H; simpl; [reflexivity|].
  simpl in H. destruct (string_dec k key); [tauto|]. apply IH. tauto.
Qed.

Lemma merge_loop_get :
  forall (items2 result : Spec.vdict) (key : string),
    NoDup (map fst items2) ->
    Spec.vget (Spec.merge_loop Spec.merge_value items2 result) key
    = match Spec.vget items2 key with
      | Some v =>
          match Spec.vget result key, v with
          | Some (VDict x), VDict y => Some (VDict (Spec.merged x y))
          | _, _ => Some v
          end
      | None => Spec.vget result key
      end.
Proof.
  induction items2 as [|[k v] rest IH]; intros result key Hnd; [reflexivity|].
  simpl in Hnd. inversion Hnd as [|? ? Hk Hrest]; subst.
  cbn [Spec.merge_loop]. rewrite IH by assumption.
  replace (Spec.vget ((k, v) :: rest) key)
    with (if string_dec k key then Some v else Spec.vget rest key) by reflexivity.
  destruct (string_dec k key) as [E|Hne].
  - subst k. rewrite (vget_absent rest key Hk).
    destruct (Spec.vget result key) as [[ | | | |x]|]; try apply vget_vset_same.
    destruct v; apply vget_vset_same.
  - assert (Hsame : forall w, Spec.vget (Spec.vset result k w) key = Spec.vget result key)
      by (intros w; now apply vget_vset_other).
    destruct (Spec.vget result k) as [[ | | | |x]|]; try (rewrite Hsame; reflexivity).
    destruct v; rewrite Hsame; reflexivity.
Qed.

Lemma merged_get :
  forall (a b : Spec.vdict) (key : string),
    NoDup (map fst b) ->
    Spec.vget (Spec.merged a b) key = Spec.merged_at a b key.
Proof.
  intros a b key Hnd. unfold Spec.merged, Spec.merged_at. cbn [Spec.merge_value].
  rewrite merge_loop_get by assumption.
  destruct (Spec.vget b key) as [v|]; destruct (Spec.vget a key) as [[ | | | |x]|];
    try reflexivity; destruct v; reflexivity.
Qed.

(** C4: for two mappings held by the store, [deep_merge(a, b)] returns
    a dict at a new address; every object that was in the store before
    the call is unchanged, so [a] and [b] still hold what they held;
    the returned dict holds the merge, in which a key of both mappings
    whose two values are mappings has the recursive merge of the two,
    any other key of [b] has the value from [b] (a sequence is
    replaced whole), and a key of [a] alone keeps its value.
    [deep_merge({'a':{'b':1}}, {'a':{'c':2}})] is
    [{'a':{'b':1,'c':2}}]. *)
Theorem deep_merge_spec :
  (forall (h : heap) (la lb : loc) (a b : Spec.vdict),
      Spec.repr h (VDict a) la ->
      Spec.repr h (VDict b) lb ->
      NoDup (map fst b) ->
      forall fuel, (Spec.dict_depth (VDict b) <= fuel)%nat ->
        exists (h' : heap) (r : loc),
          Collections.deep_merge fuel h la lb = Some (Ok (h', r))
          /\ read h r = None
          /\ Spec.extends h h'
          /\ Spec.repr h' (VDict a) la
          /\ Spec.repr h' (VDict b) lb
          /\ Spec.repr h' (VDict (Spec.merged a b)) r
          /\ (forall key, Spec.vget (Spec.merged a b) key = Spec.merged_at a b key)
          /\ (forall key ys, Spec.vget b key = Some (VList ys) ->
                             Spec.vget (Spec.merged a b) key = Some (VList ys)))
  /\ Spec.merged [("a"%string, VDict [("b"%string, VInt 1)])]
                 [("a"%string, VDict [("c"%string, VInt 2)])]
     = [("a"%string, VDict [("b"%string, VInt 1); ("c"%string, VInt 2)])].
Proof.
  split; [|reflexivity].
  intros h la lb a b Ha Hb Hnd fuel Hfuel.
  destruct (deep_merge_stable fuel h la lb a b (fun _ => False))
    as [h' [Hrun [Hext Hr]]].
  - intros l [].
  - now apply repr_stable.
  - now apply repr_stable.
  - assumption.
  - exists h', (List.length h). split; [assumption|].
    split; [apply read_fresh|]. split; [assumption|].
    split; [eapply repr_extends; eassumption|].
    split; [eapply repr_extends; eassumption|].
    split; [now apply stable_repr in Hr|].
    split; [intros key; now apply merged_get|].
    intros key ys Hk. rewrite merged_get by assumption.
    unfold Spec.merged_at. rewrite Hk.
    destruct (Spec.vget a key) as [[ | | | |x]|]; reflexivity.
Qed.

(** The documented example on a store: the objects [1] and [2], the
    inner dicts [{'b': 1}] and [{'c': 2}], and the two arguments at the
    addresses 4 and 5. *)
Lemma deep_merge_spec_witness :
  let h := [OInt 1; OInt 2;
            ODict [("b"%string, 0%nat)]; ODict [("c"%string, 1%nat)];
            ODict [("a"%string, 2%nat)]; ODict [("a"%string, 3%nat)]] in
  exists h' r,
    Collections.deep_merge 2 h 4%nat 5%nat = Some (Ok (h', r))
    /\ Spec.extends h h'
    /\ Spec.repr h' (VDict [("a"%string,
                             VDict [("b"%string, VInt 1); ("c"%string, VInt 2)])]) r.
Proof.
  intros h.
  destruct deep_merge_spec as [Hspec _].
  destruct (Hspec h 4%nat 5%nat
                  [("a"%string, VDict [("b"%string, VInt 1)])]
                  [("a"%string, VDict [("c"%string, VInt 2)])])
    with (fuel := 2%nat)
    as [h' [r [Hrun [_ [Hext [_ [_ [Hr _]]]]]]]].
  - simpl. eexists. split; [reflexivity|]. simpl. repeat split.
    eexists. split; [reflexivity|]. simpl. repeat split.
  - simpl. eexists. split; [reflexivity|]. simpl. repeat split.
    eexists. split; [reflexivity|]. simpl. repeat split.
  - simpl. constructor; [intros [] | constructor].
  - simpl. lia.
  - exists h', r. repeat split; assumption.
Defined.

(** ** HttpClient.request *)




(* ================================================================= *)
(** * Part III -- further properties of the library *)
(* ================================================================= *)

(** ** Dictionaries *)

Section DictFacts.
Variable K : Type.
Variable V : Type.
Variable K_eq_dec : forall x y : K, {x = y} + {x <> y}.

Lemma dict_get_setitem_same :
  forall (d : Collections.dict K V) (key : K) (v : V),
    Collections.dict_get K K_eq_dec (Collections.dict_setitem K K_eq_dec d key v) key
    = Some v.
Proof.
  induction d as [|[k w] d IH]; intros key v; simpl.
  - destruct (K_eq_dec key key); [reflexivity | contradiction].
  - destruct (K_eq_dec k key) as [E|E]; simpl.
    + destruct (K_eq_dec k key); [reflexivity | contradiction].
    + destruct (K_eq_dec k key); [contradiction | apply IH].
Qed.

Lemma dict_get_setitem_other :
  forall (d : Collections.dict K V) (key key' : K) (v : V),
    key <> key' ->
    Collections.dict_get K K_eq_dec (Collections.dict_setitem K K_eq_dec d key v) key'
    = Collections.dict_get K K_eq_dec d key'.
Proof.
  induction d as [|[k w] d IH]; intros key key' v Hne; simpl.
  - destruct (K_eq_dec key key'); [contradiction | reflexivity].
  - destruct (K_eq_dec k key) as [E|E]; simpl.
    + subst k. destruct (K_eq_dec key key'); [contradiction | reflexivity].
    + destruct (K_eq_dec k key'); [reflexivity | now apply IH].
Qed.

Lemma dict_contains_get :
  forall (d : Collections.dict K V) (key : K),
    Collections.dict_contains K K_eq_dec d key
    = match Collections.dict_get K K_eq_dec d key with
      | Some _ => true
      | None => false
      end.
Proof.
  induction d as [|[k w] d IH]; intros key; simpl; [reflexivity|].
  destruct (K_eq_dec k key); [reflexivity | apply IH].
Qed.

Lemma dict_contains_keys :
  forall (d : Collections.dict K V) (key : K),
    Collections.dict_contains K K_eq_dec d key = true
    <-> In key (Collections.dict_keys K d).
Proof.
  induction d as [|[k w] d IH]; intros key; simpl.
  - split; [discriminate | tauto].
  - destruct (K_eq_dec k key) as [E|E].
    + split; [now left | reflexivity].
    + rewrite IH. unfold Collections.dict_keys. tauto.
Qed.

Lemma dict_keys_setitem_any :
  forall (d : Collections.dict K V) (key : K) (v : V),
    Collections.dict_keys K (Collections.dict_setitem K K_eq_dec d key v)
    = if in_dec K_eq_dec key (Collections.dict_keys K d)
      then Collections.dict_keys K d
      else Collections.dict_keys K d ++ [key].
Proof.
  intros d key v; induction d as [|[k w] d IH]; simpl; [reflexivity|].
  destruct (K_eq_dec k key) as [E|Hne]; simpl.
  - subst k. destruct (K_eq_dec key key); [reflexivity | contradiction].
  - destruct (K_eq_dec k key); [contradiction|]. rewrite IH.
    unfold Collections.dict_keys.
    destruct (in_dec K_eq_dec key (map fst d)); reflexivity.
Qed.

End DictFacts.

(** ** group_by *)

Section GroupByProofs.
Variable T : Type.
Variable K : Type.
Variable K_eq_dec : forall x y : K, {x = y} + {x <> y}.
Variable key_func : T -> K.


Lemma group_by_step_get :
  forall (acc : Collections.dict K (list T)) (pre : list T) (item : T),
    (forall k, Collections.dict_get K K_eq_dec acc k
               = match filter (Spec.has_key K_eq_dec key_func k) pre with [] => None | g => Some g end) ->
    forall k, Collections.dict_get K K_eq_dec (Collections.group_by_step T K K_eq_dec key_func acc item) k
              = match filter (Spec.has_key K_eq_dec key_func k) (pre ++ [item]) with
                | [] => None
                | g => Some g
                end.
Proof.
  intros acc pre item Hacc k. unfold Collections.group_by_step.
  rewrite filter_app. cbn [filter]. unfold Spec.has_key at 2.
  rewrite dict_contains_get.
  pose proof (Hacc (key_func item)) as Hkey.
  destruct (Collections.dict_get K K_eq_dec acc (key_func item)) as [g|] eqn:Eg;
    cbn [negb].
  - rewrite Eg. destruct (K_eq_dec (key_func item) k) as [E|E].
    + subst k. rewrite dict_get_setitem_same.
      destruct (filter (Spec.has_key K_eq_dec key_func (key_func item)) pre) as [|y ys]; [discriminate|].
      injection Hkey as ->. reflexivity.
    + rewrite dict_get_setitem_other by assumption. rewrite app_nil_r. apply Hacc.
  - rewrite dict_get_setitem_same.
    destruct (K_eq_dec (key_func item) k) as [E|E].
    + subst k. rewrite dict_get_setitem_same.
      destruct (filter (Spec.has_key K_eq_dec key_func (key_func item)) pre) as [|y ys]; [reflexivity|].
      discriminate.
    + rewrite !dict_get_setitem_other by assumption. rewrite app_nil_r. apply Hacc.
Qed.

Lemma group_by_fold_get :
  forall (iterable pre : list T) (acc : Collections.dict K (list T)),
    (forall k, Collections.dict_get K K_eq_dec acc k
               = match filter (Spec.has_key K_eq_dec key_func k) pre with [] => None | g => Some g end) ->
    forall k, Collections.dict_get K K_eq_dec (fold_left (Collections.group_by_step T K K_eq_dec key_func) iterable acc) k
              = match filter (Spec.has_key K_eq_dec key_func k) (pre ++ iterable) with
                | [] => None
                | g => Some g
                end.
Proof.
  induction iterable as [|x rest IH]; intros pre acc Hacc k; simpl.
  - rewrite app_nil_r. apply Hacc.
  - replace (pre ++ x :: rest) with ((pre ++ [x]) ++ rest)
      by (rewrite <- app_assoc; reflexivity).
    apply IH. now apply group_by_step_get.
Qed.

Lemma group_by_step_keys :
  forall (acc : Collections.dict K (list T)) (item : T),
    Collections.dict_keys K (Collections.group_by_step T K K_eq_dec key_func acc item)
    = if in_dec K_eq_dec (key_func item) (Collections.dict_keys K acc)
      then Collections.dict_keys K acc
      else Collections.dict_keys K acc ++ [key_func item].
Proof.
  intros acc item. unfold Collections.group_by_step.
  destruct (Collections.dict_contains K K_eq_dec acc (key_func item)) eqn:Ec; cbn [negb].
  - pose proof Ec as Ein. apply dict_contains_keys in Ein.
    rewrite dict_contains_get in Ec.
    destruct (Collections.dict_get K K_eq_dec acc (key_func item)); [|discriminate].
    rewrite dict_keys_setitem_any.
    destruct (in_dec K_eq_dec (key_func item) (Collections.dict_keys K acc));
      [reflexivity | contradiction].
  - rewrite dict_get_setitem_same, !dict_keys_setitem_any.
    destruct (in_dec K_eq_dec (key_func item) (Collections.dict_keys K acc)) as [Hin|Hn].
    + apply (proj2 (dict_contains_keys K (list T) K_eq_dec acc (key_func item))) in Hin.
      congruence.
    + destruct (in_dec K_eq_dec (key_func item)
                       (Collections.dict_keys K acc ++ [key_func item])) as [_|Hn'];
        [reflexivity|].
      exfalso. apply Hn'. apply in_or_app. right. now left.
Qed.

Lemma group_by_fold_keys :
  forall (iterable : list T) (acc : Collections.dict K (list T)),
    Collections.dict_keys K (fold_left (Collections.group_by_step T K K_eq_dec key_func) iterable acc)
    = Collections.dict_keys K acc
      ++ filter (Spec.fresh K_eq_dec (Collections.dict_keys K acc))
                (Spec.first_occurrences K_eq_dec (map key_func iterable)).
Proof.
  induction iterable as [|x rest IH]; intros acc; simpl.
  - now rewrite app_nil_r.
  - rewrite IH, group_by_step_keys.
    set (ks := Collections.dict_keys K acc).
    destruct (in_dec K_eq_dec (key_func x) ks) as [Hi|Hn].
    + rewrite (proj2 (fresh_false K K_eq_dec ks (key_func x)) Hi).
      now rewrite filter_fresh_remove_seen.
    + rewrite (proj2 (fresh_true K K_eq_dec ks (key_func x)) Hn).
      rewrite <- app_assoc. simpl. f_equal. f_equal.
      apply filter_fresh_remove_new. intros y. rewrite in_app_iff. simpl. tauto.
Qed.

Lemma concat_setitem_absent :
  forall (d : Collections.dict K (list T)) (key : K) (v : list T),
    Collections.dict_get K K_eq_dec d key = None ->
    concat (map snd (Collections.dict_setitem K K_eq_dec d key v))
    = concat (map snd d) ++ v.
Proof.
  induction d as [|[k w] d IH]; intros key v H; simpl in *.
  - now rewrite app_nil_r.
  - destruct (K_eq_dec k key); [discriminate|]. simpl.
    rewrite IH by assumption. now rewrite app_assoc.
Qed.

Lemma concat_setitem_append :
  forall (d : Collections.dict K (list T)) (key : K) (g : list T) (item : T),
    Collections.dict_get K K_eq_dec d key = Some g ->
    Permutation
      (concat (map snd (Collections.dict_setitem K K_eq_dec d key (g ++ [item]))))
      (item :: concat (map snd d)).
Proof.
  induction d as [|[k w] d IH]; intros key g item H; simpl in *; [discriminate|].
  destruct (K_eq_dec k key).
  - injection H as ->. simpl. rewrite <- app_assoc. simpl.
    apply Permutation_sym, Permutation_middle.
  - simpl. eapply Permutation_trans.
    + apply Permutation_app_head. apply IH. exact H.
    + apply Permutation_sym, Permutation_middle.
Qed.

Lemma group_by_step_concat :
  forall (acc : Collections.dict K (list T)) (item : T),
    Permutation (concat (map snd (Collections.group_by_step T K K_eq_dec key_func acc item))) (item :: concat (map snd acc)).
Proof.
  intros acc item. unfold Collections.group_by_step.
  rewrite dict_contains_get.
  destruct (Collections.dict_get K K_eq_dec acc (key_func item)) as [g|] eqn:Eg;
    cbn [negb].
  - rewrite Eg. now apply concat_setitem_append.
  - rewrite dict_get_setitem_same.
    eapply Permutation_trans.
    + apply concat_setitem_append. apply dict_get_setitem_same.
    + constructor. rewrite concat_setitem_absent by assumption.
      now rewrite app_nil_r.
Qed.

Lemma group_by_fold_concat :
  forall (iterable : list T) (acc : Collections.dict K (list T)),
    Permutation (concat (map snd (fold_left (Collections.group_by_step T K K_eq_dec key_func) iterable acc)))
                (concat (map snd acc) ++ iterable).
Proof.
  induction iterable as [|x rest IH]; intros acc; simpl.
  - now rewrite app_nil_r.
  - eapply Permutation_trans; [apply IH|].
    eapply Permutation_trans.
    + apply Permutation_app_tail. apply group_by_step_concat.
    + simpl. apply Permutation_middle.
Qed.

End GroupByProofs.

(** [group_by]: under every key the result holds exactly the items
    with that key, in the order of the input, and a key that no item
    has is absent (so no group is empty). *)
Theorem group_by_groups :
  forall (T K : Type) (K_eq_dec : forall x y : K, {x = y} + {x <> y})
         (iterable : list T) (key_func : T -> K) (key : K),
    Collections.dict_get K K_eq_dec
                         (Collections.group_by K_eq_dec iterable key_func) key
    = match filter (fun x => if K_eq_dec (key_func x) key then true else false)
                   iterable with
      | [] => None
      | group => Some group
      end.
Proof.
  intros T K K_eq_dec iterable key_func key. unfold Collections.group_by.
  apply (group_by_fold_get T K K_eq_dec key_func iterable [] []).
  intros k. reflexivity.
Qed.

(** [group_by]: the keys come in the order in which they are first
    seen in the input, each once, and the groups together hold every
    item of the input exactly once. *)
Theorem group_by_keys_and_items :
  forall (T K : Type) (K_eq_dec : forall x y : K, {x = y} + {x <> y})
         (iterable : list T) (key_func : T -> K),
    let groups := Collections.group_by K_eq_dec iterable key_func in
    Collections.dict_keys K groups
    = Spec.first_occurrences K_eq_dec (map key_func iterable)
    /\ NoDup (Collections.dict_keys K groups)
    /\ Permutation (concat (map snd groups)) iterable.
Proof.
  intros T K K_eq_dec iterable key_func groups.
  assert (Hk : Collections.dict_keys K groups
               = Spec.first_occurrences K_eq_dec (map key_func iterable)).
  { unfold groups, Collections.group_by. rewrite group_by_fold_keys. simpl.
    apply (filter_fresh_nil K K_eq_dec). }
  split; [exact Hk|]. split.
  - rewrite Hk. apply first_occurrences_NoDup.
  - unfold groups, Collections.group_by.
    apply (group_by_fold_concat T K K_eq_dec key_func iterable []).
Qed.

(** ** unique with a key function *)

Section UniqueByKey.
Variable T : Type.
Variable eq_dec : forall x y : T, {x = y} + {x <> y}.
Variable key_func : T -> T.

Lemma filter_filter_and :
  forall (p q : T -> bool) (l : list T),
    filter p (filter q l) = filter (fun y => p y && q y) l.
Proof.
  intros p q l; induction l as [|y l IH]; simpl; [reflexivity|].
  destruct (q y); simpl; rewrite ?IH, ?andb_true_r, ?andb_false_r; [|reflexivity].
  destruct (p y); reflexivity.
Qed.

Lemma unique_loop_by_key :
  forall (iterable : list T) (seen : set T) (result : list T),
    Collections.unique_loop T eq_dec (Some key_func) iterable seen result
    = result ++ filter (fun y => Spec.fresh eq_dec seen (key_func y))
                       (Spec.first_by_key eq_dec key_func iterable).
Proof.
  induction iterable as [|x rest IH]; intros seen result; simpl.
  - now rewrite app_nil_r.
  - destruct (set_mem eq_dec (key_func x) seen) eqn:E; simpl.
    + apply set_mem_correct1 in E. rewrite IH.
      rewrite (proj2 (fresh_false T eq_dec seen (key_func x)) E).
      f_equal. rewrite filter_filter_and. apply filter_ext. intros y.
      destruct (eq_dec (key_func x) (key_func y)) as [Ek|Ek];
        [|now rewrite andb_true_r].
      rewrite <- Ek, (proj2 (fresh_false T eq_dec seen (key_func x)) E). reflexivity.
    + apply set_mem_complete1 in E. rewrite IH.
      rewrite (proj2 (fresh_true T eq_dec seen (key_func x)) E).
      rewrite <- app_assoc. simpl. f_equal. f_equal.
      rewrite filter_filter_and. apply filter_ext. intros y.
      destruct (eq_dec (key_func x) (key_func y)) as [Ek|Ek].
      * rewrite andb_false_r. apply fresh_false. apply set_add_iff. now left.
      * rewrite andb_true_r.
        destruct (Spec.fresh eq_dec seen (key_func y)) eqn:Ef.
        -- apply fresh_true. rewrite set_add_iff. apply fresh_true in Ef.
           intros [H|H]; [congruence | contradiction].
        -- apply fresh_false. apply set_add_iff. right. now apply fresh_false in Ef.
Qed.

Lemma map_filter_remove :
  forall (k : T) (l : list T),
    map key_func (filter (fun y => if eq_dec k (key_func y) then false else true) l)
    = remove eq_dec k (map key_func l).
Proof.
  intros k l; induction l as [|y l IH]; simpl; [reflexivity|].
  destruct (eq_dec k (key_func y)); simpl; now rewrite IH.
Qed.

Lemma first_by_key_keys :
  forall l : list T,
    map key_func (Spec.first_by_key eq_dec key_func l)
    = Spec.first_occurrences eq_dec (map key_func l).
Proof.
  induction l as [|x l IH]; simpl; [reflexivity|].
  now rewrite map_filter_remove, IH.
Qed.

Lemma first_by_key_incl :
  forall (l : list T) (x : T), In x (Spec.first_by_key eq_dec key_func l) -> In x l.
Proof.
  induction l as [|y l IH]; intros x; simpl; [tauto|].
  intros [H|H]; [now left|]. right. apply filter_In in H as [H _]. now apply IH.
Qed.

End UniqueByKey.

(** [unique] with a key function keeps, for every key, the first item
    that has it and drops the later ones: the keys of the result are
    the keys of the input, each once and in the order of their first
    occurrence, and every item of the result is an item of the input. *)
Theorem unique_by_key :
  forall (T : Type) (eq_dec : forall x y : T, {x = y} + {x <> y})
         (iterable : list T) (key_func : T -> T),
    let result := Collections.unique T eq_dec iterable (Some key_func) in
    result = Spec.first_by_key eq_dec key_func iterable
    /\ map key_func result = Spec.first_occurrences eq_dec (map key_func iterable)
    /\ NoDup (map key_func result)
    /\ (forall x, In x iterable -> In (key_func x) (map key_func result))
    /\ (forall y, In y result -> In y iterable).
Proof.
  intros T eq_dec iterable key_func result.
  assert (Hr : result = Spec.first_by_key eq_dec key_func iterable).
  { unfold result, Collections.unique. rewrite unique_loop_by_key. simpl.
    rewrite <- (filter_ext (fun _ => true)); [|reflexivity].
    clear. induction (Spec.first_by_key eq_dec key_func iterable) as [|y l IH];
      simpl; congruence. }
  assert (Hk : map key_func result
               = Spec.first_occurrences eq_dec (map key_func iterable))
    by (rewrite Hr; apply first_by_key_keys).
  split; [exact Hr|]. split; [exact Hk|]. split; [|split].
  - rewrite Hk. apply first_occurrences_NoDup.
  - intros x Hx. rewrite Hk. apply first_occurrences_In. now apply in_map.
  - intros y Hy. rewrite Hr in Hy. eapply first_by_key_incl; eassumption.
Qed.

(** ** OrderedSet *)

Section OrderedSetProofs.
Variable T : Type.
Variable eq_dec : forall x y : T, {x = y} + {x <> y}.

Lemma dict_setitem_present :
  forall (d : Collections.dict T unit) (x : T),
    Collections.dict_contains T eq_dec d x = true ->
    Collections.dict_setitem T eq_dec d x tt = d.
Proof.
  induction d as [|[k []] d IH]; intros x H; simpl in *; [discriminate|].
  destruct (eq_dec k x); [reflexivity|]. now rewrite IH.
Qed.

Lemma dict_pop_absent :
  forall (d : Collections.dict T unit) (x : T),
    Collections.dict_contains T eq_dec d x = false ->
    Collections.dict_pop T eq_dec d x = d.
Proof.
  induction d as [|[k w] d IH]; intros x H; simpl in *; [reflexivity|].
  destruct (eq_dec k x); [discriminate|]. now rewrite IH.
Qed.

Lemma dict_pop_keys :
  forall (d : Collections.dict T unit) (x : T),
    NoDup (Collections.dict_keys T d) ->
    Collections.dict_keys T (Collections.dict_pop T eq_dec d x)
    = remove eq_dec x (Collections.dict_keys T d).
Proof.
  induction d as [|[k w] d IH]; intros x Hnd; simpl in *; [reflexivity|].
  inversion Hnd as [|? ? Hk Hrest]; subst.
  destruct (eq_dec k x) as [E|E]; destruct (eq_dec x k) as [E'|E']; try congruence.
  - subst. symmetry. apply notin_remove. exact Hk.
  - simpl. f_equal. now apply IH.
Qed.

Lemma dict_pop_length :
  forall (d : Collections.dict T unit) (x : T),
    Collections.dict_contains T eq_dec d x = true ->
    len (Collections.dict_pop T eq_dec d x) = len d - 1.
Proof.
  unfold len. induction d as [|[k w] d IH]; intros x H;
    cbn [Collections.dict_contains Collections.dict_pop] in *; [discriminate|].
  destruct (eq_dec k x); cbn [List.length]; [lia|]. specialize (IH x H). lia.
Qed.

End OrderedSetProofs.

(** OrderedSet keeps its elements distinct: [add] and [discard]
    preserve that no element is listed twice, [add] answers membership
    for the added element and changes no other answer, and [discard]
    removes the element for good and changes no other answer. *)
Theorem OrderedSet_membership :
  forall (T : Type) (eq_dec : forall x y : T, {x = y} + {x <> y})
         (s : Collections.OrderedSet T) (x y : T),
    NoDup (Collections.OrderedSet_list T s) ->
    NoDup (Collections.OrderedSet_list T (Collections.add T eq_dec s x))
    /\ NoDup (Collections.OrderedSet_list T (Collections.discard T eq_dec s x))
    /\ (Collections.contains T eq_dec (Collections.add T eq_dec s x) y = true
        <-> x = y \/ Collections.contains T eq_dec s y = true)
    /\ (Collections.contains T eq_dec (Collections.discard T eq_dec s x) y = true
        <-> x <> y /\ Collections.contains T eq_dec s y = true).
Proof.
  intros T eq_dec [d] x y Hnd.
  unfold Collections.OrderedSet_list, Collections.add, Collections.discard,
    Collections.contains in *. cbn [Collections.items] in *.
  rewrite !dict_contains_keys, dict_keys_setitem_any, dict_pop_keys by assumption.
  split; [|split; [|split]].
  - destruct (in_dec eq_dec x (Collections.dict_keys T d)) as [Hi|Hn]; [assumption|].
    apply NoDup_app; [assumption | constructor; [tauto | constructor] |].
    intros z Hz [Hz'|[]]. subst z. contradiction.
  - now apply NoDup_remove_elt.
  - destruct (in_dec eq_dec x (Collections.dict_keys T d)) as [Hi|Hn].
    + split; [tauto|]. intros [<-|H]; assumption.
    + rewrite in_app_iff. simpl. tauto.
  - split.
    + intros H. apply in_remove in H. split; [intros E; now symmetry in E|]; tauto.
    + intros [Hne H]. apply in_in_remove; [congruence | assumption].
Qed.

(** A set built from a list, then an element added and one removed. *)
Lemma OrderedSet_membership_witness :
  let s := Collections.OrderedSet_init Z Z.eq_dec [3; 1; 4; 1; 5] in
  Collections.OrderedSet_list Z (Collections.discard Z Z.eq_dec s 1) = [3; 4; 5]
  /\ (Collections.contains Z Z.eq_dec (Collections.discard Z Z.eq_dec s 1) 1 = true
      <-> 1 <> 1 /\ Collections.contains Z Z.eq_dec s 1 = true).
Proof.
  intros s. split; [reflexivity|].
  apply (OrderedSet_membership Z Z.eq_dec s 1 1).
  vm_compute. repeat constructor; intros H; simpl in H;
    repeat (destruct H as [H|H]; [discriminate|]); exact H.
Defined.

(** The order of an OrderedSet: adding a member changes nothing,
    adding a new element puts it last, discarding an element that is
    not a member changes nothing, and discarding a member removes it
    and leaves the others in their order. *)
Theorem OrderedSet_order :
  forall (T : Type) (eq_dec : forall x y : T, {x = y} + {x <> y})
         (s : Collections.OrderedSet T) (x : T),
    (Collections.contains T eq_dec s x = true ->
     Collections.add T eq_dec s x = s)
    /\ (Collections.contains T eq_dec s x = false ->
        Collections.OrderedSet_list T (Collections.add T eq_dec s x)
        = Collections.OrderedSet_list T s ++ [x]
        /\ Collections.OrderedSet_len T (Collections.add T eq_dec s x)
           = Collections.OrderedSet_len T s + 1)
    /\ (Collections.contains T eq_dec s x = false ->
        Collections.discard T eq_dec s x = s)
    /\ (Collections.contains T eq_dec s x = true ->
        NoDup (Collections.OrderedSet_list T s) ->
        Collections.OrderedSet_list T (Collections.discard T eq_dec s x)
        = remove eq_dec x (Collections.OrderedSet_list T s)
        /\ Collections.OrderedSet_len T (Collections.discard T eq_dec s x)
           = Collections.OrderedSet_len T s - 1).
Proof.
  intros T eq_dec [d] x.
  unfold Collections.OrderedSet_list, Collections.OrderedSet_len, Collections.add,
    Collections.discard, Collections.contains. cbn [Collections.items].
  split; [|split; [|split]].
  - intros H. now rewrite dict_setitem_present.
  - intros H.
    assert (Hk : Collections.dict_keys T (Collections.dict_setitem T eq_dec d x tt)
                 = Collections.dict_keys T d ++ [x]).
    { rewrite dict_keys_setitem_any.
      destruct (in_dec eq_dec x (Collections.dict_keys T d)) as [Hi|Hn]; [|reflexivity].
      apply (proj2 (dict_contains_keys T unit eq_dec d x)) in Hi. congruence. }
    split; [exact Hk|].
    apply (f_equal (@List.length T)) in Hk.
    unfold Collections.dict_keys in Hk.
    rewrite length_app, !length_map in Hk.
    unfold len. cbn [List.length] in Hk. lia.
  - intros H. now rewrite dict_pop_absent.
  - intros H Hnd. split; [now apply dict_pop_keys | now apply dict_pop_length].
Qed.

(** Adding a member, adding a new element, discarding a stranger and
    discarding a member of [OrderedSet([3, 1, 4])]. *)
Lemma OrderedSet_order_witness :
  let s := Collections.OrderedSet_init Z Z.eq_dec [3; 1; 4] in
  Collections.add Z Z.eq_dec s 1 = s
  /\ Collections.OrderedSet_list Z (Collections.add Z Z.eq_dec s 0) = [3; 1; 4; 0]
  /\ Collections.discard Z Z.eq_dec s 7 = s
  /\ Collections.OrderedSet_list Z (Collections.discard Z Z.eq_dec s 3) = [1; 4].
Proof.
  intros s.
  destruct (OrderedSet_order Z Z.eq_dec s 1) as [H1 _].
  destruct (OrderedSet_order Z Z.eq_dec s 0) as [_ [H2 _]].
  destruct (OrderedSet_order Z Z.eq_dec s 7) as [_ [_ [H3 _]]].
  destruct (OrderedSet_order Z Z.eq_dec s 3) as [_ [_ [_ H4]]].
  split; [apply H1; reflexivity|].
  split; [apply H2; reflexivity|].
  split; [apply H3; reflexivity|].
  destruct H4 as [H4 _]; [reflexivity | | exact H4].
  vm_compute. repeat constructor; intros H; simpl in H;
    repeat (destruct H as [H|H]; [discriminate|]); exact H.
Defined.

Lemma list_eqb_true :
  forall (T : Type) (eq_dec : forall x y : T, {x = y} + {x <> y}) (l1 l2 : list T),
    Collections.list_eqb T eq_dec l1 l2 = true <-> l1 = l2.
Proof.
  intros T eq_dec l1 l2. unfold Collections.list_eqb.
  destruct (list_eq_dec eq_dec l1 l2); split; intros H; try assumption;
    try reflexivity; [discriminate | contradiction].
Qed.

Lemma set_eqb_true :
  forall (T : Type) (eq_dec : forall x y : T, {x = y} + {x <> y})
         (elements : list T) (other : set T),
    Collections.set_eqb T eq_dec elements other = true
    <-> forall x, In x elements <-> In x other.
Proof.
  intros T eq_dec elements other. unfold Collections.set_eqb.
  rewrite andb_true_iff, !forallb_forall. split.
  - intros [H1 H2] x. split; intros H.
    + apply (set_mem_correct1 eq_dec). now apply H1.
    + apply (set_mem_correct1 eq_dec). now apply H2.
  - intros H. split; intros x Hx; apply set_mem_correct2; now apply H.
Qed.

(** Equality of an OrderedSet: with another OrderedSet it holds exactly
    when both list the same elements in the same order; with a plain
    set exactly when both have the same elements, whatever the order;
    with any other object never.  So two OrderedSets equal to one plain
    set list the same elements, possibly in different orders. *)
Theorem OrderedSet_equality :
  forall (T : Type) (eq_dec : forall x y : T, {x = y} + {x <> y})
         (s t : Collections.OrderedSet T) (u : set T),
    (Collections.OrderedSet_eq T eq_dec s (Collections.AnOrderedSet t) = true
     <-> Collections.OrderedSet_list T s = Collections.OrderedSet_list T t)
    /\ (Collections.OrderedSet_eq T eq_dec s (Collections.APlainSet u) = true
        <-> forall x, In x (Collections.OrderedSet_list T s) <-> In x u)
    /\ Collections.OrderedSet_eq T eq_dec s Collections.AnotherObject = false
    /\ (Collections.OrderedSet_eq T eq_dec s (Collections.APlainSet u) = true ->
        Collections.OrderedSet_eq T eq_dec t (Collections.APlainSet u) = true ->
        NoDup (Collections.OrderedSet_list T s) ->
        NoDup (Collections.OrderedSet_list T t) ->
        Permutation (Collections.OrderedSet_list T s) (Collections.OrderedSet_list T t)).
Proof.
  intros T eq_dec s t u. cbn [Collections.OrderedSet_eq].
  split; [apply list_eqb_true|]. split; [apply set_eqb_true|].
  split; [reflexivity|].
  intros Hs Ht Hns Hnt.
  pose proof (proj1 (set_eqb_true T eq_dec _ _) Hs) as Hs'.
  pose proof (proj1 (set_eqb_true T eq_dec _ _) Ht) as Ht'.
  apply NoDup_Permutation; [assumption | assumption|].
  intros x. rewrite (Hs' x), (Ht' x). tauto.
Qed.

(** [OrderedSet([1, 2])] and [OrderedSet([2, 1])] are both equal to
    the set [{1, 2}] and not equal to each other. *)
Lemma OrderedSet_equality_witness :
  let s := Collections.OrderedSet_init Z Z.eq_dec [1; 2] in
  let t := Collections.OrderedSet_init Z Z.eq_dec [2; 1] in
  Collections.OrderedSet_eq Z Z.eq_dec s (Collections.APlainSet [1; 2]) = true
  /\ Collections.OrderedSet_eq Z Z.eq_dec t (Collections.APlainSet [1; 2]) = true
  /\ Collections.OrderedSet_eq Z Z.eq_dec s (Collections.AnOrderedSet t) = false
  /\ Permutation (Collections.OrderedSet_list Z s) (Collections.OrderedSet_list Z t).
Proof.
  intros s t. split; [reflexivity|]. split; [reflexivity|]. split; [reflexivity|].
  destruct (OrderedSet_equality Z Z.eq_dec s t [1; 2]) as [_ [_ [_ H]]].
  apply H; try reflexivity;
    vm_compute; repeat constructor; intros E; simpl in E;
      repeat (destruct E as [E|E]; [discriminate|]); exact E.
Defined.

(** ** The generator of chunk, once consumed *)

Lemma gen_advance_finished :
  forall (T : Type) (n : nat),
    Collections.gen_advance n (@Collections.Finished T) = Collections.Finished.
Proof. intros T n; induction n as [|n IH]; simpl; [reflexivity | exact IH]. Qed.

Lemma gen_advance_looping :
  forall (T : Type) (items : list T) (size : Z),
    1 <= size ->
    forall (n : nat) (i : Z),
      (Z.to_nat (len items - i) < n)%nat ->
      Collections.gen_advance n (Collections.Looping T items size i)
      = Collections.Finished.
Proof.
  intros T items size Hsize n; induction n as [|n IH]; intros i Hn; [lia|].
  cbn [Collections.gen_advance Collections.gen_next]. unfold Collections.chunk_loop.
  destruct (i <? len items) eqn:E; cbn [snd].
  - apply Z.ltb_lt in E. apply IH. lia.
  - apply gen_advance_finished.
Qed.

Lemma gen_advance_add :
  forall (T : Type) (n m : nat) (g : Collections.chunk_gen T),
    Collections.gen_advance (n + m) g
    = Collections.gen_advance m (Collections.gen_advance n g).
Proof.
  intros T n; induction n as [|n IH]; intros m g; simpl; [reflexivity | apply IH].
Qed.

(** The generator returned by [chunk] is single-pass: after more
    [next] calls than the input has elements it is finished, whatever
    the size, and from then on every [next] gives StopIteration; the
    groups are not produced a second time. *)
Theorem chunk_single_pass :
  forall (T : Type) (items : list T) (size : Z) (n : nat),
    (List.length items < n)%nat ->
    Collections.gen_advance n (Collections.chunk items size) = Collections.Finished
    /\ forall m,
        Collections.gen_next (Collections.gen_advance (n + m)
                                                      (Collections.chunk items size))
        = (Collections.StopIteration, Collections.Finished).
Proof.
  intros T items size n Hn.
  assert (H : Collections.gen_advance n (Collections.chunk items size)
              = Collections.Finished).
  { destruct n as [|n]; [lia|].
    cbn [Collections.gen_advance Collections.chunk Collections.gen_next].
    destruct (size <? 1) eqn:Es; cbn [snd]; [apply gen_advance_finished|].
    apply Z.ltb_ge in Es. unfold Collections.chunk_loop.
    destruct (0 <? len items) eqn:E; cbn [snd]; [|apply gen_advance_finished].
    apply Z.ltb_lt in E. apply gen_advance_looping; [assumption|].
    unfold len in *. lia. }
  split; [exact H|]. intros m.
  now rewrite gen_advance_add, H, gen_advance_finished.
Qed.

(** Four calls of [next] on [chunk([1, 2, 3], 2)]. *)
Lemma chunk_single_pass_witness :
  Collections.gen_advance 4 (Collections.chunk [1; 2; 3] 2) = Collections.Finished.
Proof.
  apply (chunk_single_pass Z [1; 2; 3] 2 4). simpl. lia.
Defined.

(** ** flatten, level by level *)

Lemma flat_map_flat_map :
  forall (f g : value -> list value) (l : list value),
    flat_map f (flat_map g l) = flat_map (fun x => flat_map f (g x)) l.
Proof.
  intros f g l; induction l as [|x l IH]; simpl; [reflexivity|].
  now rewrite flat_map_app, IH.
Qed.

Lemma flat_map_pointwise :
  forall (f g : value -> list value) (l : list value),
    Forall (fun x => f x = g x) l -> flat_map f l = flat_map g l.
Proof.
  intros f g l H; induction H as [|x l Hx _ IH]; simpl; [reflexivity|].
  now rewrite Hx, IH.
Qed.

Lemma flatten_item_one_level :
  forall (depth : Z) (item : value),
    depth <> 0 ->
    Collections.flatten_item depth item
    = flat_map (Collections.flatten_item (if depth >? 0 then depth - 1 else -1))
               (Collections.flatten_item 1 item).
Proof.
  intros depth item Hd.
  assert (E : (depth =? 0) = false) by now apply Z.eqb_neq.
  destruct item; cbn [Collections.flatten_item flat_map]; try reflexivity.
  rewrite E. cbn [negb Z.eqb Z.gtb Z.compare Z.sub Z.add Z.opp Z.pos_sub].
  f_equal. symmetry. apply flat_map_singleton, Forall_forall.
  intros x _. apply flatten_item_depth0.
Qed.

(** [flatten] expands one level at a time: flattening to a positive
    depth [n + 1] is flattening one level and then to depth [n], and
    flattening without limit is flattening one level and then without
    limit. *)
Theorem flatten_level_by_level :
  forall (iterable : list value) (n : Z),
    (0 <= n ->
     Collections.flatten iterable (n + 1)
     = Collections.flatten (Collections.flatten iterable 1) n)
    /\ Collections.flatten iterable (-1)
       = Collections.flatten (Collections.flatten iterable 1) (-1).
Proof.
  intros iterable n. unfold Collections.flatten. split.
  - intros Hn. rewrite flat_map_flat_map. apply flat_map_pointwise, Forall_forall.
    intros x _. rewrite (flatten_item_one_level (n + 1)) by lia.
    destruct (n + 1 >? 0) eqn:E; [|rewrite Z.gtb_ltb in E; apply Z.ltb_ge in E; lia].
    now replace (n + 1 - 1) with n by lia.
  - rewrite flat_map_flat_map. apply flat_map_pointwise, Forall_forall.
    intros x _. now rewrite (flatten_item_one_level (-1)) by lia.
Qed.

(** [flatten([[1, [2, [3]]], 4], depth=2)] in two steps. *)
Lemma flatten_level_by_level_witness :
  Collections.flatten
    [VList [VInt 1; VList [VInt 2; VList [VInt 3]]]; VInt 4] 2
  = Collections.flatten [VInt 1; VList [VInt 2; VList [VInt 3]]; VInt 4] 1.
Proof.
  destruct (flatten_level_by_level
              [VList [VInt 1; VList [VInt 2; VList [VInt 3]]]; VInt 4] 1) as [H _].
  exact (H ltac:(lia)).
Defined.

Lemma flatten_item_negative :
  forall (depth : Z) (item : value),
    depth < 0 ->
    Collections.flatten_item depth item = Collections.flatten_item (-1) item.
Proof.
  intros depth item Hd. destruct item; cbn [Collections.flatten_item]; try reflexivity.
  destruct (depth =? 0) eqn:E; [apply Z.eqb_eq in E; lia|].
  destruct (depth >? 0) eqn:E2; [apply Z.gtb_lt in E2; lia|]. reflexivity.
Qed.

Lemma flatten_item_deep_enough :
  forall (item : value) (k : nat),
    (Spec.nesting item <= k)%nat ->
    Collections.flatten_item (Z.of_nat k) item = Collections.flatten_item (-1) item.
Proof.
  induction item as [z|s|b|xs IHxs|dd IHdd] using Spec.value_nested_ind;
    intros k Hk; cbn [Collections.flatten_item]; try reflexivity.
  destruct k as [|k]; [cbn [Spec.nesting] in Hk; lia|].
  destruct (Z.of_nat (S k) =? 0) eqn:E; [apply Z.eqb_eq in E; lia|].
  destruct (Z.of_nat (S k) >? 0) eqn:E2;
    [|rewrite Z.gtb_ltb in E2; apply Z.ltb_ge in E2; lia].
  cbn [negb Z.eqb]. replace (Z.of_nat (S k) - 1) with (Z.of_nat k) by lia.
  cbn [Spec.nesting] in Hk. apply le_S_n in Hk.
  induction IHxs as [|x xs Hx _ IH]; [reflexivity|].
  cbn [flat_map]. rewrite Hx by lia. f_equal. apply IH. lia.
Qed.

(** The depth of [flatten]: every negative depth flattens without
    limit, and so does every depth that is at least the nesting of the
    items. *)
Theorem flatten_depth_limits :
  forall (iterable : list value) (depth : Z),
    (depth < 0 ->
     Collections.flatten iterable depth = Collections.flatten iterable (-1))
    /\ (Forall (fun item => Z.of_nat (Spec.nesting item) <= depth) iterable ->
        Collections.flatten iterable depth = Collections.flatten iterable (-1)).
Proof.
  intros iterable depth. unfold Collections.flatten. split.
  - intros Hd. apply flat_map_pointwise, Forall_forall.
    intros x _. now apply flatten_item_negative.
  - intros H. apply flat_map_pointwise.
    eapply Forall_impl; [|exact H]. intros x Hx. cbn beta in Hx.
    assert (Hd : 0 <= depth) by lia.
    rewrite <- (Z2Nat.id depth Hd). apply flatten_item_deep_enough. lia.
Qed.

(** Depth [-7] on a nested list, and depth 2 on a list nested twice. *)
Lemma flatten_depth_limits_witness :
  Collections.flatten [VList [VInt 1; VList [VInt 2]]] (-7) = [VInt 1; VInt 2]
  /\ Collections.flatten [VList [VInt 1; VList [VInt 2]]; VStr "ab"] 2
     = [VInt 1; VInt 2; VStr "ab"].
Proof.
  destruct (flatten_depth_limits [VList [VInt 1; VList [VInt 2]]] (-7)) as [H1 _].
  destruct (flatten_depth_limits [VList [VInt 1; VList [VInt 2]]; VStr "ab"] 2)
    as [_ H2].
  split.
  - rewrite H1 by lia. reflexivity.
  - rewrite H2; [reflexivity|]. repeat constructor; simpl; lia.
Defined.

(** ** EnumerableList *)

Lemma gen_list_step :
  forall (T : Type) (fuel : nat) (g : Collections.chunk_gen T),
    Collections.gen_list (S fuel) g
    = match Collections.gen_next g with
      | (Collections.Yield group, g') =>
          match Collections.gen_list fuel g' with
          | Some (Ok groups) => Some (Ok (group :: groups))
          | other => other
          end
      | (Collections.StopIteration, _) => Some (Ok [])
      | (Collections.Raised e, _) => Some (Raise e)
      end.
Proof. reflexivity. Qed.

Lemma chunk_slices_gen_list :
  forall (T : Type) (items : list T) (size : Z),
    1 <= size ->
    forall (fuel : nat) (i : Z),
      (Z.to_nat (len items - i) <= fuel)%nat ->
      Collections.gen_list (S fuel) (Collections.Looping T items size i)
      = Some (Ok (EnumerableList.chunk_slices fuel items size i)).
Proof.
  intros T items size Hsize fuel; induction fuel as [|fuel IH]; intros i Hi;
    rewrite gen_list_step; cbn [Collections.gen_next EnumerableList.chunk_slices];
    unfold Collections.chunk_loop.
  - destruct (i <? len items) eqn:E; [apply Z.ltb_lt in E; lia | reflexivity].
  - destruct (i <? len items) eqn:E; [|reflexivity].
    apply Z.ltb_lt in E. rewrite (IH (i + size)) by lia. reflexivity.
Qed.

(** [EnumerableList.chunk] and [collections.chunk] cut a list into the
    same groups for every size of 1 or more; for a size of 0 or less
    the method fails with ValueError at the call itself. *)
Theorem EnumerableList_chunk_agrees :
  forall (T : Type) (items : list T) (size : Z),
    (size <= 0 ->
     EnumerableList.chunk (EnumerableList.mk items) size = Raise ValueError)
    /\ (1 <= size ->
        exists groups,
          EnumerableList.chunk (EnumerableList.mk items) size
          = Ok (EnumerableList.mk groups)
          /\ forall fuel, (List.length items < fuel)%nat ->
                          Collections.gen_list fuel (Collections.chunk items size)
                          = Some (Ok groups)).
Proof.
  intros T items size. unfold EnumerableList.chunk. cbn [EnumerableList._items]. split.
  - intros H. destruct (size <=? 0) eqn:E; [reflexivity | apply Z.leb_gt in E; lia].
  - intros H. destruct (size <=? 0) eqn:E; [apply Z.leb_le in E; lia|].
    eexists. split; [reflexivity|]. intros fuel Hfuel.
    apply (gen_list_more_fuel T (S (List.length items))); [|lia].
    destruct (size <? 1) eqn:E1; [apply Z.ltb_lt in E1; lia|].
    pose proof (chunk_slices_gen_list T items size H (List.length items) 0) as Hrun.
    rewrite gen_list_step in Hrun. rewrite gen_list_step.
    cbn [Collections.gen_next] in Hrun.
    cbn [Collections.chunk Collections.gen_next].
    rewrite E1. apply Hrun. unfold len. lia.
Qed.

(** [EnumerableList([1, 2, 3, 4, 5]).chunk(2)] and [.chunk(0)]. *)
Lemma EnumerableList_chunk_agrees_witness :
  EnumerableList.chunk (EnumerableList.mk [1; 2; 3; 4; 5]) 0 = Raise ValueError
  /\ exists groups,
      EnumerableList.chunk (EnumerableList.mk [1; 2; 3; 4; 5]) 2
      = Ok (EnumerableList.mk groups)
      /\ Collections.gen_list 6 (Collections.chunk [1; 2; 3; 4; 5] 2)
         = Some (Ok groups).
Proof.
  destruct (EnumerableList_chunk_agrees Z [1; 2; 3; 4; 5] 0) as [H0 _].
  destruct (EnumerableList_chunk_agrees Z [1; 2; 3; 4; 5] 2) as [_ H2].
  split; [apply H0; lia|].
  destruct H2 as [groups [Hc Hg]]; [lia|].
  exists groups. split; [exact Hc|]. apply Hg. simpl. lia.
Defined.

Section DistinctProofs.
Variable T : Type.
Variable py_eq : T -> T -> bool.
Variable hash : T -> option Z.
Variable frozenset_hash : T -> option Z.
Variable key_func : T -> T.

Lemma distinct_loop_result :
  forall (iterable seen_hashable seen_unhashable result : list T),
    EnumerableList.distinct_loop T py_eq hash frozenset_hash key_func iterable
                                 seen_hashable seen_unhashable result
    = result
        ++ EnumerableList.distinct_loop T py_eq hash frozenset_hash key_func iterable
                                        seen_hashable seen_unhashable [].
Proof.
  induction iterable as [|item rest IH]; intros sh su result;
    cbn [EnumerableList.distinct_loop]; [now rewrite app_nil_r|].
  destruct (hash (key_func item)) as [h|].
  - destruct (EnumerableList.set_lookup T py_eq hash sh (key_func item) h);
      [apply IH|].
    rewrite IH, (IH _ _ ([] ++ [item])). now rewrite <- app_assoc.
  - destruct (match frozenset_hash (key_func item) with
              | Some h => EnumerableList.set_lookup T py_eq hash sh (key_func item) h
              | None => false
              end); [apply IH|].
    destruct (existsb (fun seen => py_eq seen (key_func item)) su); [apply IH|].
    rewrite IH, (IH _ _ ([] ++ [item])). now rewrite <- app_assoc.
Qed.

(** The items whose marker can be hashed never meet [seen_unhashable]. *)
Lemma distinct_loop_hashable_part :
  forall (iterable seen_hashable seen_unhashable seen_unhashable' : list T),
    filter (fun item => match hash (key_func item) with
                        | Some _ => true
                        | None => false
                        end)
           (EnumerableList.distinct_loop T py_eq hash frozenset_hash key_func iterable
                                         seen_hashable seen_unhashable [])
    = EnumerableList.distinct_loop
        T py_eq hash frozenset_hash key_func
        (filter (fun item => match hash (key_func item) with
                             | Some _ => true
                             | None => false
                             end) iterable)
        seen_hashable seen_unhashable' [].
Proof.
  induction iterable as [|item rest IH]; intros sh su su'; [reflexivity|].
  cbn [EnumerableList.distinct_loop filter].
  destruct (hash (key_func item)) as [h|] eqn:Eh.
  - cbn [EnumerableList.distinct_loop]. rewrite Eh.
    destruct (EnumerableList.set_lookup T py_eq hash sh (key_func item) h);
      [apply IH|].
    rewrite distinct_loop_result,
      (distinct_loop_result _ _ _ ([] ++ [item])).
    cbn [app filter]. rewrite Eh. f_equal. apply IH.
  - destruct (match frozenset_hash (key_func item) with
              | Some h => EnumerableList.set_lookup T py_eq hash sh (key_func item) h
              | None => false
              end); [apply IH|].
    destruct (existsb (fun seen => py_eq seen (key_func item)) su); [apply IH|].
    rewrite distinct_loop_result. cbn [app filter]. rewrite Eh. apply IH.
Qed.

(** Without sets among the markers, the items whose marker cannot be
    hashed never meet [seen_hashable]. *)
Lemma distinct_loop_unhashable_part :
  forall (iterable seen_hashable seen_hashable' seen_unhashable : list T),
    (forall item, In item iterable ->
                  hash (key_func item) = None ->
                  frozenset_hash (key_func item) = None) ->
    filter (fun item => match hash (key_func item) with
                        | Some _ => false
                        | None => true
                        end)
           (EnumerableList.distinct_loop T py_eq hash frozenset_hash key_func iterable
                                         seen_hashable seen_unhashable [])
    = EnumerableList.distinct_loop
        T py_eq hash frozenset_hash key_func
        (filter (fun item => match hash (key_func item) with
                             | Some _ => false
                             | None => true
                             end) iterable)
        seen_hashable' seen_unhashable [].
Proof.
  induction iterable as [|item rest IH]; intros sh sh' su Hsets; [reflexivity|].
  assert (Hrest : forall x, In x rest -> hash (key_func x) = None ->
                            frozenset_hash (key_func x) = None)
    by (intros x Hx; apply Hsets; now right).
  cbn [EnumerableList.distinct_loop filter].
  destruct (hash (key_func item)) as [h|] eqn:Eh.
  - destruct (EnumerableList.set_lookup T py_eq hash sh (key_func item) h);
      [now apply IH|].
    rewrite distinct_loop_result. cbn [app filter]. rewrite Eh. now apply IH.
  - cbn [EnumerableList.distinct_loop]. rewrite Eh.
    rewrite (Hsets item (or_introl eq_refl) Eh).
    destruct (existsb (fun seen => py_eq seen (key_func item)) su); [now apply IH|].
    rewrite distinct_loop_result,
      (distinct_loop_result _ _ _ ([] ++ [item])).
    cbn [app filter]. rewrite Eh. f_equal. now apply IH.
Qed.

Variable eq_dec : forall x y : T, {x = y} + {x <> y}.
Hypothesis py_eq_spec : forall a b, py_eq a b = true <-> a = b.

Lemma set_lookup_set_mem :
  forall (seen_hashable : list T) (seen : set T) (marker : T) (h : Z),
    (forall m, In m seen <-> In m seen_hashable) ->
    hash marker = Some h ->
    EnumerableList.set_lookup T py_eq hash seen_hashable marker h
    = set_mem eq_dec marker seen.
Proof.
  intros sh seen marker h Hseen Hh.
  destruct (set_mem eq_dec marker seen) eqn:E.
  - apply set_mem_correct1, Hseen in E. apply existsb_exists.
    exists marker. split; [assumption|]. rewrite Hh, Z.eqb_refl.
    now apply py_eq_spec.
  - apply set_mem_complete1 in E.
    destruct (EnumerableList.set_lookup T py_eq hash sh marker h) eqn:Ex;
      [|reflexivity].
    apply existsb_exists in Ex as [x [Hx Ex]].
    destruct (hash x); [|discriminate].
    apply andb_prop in Ex as [_ Ex]. apply py_eq_spec in Ex. subst x.
    exfalso. now apply E, Hseen.
Qed.

Lemma distinct_loop_unique_loop :
  forall (iterable seen_hashable seen_unhashable : list T) (seen : set T)
         (result : list T),
    (forall m, In m seen <-> In m seen_hashable) ->
    (forall item, In item iterable -> hash (key_func item) <> None) ->
    EnumerableList.distinct_loop T py_eq hash frozenset_hash key_func iterable
                                 seen_hashable seen_unhashable result
    = Collections.unique_loop T eq_dec (Some key_func) iterable seen result.
Proof.
  induction iterable as [|item rest IH];
    intros sh su seen result Hseen Hhash; [reflexivity|].
  cbn [EnumerableList.distinct_loop Collections.unique_loop].
  destruct (hash (key_func item)) as [h|] eqn:Eh;
    [|exfalso; now apply (Hhash item (or_introl eq_refl))].
  rewrite (set_lookup_set_mem sh seen (key_func item) h Hseen Eh).
  destruct (set_mem eq_dec (key_func item) seen); cbn [negb].
  - apply IH; [assumption|]. intros x Hx. apply Hhash. now right.
  - apply IH.
    + intros m. rewrite set_add_iff, in_app_iff, Hseen. simpl.
      split; [intros [->|H]|intros [H|[->|[]]]]; tauto.
    + intros x Hx. apply Hhash. now right.
Qed.

Lemma unique_loop_identity_key :
  forall (iterable : list T) (seen : set T) (result : list T),
    Collections.unique_loop T eq_dec None iterable seen result
    = Collections.unique_loop T eq_dec (Some (fun item => item)) iterable seen result.
Proof.
  induction iterable as [|x rest IH]; intros seen result; [reflexivity|].
  cbn [Collections.unique_loop]. now rewrite !IH.
Qed.

End DistinctProofs.



Lemma sum_of_ones :
  forall (A : Type) (l : list A), sum (map (fun _ => 1) l) = len l.
Proof.
  intros A l. unfold sum. rewrite fold_left_add_total.
  unfold len. induction l as [|x l IH]; [reflexivity|].
  cbn [map List.length]. rewrite total_cons. lia.
Qed.

Lemma filter_length_le :
  forall (A : Type) (p : A -> bool) (l : list A),
    (List.length (List.filter p l) <= List.length l)%nat.
Proof.
  intros A p l; induction l as [|x l IH]; simpl; [lia|].
  destruct (p x); simpl; lia.
Qed.

Lemma existsb_filter_length :
  forall (A : Type) (p : A -> bool) (l : list A),
    existsb p l = (0 <? len (List.filter p l)).
Proof.
  intros A p l. unfold len. induction l as [|x l IH]; [reflexivity|].
  cbn [existsb List.filter]. destruct (p x); cbn [orb List.length].
  - symmetry. apply Z.ltb_lt. lia.
  - exact IH.
Qed.

Lemma forallb_filter_length :
  forall (A : Type) (p : A -> bool) (l : list A),
    forallb p l = (len (List.filter p l) =? len l).
Proof.
  intros A p l. unfold len. induction l as [|x l IH]; [reflexivity|].
  cbn [forallb List.filter]. destruct (p x); cbn [andb List.length].
  - rewrite IH. destruct (Z.eqb_spec (Z.of_nat (List.length (List.filter p l)))
                                     (Z.of_nat (List.length l))) as [E|E];
      symmetry; [apply Z.eqb_eq | apply Z.eqb_neq]; lia.
  - symmetry. apply Z.eqb_neq. pose proof (filter_length_le A p l). lia.
Qed.

(** [count], [any] and [all] of an EnumerableList agree with [filter]:
    [count(p)] is the length of [filter(p)]; [any(p)] holds exactly
    when [count(p)] is positive and [all(p)] exactly when [count(p)] is
    the length of the list; [any(p)] is the negation of [all(not p)];
    without a predicate, [any] says whether the list has an item and
    [count] is its length. *)
Theorem count_any_all :
  forall (T : Type) (truthy : T -> bool) (items : list T) (p : T -> bool),
    let self := EnumerableList.mk items in
    EnumerableList.count self (Some p)
    = EnumerableList.length (EnumerableList.filter self p)
    /\ EnumerableList.any self (Some p) = (0 <? EnumerableList.count self (Some p))
    /\ EnumerableList.all truthy self (Some p)
       = (EnumerableList.count self (Some p) =? EnumerableList.length self)
    /\ EnumerableList.any self (Some p)
       = negb (EnumerableList.all truthy self (Some (fun x => negb (p x))))
    /\ EnumerableList.any self None = (0 <? EnumerableList.count self None)
    /\ 0 <= EnumerableList.count self (Some p) <= EnumerableList.length self.
Proof.
  intros T truthy items p self.
  unfold self, EnumerableList.count, EnumerableList.any, EnumerableList.all,
    EnumerableList.length, EnumerableList.filter. cbn [EnumerableList._items].
  rewrite sum_of_ones.
  split; [reflexivity|]. split; [apply existsb_filter_length|].
  split; [apply forallb_filter_length|]. split; [|split].
  - clear. induction items as [|x l IH]; [reflexivity|].
    cbn [existsb forallb]. rewrite IH. destruct (p x); reflexivity.
  - destruct items; reflexivity.
  - pose proof (filter_length_le T p items). unfold len. lia.
Qed.

Lemma last_cons :
  forall (A : Type) (rest : list A) (x y : A),
    List.last (y :: rest) x = List.last rest y.
Proof.
  intros A rest; induction rest as [|z rest IH]; intros x y; [reflexivity|].
  change (List.last (y :: z :: rest) x) with (List.last (z :: rest) x).
  rewrite IH. symmetry. apply IH.
Qed.

Lemma rev_starts_with_last :
  forall (A : Type) (rest : list A) (x : A),
    exists l, rev (x :: rest) = List.last rest x :: l.
Proof.
  intros A rest; induction rest as [|y rest IH]; intros x.
  - exists []. reflexivity.
  - destruct (IH y) as [l Hl]. exists (l ++ [x]).
    rewrite last_cons. change (rev (x :: y :: rest)) with (rev (y :: rest) ++ [x]).
    now rewrite Hl.
Qed.

(** [map] and [filter] of an EnumerableList compose as on lists
    ([select] and [where] are the same functions): two maps are the map
    of the composition, two filters the filter of the conjunction, a
    filter after a map is the map after the filter of the composed
    predicate, and [map] keeps the length; [last] is [first] of the
    reversed list, with or without a default. *)
Theorem EnumerableList_composition :
  forall (T : Type) (items : list T) (f g : T -> T) (p q : T -> bool)
         (default : option T),
    let self := EnumerableList.mk items in
    EnumerableList.map (EnumerableList.select self f) g
    = EnumerableList.map self (fun x => g (f x))
    /\ EnumerableList.filter (EnumerableList.where_ self p) q
       = EnumerableList.filter self (fun x => p x && q x)
    /\ EnumerableList.filter (EnumerableList.map self f) p
       = EnumerableList.map (EnumerableList.filter self (fun x => p (f x))) f
    /\ EnumerableList.length (EnumerableList.map self f) = EnumerableList.length self
    /\ EnumerableList.last self default
       = EnumerableList.first (EnumerableList.mk (rev items)) default.
Proof.
  intros T items f g p q default self.
  unfold self, EnumerableList.select, EnumerableList.where_, EnumerableList.length,
    EnumerableList.last, EnumerableList.first.
  unfold EnumerableList.map, EnumerableList.filter. cbn [EnumerableList._items].
  split; [now rewrite map_map|]. split; [|split; [|split]].
  - f_equal. induction items as [|x l IH]; [reflexivity|].
    cbn [List.filter]. destruct (p x); cbn [List.filter andb]; [|exact IH].
    destruct (q x); now rewrite IH.
  - f_equal. induction items as [|x l IH]; [reflexivity|].
    cbn [List.map List.filter]. destruct (p (f x)); cbn [List.map]; now rewrite IH.
  - unfold len. now rewrite length_map.
  - destruct items as [|x rest]; [reflexivity|].
    destruct (rev_starts_with_last T rest x) as [l Hl]. now rewrite Hl.
Qed.

(** ** strip_html *)

Lemma span_not_gt_app :
  forall s : str,
    s = fst (Strings.span_not_gt s) ++ snd (Strings.span_not_gt s).
Proof.
  induction s as [|c s IH]; [reflexivity|]. cbn [Strings.span_not_gt].
  destruct (Ascii.eqb c ">"); [reflexivity|].
  destruct (Strings.span_not_gt s) as [tag after]. cbn [fst snd] in *.
  now rewrite IH at 1.
Qed.

Lemma span_not_gt_length :
  forall (s tag after : str),
    Strings.span_not_gt s = (tag, after) ->
    (List.length after <= List.length s)%nat.
Proof.
  intros s tag after H. pose proof (span_not_gt_app s) as E.
  rewrite H in E. cbn [fst snd] in E. rewrite E, length_app. lia.
Qed.

Lemma span_not_gt_tag :
  forall (tag b : str),
    Forall (fun c => c <> ">"%char) tag ->
    Strings.span_not_gt (tag ++ ">"%char :: b) = (tag, ">"%char :: b).
Proof.
  intros tag b H; induction H as [|c tag Hc _ IH]; [reflexivity|].
  cbn [app Strings.span_not_gt]. apply Ascii.eqb_neq in Hc. rewrite Hc.
  now rewrite IH.
Qed.

Lemma sub_tags_length :
  forall (fuel : nat) (s : str),
    (List.length (Strings.sub_tags fuel s) <= List.length s)%nat.
Proof.
  induction fuel as [|fuel IH]; intros s; [simpl; lia|].
  destruct s as [|c rest]; [simpl; lia|]. cbn [Strings.sub_tags].
  assert (Hkeep : (List.length (c :: Strings.sub_tags fuel rest)
                   <= List.length (c :: rest))%nat)
    by (cbn [List.length]; specialize (IH rest); lia).
  destruct (Ascii.eqb c "<"); [|exact Hkeep].
  destruct (Strings.span_not_gt rest) as [[|t tag] [|g after]] eqn:E; try exact Hkeep.
  apply span_not_gt_length in E. cbn [List.length] in *.
  specialize (IH after). lia.
Qed.

Lemma sub_tags_fuel :
  forall (f1 f2 : nat) (s : str),
    (List.length s <= f1)%nat -> (List.length s <= f2)%nat ->
    Strings.sub_tags f1 s = Strings.sub_tags f2 s.
Proof.
  induction f1 as [|f1 IH]; intros f2 s H1 H2.
  - destruct s; [|simpl in H1; lia]. destruct f2; reflexivity.
  - destruct s as [|c rest]; [destruct f2; reflexivity|].
    destruct f2 as [|f2]; [simpl in H2; lia|].
    cbn [List.length] in H1, H2. cbn [Strings.sub_tags].
    assert (Hkeep : c :: Strings.sub_tags f1 rest = c :: Strings.sub_tags f2 rest)
      by (f_equal; apply IH; lia).
    destruct (Ascii.eqb c "<"); [|exact Hkeep].
    destruct (Strings.span_not_gt rest) as [[|t tag] [|g after]] eqn:E; try exact Hkeep.
    apply span_not_gt_length in E. cbn [List.length] in E. apply IH; lia.
Qed.

Lemma re_sub_tags_cons_other :
  forall (c : ascii) (s : str),
    c <> "<"%char ->
    Strings.re_sub_tags (c :: s) = c :: Strings.re_sub_tags s.
Proof.
  intros c s Hc. unfold Strings.re_sub_tags. cbn [List.length Strings.sub_tags].
  apply Ascii.eqb_neq in Hc. now rewrite Hc.
Qed.

Lemma re_sub_tags_plain_prefix :
  forall (a x : str),
    Forall (fun c => c <> "<"%char) a ->
    Strings.re_sub_tags (a ++ x) = a ++ Strings.re_sub_tags x.
Proof.
  intros a x H; induction H as [|c a Hc _ IH]; [reflexivity|].
  cbn [app]. rewrite re_sub_tags_cons_other by assumption. now rewrite IH.
Qed.

Lemma re_sub_tags_tag :
  forall (t : ascii) (tag b : str),
    Forall (fun c => c <> ">"%char) (t :: tag) ->
    Strings.re_sub_tags ("<"%char :: (t :: tag) ++ ">"%char :: b)
    = Strings.re_sub_tags b.
Proof.
  intros t tag b H. unfold Strings.re_sub_tags.
  cbn [List.length Strings.sub_tags Ascii.eqb Bool.eqb andb].
  rewrite (span_not_gt_tag (t :: tag) b H).
  apply sub_tags_fuel; [|lia]. rewrite length_app. cbn [List.length]. lia.
Qed.

Lemma starts_with_length :
  forall (prefix s : str),
    Strings.starts_with prefix s = true ->
    (List.length prefix <= List.length s)%nat.
Proof.
  induction prefix as [|p prefix IH]; intros s H; [simpl; lia|].
  destruct s as [|c s]; [discriminate|]. cbn [Strings.starts_with] in H.
  apply andb_true_iff in H as [_ H]. apply IH in H. cbn [List.length]. lia.
Qed.

Section ReplaceFacts.
Variable old new : str.
Variable first : ascii.
Variable old_tail : str.
Hypothesis old_shape : old = first :: old_tail.
Hypothesis new_shorter : (List.length new <= List.length old)%nat.

Lemma replace_loop_length :
  forall (fuel : nat) (s : str),
    (List.length (Strings.replace_loop fuel s old new) <= List.length s)%nat.
Proof.
  induction fuel as [|fuel IH]; intros s; [simpl; lia|].
  destruct s as [|c rest]; [simpl; lia|]. cbn [Strings.replace_loop].
  destruct (Strings.starts_with old (c :: rest)) eqn:E.
  - apply starts_with_length in E. rewrite length_app.
    specialize (IH (skipn (List.length old) (c :: rest))).
    rewrite length_skipn in IH. lia.
  - cbn [List.length]. specialize (IH rest). lia.
Qed.

Lemma replace_loop_fuel :
  forall (f1 f2 : nat) (s : str),
    (List.length s <= f1)%nat -> (List.length s <= f2)%nat ->
    Strings.replace_loop f1 s old new = Strings.replace_loop f2 s old new.
Proof.
  induction f1 as [|f1 IH]; intros f2 s H1 H2.
  - destruct s; [|simpl in H1; lia]. destruct f2; reflexivity.
  - destruct s as [|c rest]; [destruct f2; reflexivity|].
    destruct f2 as [|f2]; [simpl in H2; lia|].
    cbn [Strings.replace_loop].
    destruct (Strings.starts_with old (c :: rest)) eqn:E.
    + f_equal. apply IH; rewrite length_skipn, old_shape;
        cbn [List.length] in *; lia.
    + f_equal. apply IH; cbn [List.length] in *; lia.
Qed.

Lemma replace_cons_other :
  forall (c : ascii) (s : str),
    c <> first ->
    Strings.replace (c :: s) old new = c :: Strings.replace s old new.
Proof.
  intros c s Hc. unfold Strings.replace. cbn [List.length Strings.replace_loop].
  rewrite old_shape. cbn [Strings.starts_with].
  assert (E : Ascii.eqb first c = false) by (apply Ascii.eqb_neq; congruence).
  now rewrite E.
Qed.

Lemma replace_plain_prefix :
  forall (a x : str),
    Forall (fun c => c <> first) a ->
    Strings.replace (a ++ x) old new = a ++ Strings.replace x old new.
Proof.
  intros a x H; induction H as [|c a Hc _ IH]; [reflexivity|].
  cbn [app]. rewrite replace_cons_other by assumption. now rewrite IH.
Qed.

End ReplaceFacts.

(** Every entity of the table starts with [&] and is at least as long
    as the character that replaces it. *)
Lemma entities_shape :
  Forall (fun entity =>
            (exists old_tail, fst entity = "&"%char :: old_tail)
            /\ (List.length (snd entity) <= List.length (fst entity))%nat)
         Strings.entities.
Proof.
  unfold Strings.entities.
  repeat (constructor; [split; [eexists; reflexivity | simpl; lia]|]).
  constructor.
Qed.

Lemma decode_plain_prefix :
  forall (table : list (str * str)) (a x : str),
    Forall (fun entity =>
              (exists old_tail, fst entity = "&"%char :: old_tail)
              /\ (List.length (snd entity) <= List.length (fst entity))%nat) table ->
    Forall (fun c => c <> "&"%char) a ->
    fold_left (fun text entity => Strings.replace text (fst entity) (snd entity))
              table (a ++ x)
    = a ++ fold_left (fun text entity => Strings.replace text (fst entity) (snd entity))
                     table x.
Proof.
  intros table a x Ht Ha. revert x.
  induction Ht as [|entity table [[old_tail Ho] _] _ IH]; intros x; [reflexivity|].
  cbn [fold_left]. etransitivity; [|apply IH]. f_equal.
  eapply replace_plain_prefix; eassumption.
Qed.

Lemma decode_length :
  forall (table : list (str * str)) (x : str),
    Forall (fun entity =>
              (exists old_tail, fst entity = "&"%char :: old_tail)
              /\ (List.length (snd entity) <= List.length (fst entity))%nat) table ->
    (List.length
       (fold_left (fun text entity => Strings.replace text (fst entity) (snd entity))
                  table x)
     <= List.length x)%nat.
Proof.
  intros table x Ht. revert x.
  induction Ht as [|entity table [_ Hl] _ IH]; intros x; [simpl; lia|].
  cbn [fold_left]. eapply Nat.le_trans; [apply IH|].
  unfold Strings.replace. now apply replace_loop_length.
Qed.

Lemma strip_html_unfold :
  forall html : str,
    Strings.strip_html html
    = fold_left (fun text entity => Strings.replace text (fst entity) (snd entity))
                Strings.entities (Strings.re_sub_tags html).
Proof. intros [|c s]; reflexivity. Qed.

(** [strip_html] leaves plain text alone and never lengthens its
    input: a string with no [<] and no [&] comes back unchanged, and
    the result of any input is at most as long as the input. *)
Theorem strip_html_plain_and_shorter :
  forall html : str,
    (Forall (fun c => c <> "<"%char /\ c <> "&"%char) html ->
     Strings.strip_html html = html)
    /\ len (Strings.strip_html html) <= len html.
Proof.
  intros html. rewrite strip_html_unfold. split.
  - intros H.
    rewrite <- (app_nil_r html) at 1.
    rewrite re_sub_tags_plain_prefix
      by (eapply Forall_impl; [|exact H]; intros c [Hc _]; exact Hc).
    rewrite (decode_plain_prefix _ html _ entities_shape)
      by (eapply Forall_impl; [|exact H]; intros c [_ Hc]; exact Hc).
    cbn. apply app_nil_r.
  - unfold len. apply inj_le.
    eapply Nat.le_trans; [apply decode_length, entities_shape|].
    unfold Strings.re_sub_tags. apply sub_tags_length.
Qed.

(** A sentence without markup. *)
Lemma strip_html_plain_and_shorter_witness :
  Strings.strip_html (lit "Hello, World! 1 > 0") = lit "Hello, World! 1 > 0".
Proof.
  apply (strip_html_plain_and_shorter (lit "Hello, World! 1 > 0")).
  repeat constructor; discriminate.
Defined.

(** [strip_html] drops a tag and keeps the text before it: for a text
    [a] without [<] and [&] and a tag body of one or more characters
    other than [>], stripping [a <tag> b] gives [a] followed by the
    stripping of [b]. *)
Theorem strip_html_removes_tag :
  forall (a tag b : str),
    Forall (fun c => c <> "<"%char /\ c <> "&"%char) a ->
    tag <> [] ->
    Forall (fun c => c <> ">"%char) tag ->
    Strings.strip_html (a ++ "<"%char :: tag ++ ">"%char :: b)
    = a ++ Strings.strip_html b.
Proof.
  intros a tag b Ha Htag Hgt. rewrite !strip_html_unfold.
  rewrite re_sub_tags_plain_prefix
    by (eapply Forall_impl; [|exact Ha]; intros c [Hc _]; exact Hc).
  destruct tag as [|t tag]; [contradiction|].
  rewrite re_sub_tags_tag by assumption.
  apply (decode_plain_prefix _ a _ entities_shape).
  eapply Forall_impl; [|exact Ha]. intros c [_ Hc]. exact Hc.
Qed.

(** [strip_html("Hello <b>World</b>")] *)
Lemma strip_html_removes_tag_witness :
  Strings.strip_html (lit "Hello <b>World</b>") = lit "Hello World".
Proof.
  change (lit "Hello <b>World</b>")
    with (lit "Hello " ++ "<"%char :: lit "b" ++ ">"%char :: lit "World</b>").
  rewrite (strip_html_removes_tag (lit "Hello ") (lit "b") (lit "World</b>"));
    [reflexivity | repeat constructor; discriminate | discriminate
     | repeat constructor; discriminate].
Defined.

(** ** mask_sensitive and truncate, further *)

Lemma slice_suffix :
  forall (A : Type) (l : list A) (i : Z),
    0 <= i -> slice l (Some i) None = skipn (Z.to_nat i) l.
Proof.
  intros A l i Hi. unfold slice, norm_index.
  destruct (i <? 0) eqn:E; [apply Z.ltb_lt in E; lia|].
  pose proof (len_nonneg A l) as Hn. unfold len in *.
  destruct (Z.min_spec i (Z.of_nat (List.length l))) as [[H ->]|[H ->]].
  - apply firstn_all2. rewrite length_skipn. lia.
  - rewrite Nat2Z.id, skipn_all, Z.sub_diag.
    rewrite skipn_all2 by lia. reflexivity.
Qed.

Lemma slice_last :
  forall (A : Type) (l : list A) (v : Z),
    0 < v -> v <= len l ->
    slice l (Some (- v)) None = skipn (Z.to_nat (len l - v)) l.
Proof.
  intros A l v Hv Hl. unfold slice, norm_index.
  destruct (- v <? 0) eqn:E; [|apply Z.ltb_ge in E; lia].
  rewrite Z.max_l by lia. replace (- v + len l) with (len l - v) by lia.
  apply firstn_all2. rewrite length_skipn. unfold len in *. lia.
Qed.

(** [mask_sensitive] with a one-character mask: a text of 3 characters
    or fewer, or one with no more characters than [visible_chars],
    comes back unchanged; otherwise, for [0 < visible_chars], the
    result has the length of the text, its last [visible_chars]
    characters are those of the text, and every character before them
    is the mask. *)
Theorem mask_sensitive_keeps_length :
  forall (char : Type) (text : list char) (visible_chars : Z) (c : char),
    (len text <= 3 \/ len text <= visible_chars ->
     Strings.mask_sensitive text visible_chars [c] = text)
    /\ (3 < len text -> 0 < visible_chars < len text ->
        let r := Strings.mask_sensitive text visible_chars [c] in
        r = repeat c (Z.to_nat (len text - visible_chars))
              ++ skipn (Z.to_nat (len text - visible_chars)) text
        /\ len r = len text
        /\ skipn (Z.to_nat (len text - visible_chars)) r
           = skipn (Z.to_nat (len text - visible_chars)) text
        /\ len (skipn (Z.to_nat (len text - visible_chars)) text) = visible_chars).
Proof.
  intros char text v c. split.
  - intros H. unfold Strings.mask_sensitive.
    destruct text as [|x t]; [reflexivity|]. cbn [is_empty].
    destruct (len (x :: t) <=? 3) eqn:E1; [reflexivity|].
    destruct (v >=? len (x :: t)) eqn:E2; [reflexivity|].
    apply Z.leb_gt in E1. rewrite Z.geb_leb in E2. apply Z.leb_gt in E2. lia.
  - intros Hlen Hv r.
    assert (Hr : r = repeat c (Z.to_nat (len text - v))
                       ++ skipn (Z.to_nat (len text - v)) text).
    { unfold r, Strings.mask_sensitive.
      destruct text as [|x t]; [unfold len in Hlen; simpl in Hlen; lia|].
      cbn [is_empty].
      destruct (len (x :: t) <=? 3) eqn:E1; [apply Z.leb_le in E1; lia|].
      destruct (v >=? len (x :: t)) eqn:E2;
        [rewrite Z.geb_leb in E2; apply Z.leb_le in E2; lia|].
      cbn [orb]. rewrite slice_last by lia. now rewrite repeat_seq_singleton. }
    assert (Hs : len (skipn (Z.to_nat (len text - v)) text) = v)
      by (unfold len in *; rewrite length_skipn; lia).
    split; [exact Hr|]. split; [|split; [|exact Hs]].
    + rewrite Hr, len_app, Hs. unfold len. rewrite repeat_length. unfold len in *. lia.
    + rewrite Hr. rewrite skipn_app, repeat_length.
      rewrite skipn_all2 by (rewrite repeat_length; lia).
      now rewrite Nat.sub_diag.
Qed.

(** The documented examples of [mask_sensitive]. *)
Lemma mask_sensitive_keeps_length_witness :
  Strings.mask_sensitive (lit "abc") 4 (lit "*") = lit "abc"
  /\ Strings.mask_sensitive (lit "4532015112830366") 4 (lit "*")
     = lit "************0366".
Proof.
  destruct (mask_sensitive_keeps_length ascii (lit "abc") 4 "*"%char) as [H1 _].
  destruct (mask_sensitive_keeps_length ascii (lit "4532015112830366") 4 "*"%char)
    as [_ H2].
  split; [apply H1; left; vm_compute; discriminate|].
  destruct H2 as [H2 _]; [reflexivity | split; reflexivity|]. exact H2.
Defined.

(** [mask_sensitive] with a negative [visible_chars] on a text of more
    than 3 characters hides nothing it should and lengthens the
    output: the mask is repeated [len(text) - visible_chars] times,
    more than the text has characters, and is followed by the text
    without its first [-visible_chars] characters. *)
Theorem mask_sensitive_negative_visible :
  forall (char : Type) (text : list char) (visible_chars : Z) (c : char),
    3 < len text -> visible_chars < 0 ->
    let r := Strings.mask_sensitive text visible_chars [c] in
    r = repeat c (Z.to_nat (len text - visible_chars))
          ++ skipn (Z.to_nat (- visible_chars)) text
    /\ len text < len r.
Proof.
  intros char text v c Hlen Hv r.
  assert (Hr : r = repeat c (Z.to_nat (len text - v)) ++ skipn (Z.to_nat (- v)) text).
  { unfold r, Strings.mask_sensitive.
    destruct text as [|x t]; [unfold len in Hlen; simpl in Hlen; lia|].
    cbn [is_empty].
    destruct (len (x :: t) <=? 3) eqn:E1; [apply Z.leb_le in E1; lia|].
    destruct (v >=? len (x :: t)) eqn:E2;
      [rewrite Z.geb_leb in E2; apply Z.leb_le in E2; lia|].
    cbn [orb]. rewrite slice_suffix by lia. now rewrite repeat_seq_singleton. }
  split; [exact Hr|].
  rewrite Hr, len_app. unfold len. rewrite repeat_length.
  unfold len in *. lia.
Qed.

(** [mask_sensitive("password", visible_chars=-2)] *)
Lemma mask_sensitive_negative_visible_witness :
  Strings.mask_sensitive (lit "password") (-2) (lit "*") = lit "**********ssword".
Proof.
  destruct (mask_sensitive_negative_visible ascii (lit "password") (-2) "*"%char)
    as [H _]; [reflexivity | reflexivity|].
  exact H.
Defined.

(** [truncate] is idempotent and respects the budget: whatever it
    returns is returned unchanged when truncated again with the same
    arguments, and for a text that is not empty the result has at most
    [max_length] characters. *)
Theorem truncate_idempotent :
  forall (char : Type) (text : list char) (max_length : Z) (suffix r : list char),
    Strings.truncate text max_length suffix = Ok r ->
    Strings.truncate r max_length suffix = Ok r
    /\ (text <> [] -> len r <= max_length).
Proof.
  intros char text m suffix r H. unfold Strings.truncate in H.
  destruct text as [|x t].
  - injection H as <-. split; [reflexivity | congruence].
  - cbn [is_empty] in H.
    destruct (m <=? len suffix) eqn:E1; [discriminate|]. apply Z.leb_gt in E1.
    destruct (len (x :: t) <=? m) eqn:E2.
    + injection H as <-. apply Z.leb_le in E2. split; [|intros _; exact E2].
      unfold Strings.truncate. cbn [is_empty].
      destruct (m <=? len suffix) eqn:E3; [apply Z.leb_le in E3; lia|].
      destruct (len (x :: t) <=? m) eqn:E4; [reflexivity | apply Z.leb_gt in E4; lia].
    + apply Z.leb_gt in E2. injection H as <-.
      rewrite slice_prefix by (pose proof (len_nonneg char suffix); lia).
      set (r := firstn (Z.to_nat (m - len suffix)) (x :: t) ++ suffix).
      assert (Hr : len r = m).
      { unfold r. rewrite len_app. unfold len in *. rewrite length_firstn.
        pose proof (len_nonneg char suffix). unfold len in *. lia. }
      split; [|intros _; lia].
      unfold Strings.truncate.
      destruct r as [|y r'] eqn:Er.
      { unfold len in Hr. simpl in Hr. pose proof (len_nonneg char suffix). lia. }
      cbn [is_empty].
      destruct (m <=? len suffix) eqn:E3; [apply Z.leb_le in E3; lia|].
      destruct (len (y :: r') <=? m) eqn:E4; [reflexivity | apply Z.leb_gt in E4; lia].
Qed.

(** Truncating ["This is a long text"] to 10 characters, twice. *)
Lemma truncate_idempotent_witness :
  Strings.truncate (lit "This is...") 10 (lit "...") = Ok (lit "This is...").
Proof.
  apply (truncate_idempotent ascii (lit "This is a long text") 10 (lit "...")).
  reflexivity.
Defined.

(** ** is_in_range *)

(** [is_in_range] on numbers: with inclusive bounds the answer is true
    exactly when the value is not below the minimum and not above the
    maximum, with exclusive bounds exactly when it is strictly between
    them, an absent bound never excludes; so the exclusive check
    implies the inclusive one, and a minimum above the maximum accepts
    no value.  A value that is not a number is never in range. *)
Theorem is_in_range_bounds :
  forall (value : Z) (min_val max_val : option Z),
    (Validators.is_in_range (Validators.Number value) min_val max_val true = true
     <-> (forall m, min_val = Some m -> m <= value)
         /\ (forall m, max_val = Some m -> value <= m))
    /\ (Validators.is_in_range (Validators.Number value) min_val max_val false = true
        <-> (forall m, min_val = Some m -> m < value)
            /\ (forall m, max_val = Some m -> value < m))
    /\ (Validators.is_in_range (Validators.Number value) min_val max_val false = true ->
        Validators.is_in_range (Validators.Number value) min_val max_val true = true)
    /\ (forall lo hi inclusive,
           min_val = Some lo -> max_val = Some hi -> hi < lo ->
           Validators.is_in_range (Validators.Number value) min_val max_val inclusive
           = false)
    /\ (forall inclusive,
           Validators.is_in_range Validators.NotANumber min_val max_val inclusive
           = false).
Proof.
  intros value min_val max_val.
  assert (Hin : Validators.is_in_range (Validators.Number value) min_val max_val true
                = true
                <-> (forall m, min_val = Some m -> m <= value)
                    /\ (forall m, max_val = Some m -> value <= m)).
  { cbn [Validators.is_in_range].
    destruct min_val as [lo|], max_val as [hi|];
      try destruct (value <? lo) eqn:E1; try destruct (value >? hi) eqn:E2;
      try (apply Z.ltb_lt in E1); try (apply Z.ltb_ge in E1);
      try (apply Z.gtb_lt in E2);
      try (rewrite Z.gtb_ltb in E2; apply Z.ltb_ge in E2);
      split; try discriminate; try reflexivity;
      try (intros [H1 H2]; try specialize (H1 _ eq_refl);
           try specialize (H2 _ eq_refl); lia);
      intros _; split; intros m Hm; try discriminate; injection Hm as <-; lia. }
  assert (Hex : Validators.is_in_range (Validators.Number value) min_val max_val false
                = true
                <-> (forall m, min_val = Some m -> m < value)
                    /\ (forall m, max_val = Some m -> value < m)).
  { cbn [Validators.is_in_range].
    destruct min_val as [lo|], max_val as [hi|];
      try destruct (value <=? lo) eqn:E1; try destruct (value >=? hi) eqn:E2;
      try (apply Z.leb_le in E1); try (apply Z.leb_gt in E1);
      try (rewrite Z.geb_leb in E2; apply Z.leb_le in E2);
      try (rewrite Z.geb_leb in E2; apply Z.leb_gt in E2);
      split; try discriminate; try reflexivity;
      try (intros [H1 H2]; try specialize (H1 _ eq_refl);
           try specialize (H2 _ eq_refl); lia);
      intros _; split; intros m Hm; try discriminate; injection Hm as <-; lia. }
  split; [exact Hin|]. split; [exact Hex|]. split; [|split].
  - intros H. apply Hin. apply Hex in H as [H1 H2].
    split; intros m Hm; [specialize (H1 m Hm) | specialize (H2 m Hm)]; lia.
  - intros lo hi inclusive Hlo Hhi Hlt.
    destruct (Validators.is_in_range (Validators.Number value) min_val max_val inclusive)
      eqn:E; [|reflexivity].
    exfalso. destruct inclusive.
    + apply Hin in E as [H1 H2]. specialize (H1 lo Hlo). specialize (H2 hi Hhi). lia.
    + apply Hex in E as [H1 H2]. specialize (H1 lo Hlo). specialize (H2 hi Hhi). lia.
  - reflexivity.
Qed.

(** The documented examples: 10 in [0, 10] inclusive and exclusive. *)
Lemma is_in_range_bounds_witness :
  Validators.is_in_range (Validators.Number 10) (Some 0) (Some 10) true = true
  /\ Validators.is_in_range (Validators.Number 10) (Some 0) (Some 10) false = false
  /\ Validators.is_in_range (Validators.Number 5) (Some 7) (Some 3) true = false.
Proof.
  destruct (is_in_range_bounds 10 (Some 0) (Some 10)) as [H1 _].
  destruct (is_in_range_bounds 5 (Some 7) (Some 3)) as [_ [_ [_ [H4 _]]]].
  split; [|split; [reflexivity|]].
  - apply H1. split; intros m Hm; injection Hm as <-; lia.
  - apply (H4 7 3 true); [reflexivity | reflexivity | lia].
Defined.

(** ** is_valid_phone *)

Lemma lookup_pattern_supported :
  forall country_code : string,
    Validators.lookup_pattern Validators.patterns country_code = None
    <-> country_code <> "US"%string /\ country_code <> "UK"%string
        /\ country_code <> "DE"%string.
Proof.
  intros country_code. unfold Validators.patterns. cbn [Validators.lookup_pattern].
  destruct (String.eqb_spec "US" country_code) as [E1|E1];
    [split; [discriminate | intros [H _]; congruence]|].
  destruct (String.eqb_spec "UK" country_code) as [E2|E2];
    [split; [discriminate | intros [_ [H _]]; congruence]|].
  destruct (String.eqb_spec "DE" country_code) as [E3|E3];
    [split; [discriminate | intros [_ [_ H]]; congruence]|].
  split; [|reflexivity]. intros _. repeat split; congruence.
Qed.

(** [is_valid_phone] raises ValueError for a country code outside the
    table only when the phone is not empty: on the empty phone it
    returns false before it looks at the country code; for US, UK and
    DE it never raises. *)
Theorem is_valid_phone_country_codes :
  forall (phone : str) (country_code : string),
    (country_code <> "US"%string -> country_code <> "UK"%string ->
     country_code <> "DE"%string ->
     Validators.is_valid_phone phone country_code
     = if is_empty phone then Ok false else Raise ValueError)
    /\ (country_code = "US"%string \/ country_code = "UK"%string
        \/ country_code = "DE"%string ->
        exists answer, Validators.is_valid_phone phone country_code = Ok answer).
Proof.
  intros phone country_code. unfold Validators.is_valid_phone. split.
  - intros H1 H2 H3. destruct (is_empty phone); [reflexivity|].
    rewrite (proj2 (lookup_pattern_supported country_code)); [reflexivity | tauto].
  - intros H. destruct (is_empty phone); [eexists; reflexivity|].
    destruct H as [E|[E|E]]; subst country_code; eexists; reflexivity.
Qed.

(** An unsupported code with a number and with the empty string. *)
Lemma is_valid_phone_country_codes_witness :
  Validators.is_valid_phone (lit "0612345678") "FR" = Raise ValueError
  /\ Validators.is_valid_phone (lit "") "FR" = Ok false.
Proof.
  destruct (is_valid_phone_country_codes (lit "0612345678") "FR") as [H1 _].
  destruct (is_valid_phone_country_codes (lit "") "FR") as [H2 _].
  split; [apply H1 | apply H2]; discriminate.
Defined.

Lemma matches_times :
  forall (p : ascii -> bool) (n : nat) (s : str) (k : str -> bool),
    Validators.matches (Validators.times n (Validators.Cls p)) s k = true
    <-> exists ds rest,
        s = ds ++ rest /\ List.length ds = n /\ forallb p ds = true /\ k rest = true.
Proof.
  intros p n; induction n as [|n IH]; intros s k;
    cbn [Validators.times Validators.matches].
  - split.
    + intros H. exists [], s. repeat split; assumption.
    + intros [ds [rest [Hs [Hl [_ Hk]]]]]. destruct ds; [|discriminate]. now subst.
  - destruct s as [|x s'].
    + split; [discriminate|]. intros [ds [rest [Hs [Hl _]]]].
      destruct ds; discriminate.
    + rewrite andb_true_iff, IH. split.
      * intros [Hx [ds [rest [Hs [Hl [Hp Hk]]]]]]. exists (x :: ds), rest.
        subst s'. cbn [List.length forallb]. rewrite Hx, Hp, Hl. repeat split; auto.
      * intros [ds [rest [Hs [Hl [Hp Hk]]]]]. destruct ds as [|d ds]; [discriminate|].
        injection Hs as -> ->. cbn [forallb] in Hp. apply andb_true_iff in Hp as [Hd Hp].
        split; [assumption|]. exists ds, rest. cbn [List.length] in Hl.
        repeat split; auto.
Qed.

Lemma matches_at_most :
  forall (p : ascii -> bool) (n : nat) (s : str) (k : str -> bool),
    Validators.matches (Validators.at_most n (Validators.Cls p)) s k = true
    <-> exists ds rest,
        s = ds ++ rest /\ (List.length ds <= n)%nat /\ forallb p ds = true
        /\ k rest = true.
Proof.
  intros p n; induction n as [|n IH]; intros s k;
    cbn [Validators.at_most Validators.matches].
  - split.
    + intros H. exists [], s. repeat split; auto.
    + intros [ds [rest [Hs [Hl [_ Hk]]]]]. destruct ds; [|simpl in Hl; lia]. now subst.
  - rewrite orb_true_iff. split.
    + intros [H|H].
      * destruct s as [|x s']; [discriminate|].
        apply andb_true_iff in H as [Hx H]. apply IH in H as [ds [rest [Hs [Hl [Hp Hk]]]]].
        exists (x :: ds), rest. subst s'. cbn [List.length forallb]. rewrite Hx, Hp.
        repeat split; auto. lia.
      * exists [], s. repeat split; auto. simpl. lia.
    + intros [ds [rest [Hs [Hl [Hp Hk]]]]]. destruct ds as [|d ds].
      * right. now subst.
      * left. subst s. cbn [app]. cbn [forallb] in Hp.
        apply andb_true_iff in Hp as [Hd Hp]. rewrite Hd. cbn [andb].
        apply IH. exists ds, rest. cbn [List.length] in Hl. repeat split; auto. lia.
Qed.

Lemma matches_between :
  forall (p : ascii -> bool) (lo hi : nat) (s : str) (k : str -> bool),
    (lo <= hi)%nat ->
    Validators.matches (Validators.between lo hi (Validators.Cls p)) s k = true
    <-> exists ds rest,
        s = ds ++ rest /\ (lo <= List.length ds <= hi)%nat /\ forallb p ds = true
        /\ k rest = true.
Proof.
  intros p lo hi s k Hle. unfold Validators.between. cbn [Validators.matches].
  rewrite matches_times. split.
  - intros [ds [rest [Hs [Hl [Hp Hk]]]]].
    apply matches_at_most in Hk as [ds' [rest' [Hs' [Hl' [Hp' Hk']]]]].
    exists (ds ++ ds'), rest'. subst s rest. rewrite <- app_assoc, length_app, forallb_app.
    rewrite Hp, Hp'. repeat split; auto; lia.
  - intros [ds [rest [Hs [[Hl1 Hl2] [Hp Hk]]]]].
    exists (firstn lo ds), (skipn lo ds ++ rest). subst s.
    rewrite app_assoc, firstn_skipn. split; [reflexivity|].
    split; [rewrite length_firstn; lia|].
    rewrite <- (firstn_skipn lo ds), forallb_app in Hp.
    apply andb_true_iff in Hp as [Hp1 Hp2]. split; [assumption|].
    apply matches_at_most. exists (skipn lo ds), rest.
    rewrite length_skipn. repeat split; auto. lia.
Qed.

Lemma matches_literal :
  forall (l s : str) (k : str -> bool),
    Validators.matches (Validators.literal l) s k = true
    <-> exists rest, s = l ++ rest /\ k rest = true.
Proof.
  induction l as [|c l IH]; intros s k; cbn [Validators.literal Validators.matches].
  - split; [intros H; now exists s | intros [rest [-> H]]; exact H].
  - destruct s as [|x s'].
    + split; [discriminate | intros [rest [H _]]; discriminate].
    + rewrite andb_true_iff, IH. split.
      * intros [Hc [rest [-> Hk]]]. apply Ascii.eqb_eq in Hc. subst x. now exists rest.
      * intros [rest [Hs Hk]]. injection Hs as -> ->.
        split; [apply Ascii.eqb_refl | now exists rest].
Qed.

Lemma cleaned_has_no_formatting :
  forall phone : str,
    Forall (fun c => Validators.phone_formatting c = false)
           (filter (fun c => negb (Validators.phone_formatting c)) phone).
Proof.
  intros phone. apply Forall_forall. intros c Hc.
  apply filter_In in Hc as [_ Hc]. now apply negb_true_iff in Hc.
Qed.

Lemma at_end_of_cleaned :
  forall (ds rest : str),
    Forall (fun c => Validators.phone_formatting c = false) (ds ++ rest) ->
    Validators.at_end rest = true -> rest = [].
Proof.
  intros ds rest H Hend. destruct rest as [|c [|c' rest]]; [reflexivity| |discriminate].
  exfalso. cbn [Validators.at_end] in Hend. apply Z.eqb_eq in Hend.
  apply Forall_app in H as [_ H]. inversion H as [|? ? Hc _]; subst.
  unfold Validators.phone_formatting, Validators.re_space in Hc.
  rewrite Hend in Hc. discriminate.
Qed.

Section PhoneShape.
Variable prefix : str.
Variable first_ok : ascii -> bool.
Variable lo hi : nat.
Variable digits : Validators.regex.
Hypothesis digits_spec :
  forall (s : str) (k : str -> bool),
    Validators.matches digits s k = true
    <-> exists ds rest,
        s = ds ++ rest /\ (lo <= List.length ds <= hi)%nat
        /\ forallb Validators.is_decimal ds = true /\ k rest = true.

Lemma local_number_shape :
  forall s : str,
    Forall (fun c => Validators.phone_formatting c = false) s ->
    Validators.matches (Validators.Cat (Validators.Cls first_ok) digits) s
                       Validators.at_end = true
    <-> exists d ds,
        s = d :: ds /\ first_ok d = true /\ (lo <= List.length ds <= hi)%nat
        /\ forallb Validators.is_decimal ds = true.
Proof.
  intros s Hs. cbn [Validators.matches]. destruct s as [|d s'].
  - split; [discriminate | intros [d [ds [H _]]]; discriminate].
  - rewrite andb_true_iff, digits_spec. split.
    + intros [Hd [ds [rest [E [Hl [Hp Hend]]]]]]. subst s'.
      apply Forall_inv_tail in Hs.
      rewrite (at_end_of_cleaned ds rest Hs Hend), app_nil_r.
      exists d, ds. repeat split; auto; lia.
    + intros [d' [ds [E [Hd [Hl Hp]]]]]. injection E as -> ->.
      split; [assumption|]. exists ds, []. rewrite app_nil_r. repeat split; auto; lia.
Qed.

Lemma phone_pattern_shape :
  forall s : str,
    Forall (fun c => Validators.phone_formatting c = false) s ->
    Validators.re_match
      (Validators.Cat (Validators.Opt (Validators.literal prefix))
                      (Validators.Cat (Validators.Cls first_ok) digits)) s = true
    <-> Spec.phone_shape prefix first_ok lo hi s.
Proof.
  intros s Hs. unfold Validators.re_match, Spec.phone_shape.
  cbn [Validators.matches]. rewrite orb_true_iff, matches_literal.
  fold (Validators.matches (Validators.Cat (Validators.Cls first_ok) digits) s
                           Validators.at_end).
  rewrite (local_number_shape s Hs). split.
  - intros [[rest [E H]]|[d [ds [E H]]]].
    + fold (Validators.matches (Validators.Cat (Validators.Cls first_ok) digits) rest
                               Validators.at_end) in H.
      assert (Hrest : Forall (fun c => Validators.phone_formatting c = false) rest)
        by (subst s; now apply Forall_app in Hs).
      apply (local_number_shape rest Hrest) in H as [d [ds [E' H]]].
      exists d, ds. split; [right; now subst|exact H].
    + exists d, ds. split; [now left | exact H].
  - intros [d [ds [[E|E] H]]].
    + right. exists d, ds. split; assumption.
    + left. exists (d :: ds). split; [assumption|].
      fold (Validators.matches (Validators.Cat (Validators.Cls first_ok) digits)
                               (d :: ds) Validators.at_end).
      assert (Hrest : Forall (fun c => Validators.phone_formatting c = false) (d :: ds))
        by (subst s; now apply Forall_app in Hs).
      apply (local_number_shape (d :: ds) Hrest). exists d, ds. split; [reflexivity|exact H].
Qed.

End PhoneShape.

(** [is_valid_phone] looks only at what is left of the phone once
    whitespace, dashes, parentheses and dots are removed, and accepts
    it exactly in these shapes: for US an optional [+1], a digit 2-9
    and 9 more digits; for UK an optional [+44], a digit 1-9 and 9 or
    10 more digits; for DE an optional [+49], a digit 1-9 and 9 to 13
    more digits. *)
Theorem is_valid_phone_shapes :
  forall phone : str,
    phone <> [] ->
    let cleaned := filter (fun c => negb (Validators.phone_formatting c)) phone in
    (Validators.is_valid_phone phone "US" = Ok true
     <-> Spec.phone_shape (lit "+1") (Spec.digit_at_least 2) 9 9 cleaned)
    /\ (Validators.is_valid_phone phone "UK" = Ok true
        <-> Spec.phone_shape (lit "+44") (Spec.digit_at_least 1) 9 10 cleaned)
    /\ (Validators.is_valid_phone phone "DE" = Ok true
        <-> Spec.phone_shape (lit "+49") (Spec.digit_at_least 1) 9 13 cleaned).
Proof.
  intros phone Hne cleaned.
  pose proof (cleaned_has_no_formatting phone) as Hc. fold cleaned in Hc.
  unfold Validators.is_valid_phone. rewrite (is_empty_false _ phone Hne).
  fold cleaned. cbn [Validators.lookup_pattern Validators.patterns String.eqb
                     Ascii.eqb Bool.eqb].
  assert (Hok : forall b : bool, Ok b = Ok true <-> b = true)
    by (intros b; split; [intros H; now injection H | intros ->; reflexivity]).
  rewrite !Hok. split; [|split].
  - apply (phone_pattern_shape (lit "+1") (Spec.digit_at_least 2) 9 9); [|exact Hc].
    intros s k. unfold Validators.digit. rewrite matches_times. split.
    + intros [ds [rest [E [Hl H]]]]. exists ds, rest. split; [assumption|].
      split; [lia | exact H].
    + intros [ds [rest [E [Hl H]]]]. exists ds, rest. split; [assumption|].
      split; [lia | exact H].
  - apply (phone_pattern_shape (lit "+44") (Spec.digit_at_least 1) 9 10); [|exact Hc].
    intros s k. apply matches_between. lia.
  - apply (phone_pattern_shape (lit "+49") (Spec.digit_at_least 1) 9 13); [|exact Hc].
    intros s k. apply matches_between. lia.
Qed.

(** [is_valid_phone("(555) 234-5678")] *)
Lemma is_valid_phone_shapes_witness :
  Validators.is_valid_phone (lit "(555) 234-5678") "US" = Ok true.
Proof.
  destruct (is_valid_phone_shapes (lit "(555) 234-5678")) as [H _]; [discriminate|].
  apply H. exists "5"%char, (lit "552345678").
  split; [left; reflexivity|]. split; [reflexivity|]. split; [simpl; lia | reflexivity].
Defined.

(** ** The request that HttpClient sends *)

Lemma dict_get_absent :
  forall (V : Type) (d : list (string * V)) (key : string),
    ~ In key (map fst d) -> Collections.dict_get string string_dec d key = None.
Proof.
  induction d as [|[k w] d IH]; intros key H; simpl; [reflexivity|].
  simpl in H. destruct (string_dec k key); [tauto|]. apply IH. tauto.
Qed.

Lemma dict_union_get :
  forall (d2 d1 : HttpClient.header_dict) (key : string),
    NoDup (map fst d2) ->
    Collections.dict_get string string_dec (HttpClient.dict_union d1 d2) key
    = match Collections.dict_get string string_dec d2 key with
      | Some v => Some v
      | None => Collections.dict_get string string_dec d1 key
      end.
Proof.
  unfold HttpClient.dict_union.
  induction d2 as [|[k v] rest IH]; intros d1 key Hnd; [reflexivity|].
  inversion Hnd as [|? ? Hk Hrest]; subst.
  cbn [fold_left fst snd]. rewrite IH by assumption.
  cbn [Collections.dict_get]. destruct (string_dec k key) as [E|E].
  - subst k. rewrite (dict_get_absent _ rest key Hk).
    apply dict_get_setitem_same.
  - destruct (Collections.dict_get string string_dec rest key); [reflexivity|].
    now apply dict_get_setitem_other.
Qed.

Lemma setdefault_get :
  forall (d : HttpClient.header_dict) (name v key : string),
    Collections.dict_get string string_dec (HttpClient.setdefault d name v) key
    = match Collections.dict_get string string_dec d key with
      | Some w => Some w
      | None => if string_dec name key then Some v else None
      end.
Proof.
  intros d name v key. unfold HttpClient.setdefault.
  rewrite dict_contains_get.
  destruct (Collections.dict_get string string_dec d name) as [w|] eqn:En.
  - destruct (Collections.dict_get string string_dec d key) as [w'|] eqn:Ek;
      [reflexivity|].
    destruct (string_dec name key); [congruence | reflexivity].
  - destruct (string_dec name key) as [E|E].
    + subst key. rewrite En. apply dict_get_setitem_same.
    + rewrite dict_get_setitem_other by assumption.
      destruct (Collections.dict_get string string_dec d key); reflexivity.
Qed.

(** The headers and the body that [request] sends: a header given to
    the call wins over the client's default of the same name, a default
    is sent when the call gives none, and [Content-Type:
    application/json] is added only when there is a body and neither
    gave a header of exactly that name; the body is the JSON of [data]
    and absent when [data] is absent (as with [get] and [delete]). *)
Theorem request_headers_precedence :
  forall (seconds : Type) (urlencode : HttpClient.header_dict -> string)
         (json_dumps_utf8 : value -> HttpClient.bytes) (upper : string -> string)
         (self : HttpClient.HttpClient seconds) (method path : string)
         (data : option value) (headers params : option HttpClient.header_dict)
         (timeout_arg : option seconds) (key : string),
    NoDup (map fst (match headers with Some hs => hs | None => [] end)) ->
    let sent :=
      fst (HttpClient.prepare seconds urlencode json_dumps_utf8 upper
                              self method path data headers params timeout_arg) in
    Collections.dict_get string string_dec (HttpClient.req_headers sent) key
    = match Collections.dict_get string string_dec
                                 (match headers with Some hs => hs | None => [] end) key
      with
      | Some v => Some v
      | None =>
          match Collections.dict_get string string_dec
                                     (HttpClient.default_headers seconds self) key with
          | Some v => Some v
          | None =>
              match data with
              | Some _ =>
                  if string_dec "Content-Type" key
                  then Some "application/json"%string else None
              | None => None
              end
          end
      end
    /\ HttpClient.req_data sent = option_map json_dumps_utf8 data
    /\ HttpClient.req_method sent = upper method.
Proof.
  intros seconds urlencode json_dumps_utf8 upper self method path data headers params
         timeout_arg key Hnd sent.
  unfold sent, HttpClient.prepare.
  destruct headers as [hs|]; destruct data as [d|];
    cbn [fst HttpClient.req_headers HttpClient.req_data HttpClient.req_method
             option_map];
    (split; [|split; reflexivity]);
    rewrite ?setdefault_get, dict_union_get by assumption;
    cbn [Collections.dict_get];
    try (destruct (Collections.dict_get string string_dec hs key); [reflexivity|]);
    destruct (Collections.dict_get string string_dec
                (HttpClient.default_headers seconds self) key); reflexivity.
Qed.

(** A client with a default [Authorization] and [Accept], a call that
    overrides [Accept] and posts a body. *)
Lemma request_headers_precedence_witness :
  let client :=
    HttpClient.mkHttpClient unit "https://api.example.com"%string
      [("Authorization"%string, "Bearer t"%string); ("Accept"%string, "text/plain"%string)]
      tt in
  let sent :=
    fst (HttpClient.prepare unit (fun _ => ""%string) (fun _ => []) (fun m => m)
                            client "POST"%string "/users"%string (Some (VInt 1))
                            (Some [("Accept"%string, "application/json"%string)])
                            None None) in
  Collections.dict_get string string_dec (HttpClient.req_headers sent) "Accept"%string
  = Some "application/json"%string
  /\ Collections.dict_get string string_dec (HttpClient.req_headers sent)
                          "Authorization"%string
     = Some "Bearer t"%string
  /\ Collections.dict_get string string_dec (HttpClient.req_headers sent)
                          "Content-Type"%string
     = Some "application/json"%string.
Proof.
  intros client sent.
  assert (Hnd : NoDup (map fst [("Accept"%string, "application/json"%string)]))
    by (constructor; [intros [] | constructor]).
  pose proof (fun key =>
    proj1 (request_headers_precedence unit (fun _ => ""%string) (fun _ => [])
             (fun m => m) client "POST"%string "/users"%string (Some (VInt 1))
             (Some [("Accept"%string, "application/json"%string)]) None None key Hnd))
    as H.
  split; [exact (H "Accept"%string)|].
  split; [exact (H "Authorization"%string) | exact (H "Content-Type"%string)].
Defined.

Lemma drop_slashes_split :
  forall l : list ascii,
    exists n, l = repeat "/"%char n ++ HttpClient.drop_slashes l.
Proof.
  induction l as [|c l IH]; [exists O; reflexivity|].
  cbn [HttpClient.drop_slashes]. destruct (Ascii.eqb_spec c "/"%char) as [E|E].
  - destruct IH as [n Hn]. exists (S n). cbn [repeat app]. subst c. now rewrite <- Hn.
  - exists O. reflexivity.
Qed.

Lemma rev_repeat_same :
  forall (A : Type) (x : A) (n : nat), rev (repeat x n) = repeat x n.
Proof.
  intros A x n; induction n as [|n IH]; [reflexivity|].
  cbn [repeat rev]. rewrite IH. clear IH.
  induction n as [|n IH]; [reflexivity|]. cbn [repeat app]. now rewrite IH.
Qed.

Lemma drop_slashes_head :
  forall (l rest : list ascii) (c : ascii),
    HttpClient.drop_slashes l = c :: rest -> c <> "/"%char.
Proof.
  induction l as [|x l IH]; intros rest c H; [discriminate|].
  cbn [HttpClient.drop_slashes] in H. destruct (Ascii.eqb_spec x "/"%char) as [E|E].
  - eapply IH; eassumption.
  - injection H as <- _. exact E.
Qed.

(** The base URL of a client and the URL it requests: the constructor
    removes every trailing slash of [base_url] and nothing else, so the
    stored base never ends with a slash; [request] then asks for the
    base followed by the path, or for the path alone when nothing is
    left of the base, and appends [?] and the encoded parameters only
    when there are parameters; the timeout given to the call wins over
    the client's. *)
Theorem request_url_and_timeout :
  forall (seconds : Type) (urlencode : HttpClient.header_dict -> string)
         (json_dumps_utf8 : value -> HttpClient.bytes) (upper : string -> string)
         (base_url : string) (default_headers : option HttpClient.header_dict)
         (timeout : seconds) (method path : string) (data : option value)
         (headers params : option HttpClient.header_dict)
         (timeout_arg : option seconds),
    let client := HttpClient.HttpClient_init seconds base_url default_headers timeout in
    let base := HttpClient.base_url seconds client in
    let sent := HttpClient.prepare seconds urlencode json_dumps_utf8 upper
                                   client method path data headers params timeout_arg in
    (exists n, list_ascii_of_string base_url
               = list_ascii_of_string base ++ repeat "/"%char n)
    /\ (forall front, list_ascii_of_string base <> front ++ ["/"%char])
    /\ HttpClient.req_url (fst sent)
       = String.append
           (if String.eqb base "" then path else String.append base path)
           (match params with
            | Some (p :: ps) => String.append "?" (urlencode (p :: ps))
            | _ => ""%string
            end)
    /\ snd sent = match timeout_arg with Some t => t | None => timeout end.
Proof.
  intros seconds urlencode json_dumps_utf8 upper base_url default_headers timeout
         method path data headers params timeout_arg client base sent.
  assert (Hbase : list_ascii_of_string base
                  = rev (HttpClient.drop_slashes (rev (list_ascii_of_string base_url)))).
  { unfold base, client, HttpClient.HttpClient_init, HttpClient.rstrip_slash.
    cbn [HttpClient.base_url]. apply list_ascii_of_string_of_list_ascii. }
  split; [|split; [|split]].
  - destruct (drop_slashes_split (rev (list_ascii_of_string base_url))) as [n Hn].
    exists n. rewrite Hbase, <- (rev_repeat_same ascii "/"%char n), <- rev_app_distr, <- Hn.
    now rewrite rev_involutive.
  - intros front E. rewrite Hbase in E. apply (f_equal (@rev ascii)) in E.
    rewrite rev_involutive, rev_app_distr in E. cbn [rev app] in E.
    apply drop_slashes_head in E. congruence.
  - unfold sent, HttpClient.prepare. fold base.
    destruct data; cbn [fst HttpClient.req_url];
      destruct params as [[|p ps]|]; try reflexivity;
      destruct (String.eqb base ""); cbn [String.append];
      try reflexivity;
      try (clear; induction path as [|c path IH]; [reflexivity | simpl; now rewrite <- IH]);
      try (clear; induction (String.append base path) as [|c s IH];
           [reflexivity | simpl; now rewrite <- IH]).
  - unfold sent, HttpClient.prepare. destruct data; reflexivity.
Qed.

(** A base URL written with trailing slashes, and one made of a slash
    alone, which leaves the URL given as the path. *)
Lemma request_url_and_timeout_witness :
  HttpClient.req_url
    (fst (HttpClient.prepare unit (fun _ => "page=1"%string) (fun _ => []) (fun m => m)
            (HttpClient.HttpClient_init unit "https://api.example.com//"%string None tt)
            "GET"%string "/users"%string None None
            (Some [("page"%string, "1"%string)]) None))
  = "https://api.example.com/users?page=1"%string
  /\ HttpClient.req_url
       (fst (HttpClient.prepare unit (fun _ => ""%string) (fun _ => []) (fun m => m)
               (HttpClient.HttpClient_init unit "/"%string None tt)
               "GET"%string "https://api.example.com/users"%string
               None None None None))
     = "https://api.example.com/users"%string.
Proof.
  split.
  - destruct (request_url_and_timeout unit (fun _ => "page=1"%string) (fun _ => [])
                (fun m => m) "https://api.example.com//"%string None tt
                "GET"%string "/users"%string None None
                (Some [("page"%string, "1"%string)]) None) as [_ [_ [H _]]].
    exact H.
  - destruct (request_url_and_timeout unit (fun _ => ""%string) (fun _ => [])
                (fun m => m) "/"%string None tt
                "GET"%string "https://api.example.com/users"%string
                None None None None) as [_ [_ [H _]]].
    exact H.
Defined.

(** ** deep_merge: what is copied and what is shared *)

Section MergeFrame.
Variable rec : heap -> loc -> loc -> option (result (heap * loc)).
Hypothesis rec_frame :
  forall h c v h1 m,
    rec h c v = Some (Ok (h1, m)) -> Spec.extends h h1 /\ m = List.length h.

Lemma store_setitem_frame :
  forall (h h2 : heap) (result : loc) (key : string) (v : loc),
    Collections.store_setitem h result key v = Some h2 ->
    exists es,
      read h result = Some (ODict es)
      /\ h2 = write h result
                    (ODict (Collections.dict_setitem string string_dec es key v)).
Proof.
  intros h h2 result key v H. unfold Collections.store_setitem in H.
  destruct (read h result) as [[ | | | |es]|]; try discriminate.
  injection H as <-. now exists es.
Qed.

Lemma merge_items_frame :
  forall (items : list (string * loc)) (result : loc) (h h' : heap),
    Collections.merge_items rec items result h = Some (Ok h') ->
    forall l o, l <> result -> read h l = Some o -> read h' l = Some o.
Proof.
  induction items as [|[key value] rest IH]; intros result h h' Hrun l o Hne Hl.
  - injection Hrun as <-. exact Hl.
  - cbn [Collections.merge_items] in Hrun.
    assert (Hplain :
      match Collections.store_setitem h result key value with
      | Some h2 => Collections.merge_items rec rest result h2
      | None => Some (Raise TypeError)
      end = Some (Ok h') -> read h' l = Some o).
    { intros H. destruct (Collections.store_setitem h result key value) as [h2|] eqn:Es;
        [|discriminate].
      apply store_setitem_frame in Es as [es [_ ->]].
      eapply IH; [exact H | exact Hne|]. now rewrite read_write_other by congruence. }
    destruct (Collections.store_getitem h result key) as [current|]; [|now apply Hplain].
    destruct (is_dict h current && is_dict h value); [|now apply Hplain].
    destruct (rec h current value) as [[[h1 m]|e]|] eqn:Er; try discriminate.
    apply rec_frame in Er as [Hext _].
    destruct (Collections.store_setitem h1 result key m) as [h2|] eqn:Es; [|discriminate].
    apply store_setitem_frame in Es as [es [_ ->]].
    eapply IH; [exact Hrun | exact Hne|].
    rewrite read_write_other by congruence. now apply Hext.
Qed.

Variable base : heap.
Variable result : loc.
Hypothesis result_fresh : read base result = None.

Lemma is_dict_base :
  forall (h : heap) (l : loc) (o : obj),
    (forall x ox, read base x = Some ox -> read h x = Some ox) ->
    read base l = Some o -> is_dict h l = is_dict base l.
Proof.
  intros h l o Hext Hl. unfold is_dict. now rewrite (Hext l o Hl), Hl.
Qed.

Lemma merge_items_addresses :
  forall (items : list (string * loc)) (h h' : heap) (es : list (string * loc)),
    NoDup (map fst items) ->
    (forall x ox, read base x = Some ox -> read h x = Some ox) ->
    (forall k v, In (k, v) items -> exists o, read base v = Some o) ->
    (forall k c, In k (map fst items) ->
                 Collections.dict_get string string_dec es k = Some c ->
                 exists o, read base c = Some o) ->
    read h result = Some (ODict es) ->
    Collections.merge_items rec items result h = Some (Ok h') ->
    exists es',
      read h' result = Some (ODict es')
      /\ forall key, Spec.shares_entry base es items es' key.
Proof.
  induction items as [|[key value] rest IH];
    intros h h' es Hnd Hext Hitems Hes Hread Hrun.
  - injection Hrun as <-. exists es. split; [assumption|]. intros key. reflexivity.
  - inversion Hnd as [|? ? Hk Hrest]; subst.
    cbn [Collections.merge_items] in Hrun.
    unfold Collections.store_getitem in Hrun. rewrite Hread in Hrun.
    destruct (Hitems key value (or_introl eq_refl)) as [ov Hov].
    (* what remains to do once [result[key]] is set to [stored] in [h2] *)
    assert (Htail :
      forall (h1 : heap) (stored : loc),
        (forall x ox, read base x = Some ox -> read h1 x = Some ox) ->
        read h1 result = Some (ODict es) ->
        Collections.merge_items rec rest result
          (write h1 result
                 (ODict (Collections.dict_setitem string string_dec es key stored)))
        = Some (Ok h') ->
        exists es',
          read h' result = Some (ODict es')
          /\ Collections.dict_get string string_dec es' key = Some stored
          /\ forall k, k <> key ->
                       Spec.shares_entry base es ((key, value) :: rest) es' k).
    { intros h1 stored Hext1 Hread1 Hrun1.
      destruct (IH (write h1 result
                          (ODict (Collections.dict_setitem string string_dec
                                                           es key stored)))
                   h' (Collections.dict_setitem string string_dec es key stored)
                   Hrest) as [es' [Hr' Hshare]].
      - intros x ox Hx. rewrite read_write_other; [now apply Hext1|].
        intros E. subst x. congruence.
      - intros k v Hin. apply (Hitems k v). now right.
      - intros k c Hin Hc. apply (Hes k c); [now right|].
        rewrite dict_get_setitem_other in Hc; [assumption|].
        intros E. subst k. contradiction.
      - eapply read_write_same; eassumption.
      - exact Hrun1.
      - exists es'. split; [assumption|]. split.
        + specialize (Hshare key). unfold Spec.shares_entry in Hshare.
          rewrite (dict_get_absent _ rest key Hk) in Hshare.
          rewrite Hshare. apply dict_get_setitem_same.
        + intros k Hne. specialize (Hshare k). unfold Spec.shares_entry in *.
          cbn [Collections.dict_get]. destruct (string_dec key k); [congruence|].
          rewrite dict_get_setitem_other in Hshare by assumption. exact Hshare. }
    (* the branch that stores [value] itself *)
    assert (Hplain :
      match Collections.dict_get string string_dec es key with
      | Some c => is_dict base c && is_dict base value
      | None => false
      end = false ->
      match Collections.store_setitem h result key value with
      | Some h2 => Collections.merge_items rec rest result h2
      | None => Some (Raise TypeError)
      end = Some (Ok h') ->
      exists es',
        read h' result = Some (ODict es')
        /\ forall k, Spec.shares_entry base es ((key, value) :: rest) es' k).
    { intros Hcond H. unfold Collections.store_setitem in H. rewrite Hread in H.
      destruct (Htail h value Hext Hread H) as [es' [Hr' [Hkey Hother]]].
      exists es'. split; [assumption|]. intros k.
      destruct (string_dec k key) as [E|E]; [|now apply Hother].
      subst k. unfold Spec.shares_entry. cbn [Collections.dict_get].
      destruct (string_dec key key); [|contradiction]. now rewrite Hcond. }
    destruct (Collections.dict_get string string_dec es key) as [current|] eqn:Ec;
      [|now apply Hplain].
    destruct (Hes key current (or_introl eq_refl) Ec) as [oc Hoc].
    rewrite (is_dict_base h current oc Hext Hoc),
            (is_dict_base h value ov Hext Hov) in Hrun.
    destruct (is_dict base current && is_dict base value) eqn:Econd;
      [|now apply Hplain].
    destruct (rec h current value) as [[[h1 m]|e]|] eqn:Er; try discriminate.
    apply rec_frame in Er as [Hext1 Hm].
    unfold Collections.store_setitem in Hrun. rewrite (Hext1 _ _ Hread) in Hrun.
    destruct (Htail h1 m) as [es' [Hr' [Hkey Hother]]];
      [intros x ox Hx; now apply Hext1, Hext | now apply Hext1 | exact Hrun|].
    exists es'. split; [assumption|]. intros k.
    destruct (string_dec k key) as [E|E]; [|now apply Hother].
    subst k. unfold Spec.shares_entry. cbn [Collections.dict_get].
    destruct (string_dec key key); [|contradiction]. rewrite Ec, Econd.
    exists m. split; [assumption|].
    destruct (read base m) as [om|] eqn:Em; [|reflexivity].
    apply Hext in Em. subst m. rewrite read_fresh in Em. discriminate.
Qed.

End MergeFrame.

(** Whenever [deep_merge] returns, the dict is at the next free address
    and every object of the store is as it was. *)
Lemma deep_merge_frame :
  forall (fuel : nat) (h : heap) (la lb : loc) (h' : heap) (r : loc),
    Collections.deep_merge fuel h la lb = Some (Ok (h', r)) ->
    Spec.extends h h' /\ r = List.length h.
Proof.
  induction fuel as [|fuel IH]; intros h la lb h' r Hrun; [discriminate|].
  cbn [Collections.deep_merge] in Hrun.
  destruct (read h la) as [[ | | |elems|ea]|]; try discriminate.
  { unfold alloc in Hrun.
    destruct (read (h ++ [OList elems]) lb) as [[ | | | |[|entry eb]]|];
      try discriminate.
    injection Hrun as <- <-. split; [|reflexivity].
    intros l o Hl. now apply read_alloc_old. }
  unfold alloc in Hrun.
  destruct (read (h ++ [ODict ea]) lb) as [[ | | | |eb]|]; try discriminate.
  destruct (Collections.merge_items (Collections.deep_merge fuel) eb (List.length h)
                                    (h ++ [ODict ea])) as [[h2|e]|] eqn:Em;
    try discriminate.
  injection Hrun as <- <-. split; [|reflexivity].
  intros l o Hl.
  apply (merge_items_frame (Collections.deep_merge fuel) IH eb (List.length h)
                           (h ++ [ODict ea]) h2 Em).
  - intros E. subst l. rewrite read_fresh in Hl. discriminate.
  - now apply read_alloc_old.
Qed.

Lemma repr_allocated :
  forall (h : heap) (v : value) (l : loc),
    Spec.repr h v l -> exists o, read h l = Some o.
Proof.
  intros h v l H. destruct v; cbn [Spec.repr] in H; eauto;
    destruct H as [x [H _]]; eauto.
Qed.

Lemma entries_match_keys :
  forall (P : value -> loc -> Prop) (d : Spec.vdict) (es : list (string * loc)),
    Spec.entries_match P d es -> map fst d = map fst es.
Proof.
  intros P d es H; induction H as [|kv kl d es [Hk _] _ IH]; [reflexivity|].
  cbn [map]. now rewrite Hk, IH.
Qed.

Lemma entries_match_allocated :
  forall (h : heap) (d : Spec.vdict) (es : list (string * loc)),
    Spec.entries_match (Spec.repr h) d es ->
    forall k l, In (k, l) es -> exists o, read h l = Some o.
Proof.
  intros h d es H; induction H as [|kv kl d es [_ Hr] _ IH]; intros k l Hin;
    [contradiction|].
  destruct Hin as [E|Hin]; [|eapply IH; eassumption].
  subst kl. cbn [snd] in Hr. eapply repr_allocated; eassumption.
Qed.

Lemma dict_get_In :
  forall (es : list (string * loc)) (k : string) (l : loc),
    Collections.dict_get string string_dec es k = Some l -> In (k, l) es.
Proof.
  induction es as [|[k' l'] es IH]; intros k l H; [discriminate|].
  cbn [Collections.dict_get] in H. destruct (string_dec k' k) as [E|E].
  - injection H as <-. subst k'. now left.
  - right. now apply IH.
Qed.

(** [deep_merge] copies only what it merges: the dict it returns
    holds, under a key of both arguments whose two values are dicts, a
    dict that did not exist before the call, under any other key of
    the second argument the very object that the second argument holds
    there, and under a key of the first argument alone the very object
    that the first argument holds.  Nested objects that are not merged
    are shared with the arguments, not copied. *)
Theorem deep_merge_shares_values :
  forall (h : heap) (la lb : loc) (a b : Spec.vdict) (fuel : nat),
    Spec.repr h (VDict a) la ->
    Spec.repr h (VDict b) lb ->
    NoDup (map fst b) ->
    (Spec.dict_depth (VDict b) <= fuel)%nat ->
    exists (h' : heap) (r : loc) (ea eb er : list (string * loc)),
      Collections.deep_merge fuel h la lb = Some (Ok (h', r))
      /\ read h la = Some (ODict ea)
      /\ read h lb = Some (ODict eb)
      /\ read h' r = Some (ODict er)
      /\ forall key, Spec.shares_entry h ea eb er key.
Proof.
  intros h la lb a b fuel Ha Hb Hnd Hfuel.
  destruct (deep_merge_stable fuel h la lb a b (fun _ => False))
    as [h' [Hrun _]];
    [intros l [] | now apply repr_stable | now apply repr_stable | assumption|].
  apply repr_dict in Ha as [ea [Hra Hma]]. apply repr_dict in Hb as [eb [Hrb Hmb]].
  exists h', (List.length h), ea, eb.
  destruct fuel as [|fuel]; [discriminate|].
  pose proof Hrun as Hrun'. cbn [Collections.deep_merge] in Hrun'.
  rewrite Hra in Hrun'. unfold alloc in Hrun'.
  rewrite (read_alloc_old h (ODict ea) _ lb Hrb) in Hrun'.
  destruct (Collections.merge_items (Collections.deep_merge fuel) eb (List.length h)
                                    (h ++ [ODict ea])) as [[h2|e]|] eqn:Em;
    try discriminate.
  injection Hrun' as <-.
  destruct (merge_items_addresses (Collections.deep_merge fuel)
              (deep_merge_frame fuel) h (List.length h) (read_fresh h)
              eb (h ++ [ODict ea]) h2 ea) as [er [Hrr Hshare]].
  - rewrite <- (entries_match_keys _ _ _ Hmb). exact Hnd.
  - intros x ox Hx. now apply read_alloc_old.
  - intros k v Hin. exact (entries_match_allocated h b eb Hmb k v Hin).
  - intros k c _ Hc. apply dict_get_In in Hc.
    exact (entries_match_allocated h a ea Hma k c Hc).
  - apply read_alloc_new.
  - exact Em.
  - exists er. repeat split; assumption.
Qed.

(** Merging [{'a': {'b': 1}, 'x': [..]}] (at 5) with [{'a': {'c': 2}}]
    (at 6): the list under ['x'] of the result is the list of the
    first argument, at address 2. *)
Lemma deep_merge_shares_values_witness :
  let h := [OInt 1; OInt 2; OList [0%nat; 1%nat];
            ODict [("b"%string, 0%nat)]; ODict [("c"%string, 1%nat)];
            ODict [("a"%string, 3%nat); ("x"%string, 2%nat)];
            ODict [("a"%string, 4%nat)]] in
  exists h' r er,
    Collections.deep_merge 2 h 5%nat 6%nat = Some (Ok (h', r))
    /\ read h' r = Some (ODict er)
    /\ Collections.dict_get string string_dec er "x"%string = Some 2%nat.
Proof.
  intros h.
  destruct (deep_merge_shares_values h 5%nat 6%nat
              [("a"%string, VDict [("b"%string, VInt 1)]);
               ("x"%string, VList [VInt 1; VInt 2])]
              [("a"%string, VDict [("c"%string, VInt 2)])] 2%nat)
    as [h' [r [ea [eb [er [Hrun [Hra [Hrb [Hrr Hshare]]]]]]]]].
  - simpl. eexists. split; [reflexivity|]. simpl. repeat split.
    + eexists. split; [reflexivity|]. simpl. repeat split.
    + eexists. split; [reflexivity|]. simpl. repeat split.
  - simpl. eexists. split; [reflexivity|]. simpl. repeat split.
    eexists. split; [reflexivity|]. simpl. repeat split.
  - simpl. constructor; [intros [] | constructor].
  - simpl. lia.
  - exists h', r, er. split; [exact Hrun|]. split; [exact Hrr|].
    injection Hra as <-. injection Hrb as <-.
    exact (Hshare "x"%string).
Defined.

(** ** http_client: the one-off functions *)

Lemma drop_slashes_only :
  forall n : nat, HttpClient.drop_slashes (repeat "/"%char n) = [].
Proof.
  induction n as [|n IH]; [reflexivity|]. cbn [repeat HttpClient.drop_slashes].
  now rewrite IH.
Qed.

Lemma rstrip_slash_only :
  forall n : nat,
    HttpClient.rstrip_slash (string_of_list_ascii (repeat "/"%char n)) = ""%string.
Proof.
  intros n. unfold HttpClient.rstrip_slash.
  now rewrite list_ascii_of_string_of_list_ascii, rev_repeat_same, drop_slashes_only.
Qed.

(** The module-level [request], [get] and [post] do not use the
    module's default client: each call behaves as the method of a
    client that has no default headers and a base URL that is empty or
    made of slashes only, called with the timeout given per call,
    whatever that client's own timeout is.  So the URL is requested as
    given and [get] sends no body. *)
Theorem module_functions_as_client :
  forall (seconds : Type)
         (urlopen : HttpClient.Request -> seconds -> HttpClient.urlopen_result)
         (urlencode : HttpClient.header_dict -> string)
         (json_dumps_utf8 : value -> HttpClient.bytes) (upper : string -> string)
         (json_dumps_error : value -> option string)
         (Request_error : HttpClient.Request -> option string)
         (slashes : nat) (client_timeout timeout : seconds)
         (method url : string) (data : option value)
         (headers params : option HttpClient.header_dict),
    let client :=
      HttpClient.HttpClient_init seconds (string_of_list_ascii (repeat "/"%char slashes))
                                 None client_timeout in
    HttpClient.module_request seconds urlopen urlencode json_dumps_utf8 upper
                              json_dumps_error Request_error
                              method url data headers params timeout
    = HttpClient.request seconds urlopen urlencode json_dumps_utf8 upper
                         json_dumps_error Request_error
                         client method url data headers params (Some timeout)
    /\ HttpClient.module_get seconds urlopen urlencode json_dumps_utf8 upper
                             json_dumps_error Request_error
                             url headers params timeout
       = HttpClient.get seconds urlopen urlencode json_dumps_utf8 upper
                        json_dumps_error Request_error
                        client url headers params (Some timeout)
    /\ HttpClient.module_post seconds urlopen urlencode json_dumps_utf8 upper
                              json_dumps_error Request_error
                              url data headers timeout
       = HttpClient.post seconds urlopen urlencode json_dumps_utf8 upper
                         json_dumps_error Request_error
                         client url data headers (Some timeout)
    /\ HttpClient.req_url
         (fst (HttpClient.prepare seconds urlencode json_dumps_utf8 upper
                                  client method url data headers None (Some timeout)))
       = url.
Proof.
  intros seconds urlopen urlencode json_dumps_utf8 upper json_dumps_error
         Request_error slashes client_timeout
         timeout method url data headers params client.
  assert (Hclient : client = HttpClient.mkHttpClient seconds ""%string [] client_timeout).
  { unfold client, HttpClient.HttpClient_init. now rewrite rstrip_slash_only. }
  rewrite Hclient. clear Hclient client.
  unfold HttpClient.module_get, HttpClient.module_post, HttpClient.get,
    HttpClient.post, HttpClient.module_request, HttpClient.HttpClient_init.
  change (HttpClient.rstrip_slash "") with ""%string.
  repeat split; destruct data; reflexivity.
Qed.
